(** * distarray: index maps of a distributed array axis

    A shallow embedding of [distarray/local/maps.py] (the per-axis maps
    [BlockMap], [CyclicMap], [BlockCyclicMap], [UnstructuredMap], the
    factory [map_from_dim_dict] and the N-dimensional [MDMap]), of
    [DistArray._normalize_index] and [DistArray.from_localarrays] in
    [distarray/client.py] and of [Context._from_dim_data] in
    [distarray/context.py].

    Python integers are unbounded, so they are [Z].  Python's [//] and [%]
    round towards minus infinity and give the remainder the sign of the
    divisor, exactly as [Z.div] and [Z.modulo] do for a non-zero divisor; a
    zero divisor raises [ZeroDivisionError].  The one bounded integer type
    of the code, the [np.int32] elements of the buffer of
    [BlockCyclicMap.global_index], is [Z] with its 32-bit wrap-around.
    Exceptions are values of [exn], and a computation that may raise has
    type [result A]. *)

From Stdlib Require Import ZArith Lia.
From stdpp Require Import base numbers option list gmap strings.

Local Open Scope Z_scope.

(** ** Exceptions and the error monad

    The exceptions are those of Python that the code raises, and the
    descriptor-consistency error of the specification, which names an axis
    and the ranks in conflict on it. *)

Inductive exn : Set :=
| IndexError
| KeyError
| ValueError
| TypeError
| ZeroDivisionError
| AttributeError
| NotImplementedError
| OverflowError
| DescriptorConsistencyError (axis : Z) (ranks : list Z).

Inductive result (A : Type) : Type :=
| OK (a : A)
| Raise (e : exn).

Arguments OK {A} a.
Arguments Raise {A} e.

Definition bind {A B : Type} (r : result A) (k : A -> result B) : result B :=
  match r with
  | OK a => k a
  | Raise e => Raise e
  end.

Notation "'let*' x ':=' r 'in' k" := (bind r (fun x => k))
  (at level 10, x name, r at level 100, k at level 200, only parsing).

Definition is_ok {A : Type} (r : result A) : Prop := exists a, r = OK a.
Definition raises {A : Type} (r : result A) : Prop := exists e, r = Raise e.

(** [tuple(f(x) for x in xs)]: the elements are computed from left to
    right and the first exception ends the whole expression. *)
Fixpoint traverse {A B : Type} (f : A -> result B) (xs : list A)
  : result (list B) :=
  match xs with
  | [] => OK []
  | x :: xs' =>
      let* y := f x in
      let* ys := traverse f xs' in
      OK (y :: ys)
  end.

(** ** Python primitives used by the maps *)

(** [a // b] *)
Definition floordiv (a b : Z) : result Z :=
  if decide (b = 0) then Raise ZeroDivisionError else OK (a / b).

(** [a % b] *)
Definition pymod (a b : Z) : result Z :=
  if decide (b = 0) then Raise ZeroDivisionError else OK (a mod b).

(** [divmod(a, b)] *)
Definition divmod (a b : Z) : result (Z * Z) :=
  if decide (b = 0) then Raise ZeroDivisionError else OK (a / b, a mod b).

(** [len(range(start, stop, step))] for a non-zero step. *)
Definition range_len (start stop step : Z) : Z :=
  if decide (0 < step)
  then Z.max 0 ((stop - start + step - 1) / step)
  else Z.max 0 ((start - stop - step - 1) / (- step)).

(** [list(range(start, stop, step))]; a zero step raises [ValueError]. *)
Definition range3 (start stop step : Z) : result (list Z) :=
  if decide (step = 0) then Raise ValueError
  else OK ((fun k => start + k * step) <$> seqZ 0 (range_len start stop step)).

(** [list(range(start, stop))] *)
Definition range2 (start stop : Z) : list Z := seqZ start (stop - start).

(** [list(range(n))] *)
Definition range1 (n : Z) : list Z := seqZ 0 n.

(** [xs.index(x)]: the first position of [x], [ValueError] when absent. *)
Fixpoint list_index (xs : list Z) (x : Z) : result Z :=
  match xs with
  | [] => Raise ValueError
  | y :: ys =>
      if decide (y = x) then OK 0
      else let* i := list_index ys x in OK (i + 1)
  end.

(** [xs[i]]: a negative [i] counts from the end; outside
    [-len(xs) <= i < len(xs)] the access raises [IndexError]. *)
Definition list_getitem {A : Type} (xs : list A) (i : Z) : result A :=
  let n := Z.of_nat (length xs) in
  let j := if decide (i < 0) then i + n else i in
  if decide (0 <= j < n)
  then match xs !! Z.to_nat j with
       | Some x => OK x
       | None => Raise IndexError
       end
  else Raise IndexError.

(** [dict(zip(ks, vs))]: pairs are inserted from left to right, so a key
    that occurs twice keeps its last value; [zip] stops at the shorter
    sequence. *)
Definition dict_zip (ks vs : list Z) : gmap Z Z :=
  foldl (fun d kv => <[kv.1 := kv.2]> d) ∅ (zip ks vs).

(** [d[k]] *)
Definition dict_getitem (d : gmap Z Z) (k : Z) : result Z :=
  match d !! k with
  | Some v => OK v
  | None => Raise KeyError
  end.

(** [buffer[i] = v] for a NumPy buffer of element type [np.int32] and a
    Python integer [v].  NumPy 1, which the package is written for,
    converts [v] to a C [long] (64 bits), raising [OverflowError] when it
    does not fit, and keeps its low 32 bits; the element reads back as the
    signed value of those bits.  A value inside [-2^31 .. 2^31) is
    therefore stored as it is, and any other value is not. *)
Definition int32_wrap (v : Z) : Z :=
  (v + 2147483648) mod 4294967296 - 2147483648.

Definition int32_setitem (v : Z) : result Z :=
  if decide (- 9223372036854775808 <= v < 9223372036854775808)
  then OK (int32_wrap v)
  else Raise OverflowError.

(** A [slice(start, stop, step)] object. *)
Record pyslice : Set := Slice {
  slice_start : Z;
  slice_stop : Z;
  slice_step : option Z
}.

(** ** Axis descriptors

    A descriptor ([dim_dict]) is a Python dict with string keys.  Only the
    keys below are ever read or written, so the dict is a record with one
    optional field per key: [None] stands for a missing key. *)

Module DimDict.

Record t : Type := Make {
  dist_type : option string;
  size : option Z;
  proc_grid_rank : option Z;
  proc_grid_size : option Z;
  start : option Z;
  stop : option Z;
  block_size : option Z;
  indices : option (list Z)
}.

(** [dd[key]] *)
Definition getitem {A : Type} (field : option A) : result A :=
  match field with
  | Some v => OK v
  | None => Raise KeyError
  end.

(** [dd.get(key, default)] *)
Definition get {A : Type} (field : option A) (default : A) : A :=
  match field with
  | Some v => v
  | None => default
  end.

End DimDict.

(** ** BlockMap *)

Module BlockMap.

Record t : Type := Make {
  start : Z;
  stop : Z;
  local_size : Z;
  global_size : Z;
  grid_size : Z;
  grid_rank : Z
}.

(** [__init__]: [start] and [stop] are [None] when the descriptor has no
    such key, and [stop - start] then raises [TypeError]. *)
Definition init (global_size grid_size grid_rank : Z)
    (start stop : option Z) : result t :=
  match start, stop with
  | Some start, Some stop =>
      OK {| start := start;
            stop := stop;
            local_size := stop - start;
            global_size := global_size;
            grid_size := grid_size;
            grid_rank := grid_rank |}
  | _, _ => Raise TypeError
  end.

Definition local_from_global (self : t) (gidx : Z) : result Z :=
  if decide (gidx < start self \/ gidx >= stop self)
  then Raise IndexError
  else OK (gidx - start self).

Definition global_from_local (self : t) (lidx : Z) : result Z :=
  if decide (lidx >= local_size self)
  then Raise IndexError
  else OK (lidx + start self).

Definition global_slice (self : t) : result pyslice :=
  OK (Slice (start self) (stop self) None).

Definition dist : string := "b".

Definition dim_dict (self : t) : result DimDict.t :=
  OK {| DimDict.dist_type := Some dist;
        DimDict.size := Some (global_size self);
        DimDict.proc_grid_rank := Some (grid_rank self);
        DimDict.proc_grid_size := Some (grid_size self);
        DimDict.start := Some (start self);
        DimDict.stop := Some (stop self);
        DimDict.block_size := None;
        DimDict.indices := None |}.

Definition global_index (self : t) : result (list Z) :=
  OK (range2 (start self) (stop self)).

Definition local_index (self : t) : result (gmap Z Z) :=
  let local_indices := range1 (local_size self) in
  let* gi := global_index self in
  OK (dict_zip gi local_indices).

Definition size (self : t) : result Z :=
  let* gi := global_index self in
  OK (Z.of_nat (length gi)).

End BlockMap.

(** ** CyclicMap *)

Module CyclicMap.

Record t : Type := Make {
  start : Z;
  grid_size : Z;
  grid_rank : Z;
  local_size : Z;
  global_size : Z
}.

(** [__init__].  With [start = None] the first test is true and the
    ["%d"] formatting of the message raises [TypeError]. *)
Definition init (global_size grid_size grid_rank : Z)
    (start : option Z) : result t :=
  match start with
  | None => Raise TypeError
  | Some start =>
      if decide (start <> grid_rank) then Raise ValueError
      else if decide (start >= grid_size) then Raise ValueError
      else
        let* q := floordiv (global_size - 1 - grid_rank) grid_size in
        OK {| start := start;
              grid_size := grid_size;
              grid_rank := grid_rank;
              local_size := q + 1;
              global_size := global_size |}
  end.

Definition local_from_global (self : t) (gidx : Z) : result Z :=
  let* r := pymod (gidx - start self) (grid_size self) in
  if decide (r <> 0) then Raise IndexError
  else floordiv (gidx - start self) (grid_size self).

Definition global_from_local (self : t) (lidx : Z) : result Z :=
  if decide (lidx >= local_size self)
  then Raise IndexError
  else OK (lidx * grid_size self + start self).

Definition global_slice (self : t) : result pyslice :=
  OK (Slice (start self) (global_size self) (Some (grid_size self))).

Definition dist : string := "c".

Definition dim_dict (self : t) : result DimDict.t :=
  OK {| DimDict.dist_type := Some dist;
        DimDict.size := Some (global_size self);
        DimDict.proc_grid_rank := Some (grid_rank self);
        DimDict.proc_grid_size := Some (grid_size self);
        DimDict.start := Some (start self);
        DimDict.stop := None;
        DimDict.block_size := None;
        DimDict.indices := None |}.

Definition global_index (self : t) : result (list Z) :=
  range3 (start self) (global_size self) (grid_size self).

Definition local_index (self : t) : result (gmap Z Z) :=
  let local_indices := range1 (local_size self) in
  let* gi := global_index self in
  OK (dict_zip gi local_indices).

Definition size (self : t) : result Z :=
  let* gi := global_index self in
  OK (Z.of_nat (length gi)).

End CyclicMap.

(** ** BlockCyclicMap *)

Module BlockCyclicMap.

(** [__init__] assigns [start], [start_block], [block_size], [grid_size],
    [local_size] and [global_size]; it never assigns [self.grid_rank].  The
    field [grid_rank] holds the attribute when it is set on the object and
    [None] when the attribute is missing. *)
Record t : Type := Make {
  start : Z;
  start_block : Z;
  block_size : Z;
  grid_size : Z;
  local_size : Z;
  global_size : Z;
  grid_rank : option Z
}.

Definition init (global_size grid_size grid_rank : Z)
    (start : option Z) (block_size : Z) : result t :=
  match start with
  | None => Raise TypeError
  | Some start =>
      let* r := pymod start block_size in
      if decide (r <> 0) then Raise ValueError
      else
        let* start_block := floordiv start block_size in
        let* global_nblocks := floordiv global_size block_size in
        if decide (global_nblocks * block_size <> global_size)
        then Raise ValueError
        else
          let* q := floordiv (global_nblocks - 1 - grid_rank) grid_size in
          let local_nblocks := q + 1 in
          OK {| start := start;
                start_block := start_block;
                block_size := block_size;
                grid_size := grid_size;
                local_size := local_nblocks * block_size;
                global_size := global_size;
                grid_rank := None |}
  end.

Definition local_from_global (self : t) (gidx : Z) : result Z :=
  let* qr := divmod gidx (block_size self) in
  let '(global_block, offset) := qr in
  let* r := pymod (global_block - start_block self) (grid_size self) in
  if decide (r <> 0) then Raise IndexError
  else
    let* q := floordiv (global_block - start_block self) (grid_size self) in
    OK (block_size self * q + offset).

Definition global_from_local (self : t) (lidx : Z) : result Z :=
  if decide (lidx >= local_size self)
  then Raise IndexError
  else
    let* qr := divmod lidx (block_size self) in
    let '(local_block, offset) := qr in
    let global_block := local_block * grid_size self + start_block self in
    OK (global_block * block_size self + offset).

Definition global_slice (self : t) : result pyslice :=
  Raise NotImplementedError.

Definition dist : string := "c".

(** The dict display reads [self.grid_rank] for its third entry; reading
    an attribute that was never assigned raises [AttributeError]. *)
Definition dim_dict (self : t) : result DimDict.t :=
  match grid_rank self with
  | None => Raise AttributeError
  | Some grid_rank =>
      OK {| DimDict.dist_type := Some dist;
            DimDict.size := Some (global_size self);
            DimDict.proc_grid_rank := Some grid_rank;
            DimDict.proc_grid_size := Some (grid_size self);
            DimDict.start := Some (start self);
            DimDict.stop := None;
            DimDict.block_size := Some (block_size self);
            DimDict.indices := None |}
  end.

(** [np.empty((local_size,), dtype=np.int32)] raises [ValueError] for a
    negative length; the buffer is then filled, for [i] in
    [range(local_size)], with [global_from_local(i)] stored as a 32-bit
    element.  The list is the content of the buffer. *)
Definition global_index (self : t) : result (list Z) :=
  if decide (local_size self < 0) then Raise ValueError
  else
    traverse
      (fun i => let* g := global_from_local self i in int32_setitem g)
      (range1 (local_size self)).

Definition size (self : t) : result Z :=
  let* gi := global_index self in
  OK (Z.of_nat (length gi)).

Definition local_index (self : t) : result (gmap Z Z) :=
  let local_indices := range1 (local_size self) in
  let* gi := global_index self in
  OK (dict_zip gi local_indices).

End BlockCyclicMap.

(** ** UnstructuredMap *)

Module UnstructuredMap.

Record t : Type := Make {
  global_size : Z;
  grid_size : Z;
  grid_rank : Z;
  indices : list Z;
  local_size : Z;
  _local_index : gmap Z Z
}.

(** [__init__]: [list(None)] raises [TypeError]; nothing else is checked. *)
Definition init (global_size grid_size grid_rank : Z)
    (indices : option (list Z)) : result t :=
  match indices with
  | None => Raise TypeError
  | Some indices =>
      let local_indices := range1 (Z.of_nat (length indices)) in
      OK {| global_size := global_size;
            grid_size := grid_size;
            grid_rank := grid_rank;
            indices := indices;
            local_size := Z.of_nat (length indices);
            _local_index := dict_zip indices local_indices |}
  end.

(** The [ValueError] of [list.index] is caught and turned into
    [IndexError]. *)
Definition local_from_global (self : t) (gidx : Z) : result Z :=
  match list_index (indices self) gidx with
  | OK lidx => OK lidx
  | Raise ValueError => Raise IndexError
  | Raise e => Raise e
  end.

Definition global_from_local (self : t) (lidx : Z) : result Z :=
  list_getitem (indices self) lidx.

Definition global_slice (self : t) : result pyslice :=
  Raise NotImplementedError.

Definition dist : string := "u".

Definition dim_dict (self : t) : result DimDict.t :=
  OK {| DimDict.dist_type := Some dist;
        DimDict.size := Some (global_size self);
        DimDict.proc_grid_rank := Some (grid_rank self);
        DimDict.proc_grid_size := Some (grid_size self);
        DimDict.start := None;
        DimDict.stop := None;
        DimDict.block_size := None;
        DimDict.indices := Some (indices self) |}.

Definition global_index (self : t) : result (list Z) :=
  OK (indices self).

Definition local_index (self : t) : result (gmap Z Z) :=
  OK (_local_index self).

Definition size (self : t) : result Z :=
  let* gi := global_index self in
  OK (Z.of_nat (length gi)).

End UnstructuredMap.

(** ** The four variants behind one interface

    The maps are used through the attributes they share; [AxisMap] is the
    union of the four classes and each operation dispatches on the class
    of the object. *)

Inductive AxisMap : Type :=
| Block (m : BlockMap.t)
| Cyclic (m : CyclicMap.t)
| BlockCyclic (m : BlockCyclicMap.t)
| Unstructured (m : UnstructuredMap.t).

Definition local_from_global (m : AxisMap) (gidx : Z) : result Z :=
  match m with
  | Block m => BlockMap.local_from_global m gidx
  | Cyclic m => CyclicMap.local_from_global m gidx
  | BlockCyclic m => BlockCyclicMap.local_from_global m gidx
  | Unstructured m => UnstructuredMap.local_from_global m gidx
  end.

Definition global_from_local (m : AxisMap) (lidx : Z) : result Z :=
  match m with
  | Block m => BlockMap.global_from_local m lidx
  | Cyclic m => CyclicMap.global_from_local m lidx
  | BlockCyclic m => BlockCyclicMap.global_from_local m lidx
  | Unstructured m => UnstructuredMap.global_from_local m lidx
  end.

Definition local_size (m : AxisMap) : Z :=
  match m with
  | Block m => BlockMap.local_size m
  | Cyclic m => CyclicMap.local_size m
  | BlockCyclic m => BlockCyclicMap.local_size m
  | Unstructured m => UnstructuredMap.local_size m
  end.

Definition global_index (m : AxisMap) : result (list Z) :=
  match m with
  | Block m => BlockMap.global_index m
  | Cyclic m => CyclicMap.global_index m
  | BlockCyclic m => BlockCyclicMap.global_index m
  | Unstructured m => UnstructuredMap.global_index m
  end.

Definition local_index (m : AxisMap) : result (gmap Z Z) :=
  match m with
  | Block m => BlockMap.local_index m
  | Cyclic m => CyclicMap.local_index m
  | BlockCyclic m => BlockCyclicMap.local_index m
  | Unstructured m => UnstructuredMap.local_index m
  end.

Definition size (m : AxisMap) : result Z :=
  match m with
  | Block m => BlockMap.size m
  | Cyclic m => CyclicMap.size m
  | BlockCyclic m => BlockCyclicMap.size m
  | Unstructured m => UnstructuredMap.size m
  end.

Definition dim_dict (m : AxisMap) : result DimDict.t :=
  match m with
  | Block m => BlockMap.dim_dict m
  | Cyclic m => CyclicMap.dim_dict m
  | BlockCyclic m => BlockCyclicMap.dim_dict m
  | Unstructured m => UnstructuredMap.dim_dict m
  end.

(** ** The factory *)

Definition map_from_dim_dict (dd : DimDict.t) : result AxisMap :=
  let* dist_type := DimDict.getitem (DimDict.dist_type dd) in
  let* size := DimDict.getitem (DimDict.size dd) in
  let start := DimDict.start dd in
  let stop := DimDict.stop dd in
  let grid_rank := DimDict.get (DimDict.proc_grid_rank dd) 0 in
  let grid_size := DimDict.get (DimDict.proc_grid_size dd) 1 in
  let block_size := DimDict.get (DimDict.block_size dd) 1 in
  let indices := DimDict.indices dd in
  if decide (dist_type = "n") then
    let* m := BlockMap.init size grid_size grid_rank (Some 0) (Some size) in
    OK (Block m)
  else if decide (dist_type = "b") then
    let* m := BlockMap.init size grid_size grid_rank start stop in
    OK (Block m)
  else if decide (dist_type = "c" /\ block_size = 1) then
    let* m := CyclicMap.init size grid_size grid_rank start in
    OK (Cyclic m)
  else if decide (dist_type = "c" /\ block_size > 1) then
    let* m := BlockCyclicMap.init size grid_size grid_rank start block_size in
    OK (BlockCyclic m)
  else if decide (dist_type = "u") then
    let* m := UnstructuredMap.init size grid_size grid_rank indices in
    OK (Unstructured m)
  else Raise ValueError.

(** ** MDMap: one map per dimension *)

Module MDMap.

Record t : Type := Make {
  maps : list AxisMap;
  ndim : Z
}.

Definition from_dim_data (dim_data : list DimDict.t) : result t :=
  let* maps := traverse map_from_dim_dict dim_data in
  OK {| maps := maps; ndim := Z.of_nat (length maps) |}.

Definition local_shape (self : t) : result (list Z) :=
  traverse size (maps self).

(** [global_ind] is the tuple of the positional arguments.  For each
    [dim] the map is taken first, then its [local_index] dict is built,
    then [global_ind[dim]] is read, then the dict is subscripted. *)
Definition local_from_global (self : t) (global_ind : list Z)
  : result (list Z) :=
  traverse
    (fun dim =>
       let* m := list_getitem (maps self) dim in
       let* d := local_index m in
       let* g := list_getitem global_ind dim in
       dict_getitem d g)
    (range1 (ndim self)).

Definition global_from_local (self : t) (local_ind : list Z)
  : result (list Z) :=
  traverse
    (fun dim =>
       let* m := list_getitem (maps self) dim in
       let* gi := global_index m in
       let* l := list_getitem local_ind dim in
       list_getitem gi l)
    (range1 (ndim self)).

Definition getitem (self : t) (idx : Z) : result AxisMap :=
  list_getitem (maps self) idx.

Definition len (self : t) : Z := Z.of_nat (length (maps self)).

End MDMap.

(** ** Notions used in the statements *)

(** [m] is the object some call of its class's [__init__] returned. *)
Definition constructed (m : AxisMap) : Prop :=
  match m with
  | Block m =>
      exists n p r s e, BlockMap.init n p r s e = OK m
  | Cyclic m =>
      exists n p r s, CyclicMap.init n p r s = OK m
  | BlockCyclic m =>
      exists n p r s b, BlockCyclicMap.init n p r s b = OK m
  | Unstructured m =>
      exists n p r idx, UnstructuredMap.init n p r idx = OK m
  end.

(** Valid parameters: the constructor accepted them, and the index list of
    an unstructured map has no duplicate (which its constructor does not
    check). *)
Definition valid_parameters (m : AxisMap) : Prop :=
  constructed m /\
  match m with
  | Unstructured m => NoDup (UnstructuredMap.indices m)
  | _ => True
  end.

(** [ceil_div a b], the least integer not below [a / b]. *)
Definition ceil_div (a b : Z) : Z := - ((- a) / b).

(** The value [global_from_local] computes for local index [l] of a
    block-cyclic map, as one expression. *)
Definition bc_image (m : BlockCyclicMap.t) (l : Z) : Z :=
  (l / BlockCyclicMap.block_size m * BlockCyclicMap.grid_size m
   + BlockCyclicMap.start_block m) * BlockCyclicMap.block_size m
  + l mod BlockCyclicMap.block_size m.

(** The owned global indices of a map, read off its translation: the
    Python integers [global_from_local(l)] for [l] in [range(local_size)],
    in local order. *)
Definition owned_globals (m : AxisMap) : result (list Z) :=
  traverse (global_from_local m) (range1 (local_size m)).

(** Every global index of a block-cyclic map fits the 32-bit elements of
    the buffer its [global_index] is stored in.  The other three classes
    keep their indices in Python lists, which hold any integer. *)
Definition int32_indices (m : AxisMap) : Prop :=
  match m with
  | BlockCyclic m =>
      forall l g,
        0 <= l < BlockCyclicMap.local_size m ->
        BlockCyclicMap.global_from_local m l = OK g ->
        - 2147483648 <= g < 2147483648
  | _ => True
  end.

(** The owned global indices of rank [r] of a cyclic axis of [n] indices
    over [p] ranks: the map is built with [grid_rank = start = r], and the
    indices are its [global_index]. *)
Definition cyclic_owned (n p r : Z) : result (list Z) :=
  let* m := CyclicMap.init n p r (Some r) in
  CyclicMap.global_index m.

(** The same for a block-cyclic axis with blocks of [b] indices: rank [r]
    is built with [grid_rank = r] and [start = r * b], and the indices are
    what its [global_from_local] gives for the local indices. *)
Definition block_cyclic_owned (n p b r : Z) : result (list Z) :=
  let* m := BlockCyclicMap.init n p r (Some (r * b)) b in
  owned_globals (BlockCyclic m).

(** The lists [owned 0], ..., [owned (p - 1)] partition [range(n)]: each
    is computed without error, has no repetition and stays inside
    [range(n)]; every index of [range(n)] is in one of them; and no index is
    in two of them. *)
Definition partition_of_range (n p : Z) (owned : Z -> result (list Z)) : Prop :=
  (forall r, 0 <= r < p ->
     exists gs, owned r = OK gs /\ NoDup gs /\ forall g, g ∈ gs -> 0 <= g < n) /\
  (forall g, 0 <= g < n ->
     exists r gs, 0 <= r < p /\ owned r = OK gs /\ g ∈ gs) /\
  (forall r1 r2 gs1 gs2 g,
     0 <= r1 < p -> 0 <= r2 < p ->
     owned r1 = OK gs1 -> owned r2 = OK gs2 ->
     g ∈ gs1 -> g ∈ gs2 -> r1 = r2).

(** Two maps of one axis of [n] indices behave identically: they have
    the same owned global indices, in the same local order,
    [local_from_global] agrees on every global index of [range(n)], the
    local sizes agree and [global_from_local] agrees on every local index
    below the local size. *)
Definition same_behaviour (m1 m2 : AxisMap) (n : Z) : Prop :=
  (exists gs, owned_globals m1 = OK gs /\ owned_globals m2 = OK gs) /\
  (forall g, 0 <= g < n -> local_from_global m1 g = local_from_global m2 g) /\
  local_size m1 = local_size m2 /\
  (forall l, 0 <= l < local_size m1 ->
     global_from_local m1 l = global_from_local m2 l).

(** [map_from_dim_dict(m.dim_dict)] *)
Definition round_trip (m : AxisMap) : result AxisMap :=
  let* dd := dim_dict m in
  map_from_dim_dict dd.

(** Well-formed maps: valid parameters, a positive grid size for a cyclic
    map and a local size that is not negative for a block-cyclic map (both
    hold when [0 <= grid_rank < grid_size] and [global_size >= 0]). *)
Definition well_formed (m : AxisMap) : Prop :=
  valid_parameters m /\
  match m with
  | Cyclic m => 0 < CyclicMap.grid_size m
  | BlockCyclic m => 0 <= BlockCyclicMap.local_size m
  | _ => True
  end.

(** [m] owns the global index [g]: [g] is in [m.global_index], the
    enumeration of its owned global indices. *)
Definition owns (m : AxisMap) (g : Z) : Prop :=
  exists gs, global_index m = OK gs /\ g ∈ gs.

(** The class invariant of [MDMap]: [ndim] is the number of maps. *)
Definition MDMap_invariant (md : MDMap.t) : Prop :=
  MDMap.ndim md = Z.of_nat (length (MDMap.maps md)).

(** The element the generator of [MDMap.local_from_global] yields for
    [dim]. *)
Definition axis_local (md : MDMap.t) (global_ind : list Z) (dim : Z)
  : result Z :=
  let* m := list_getitem (MDMap.maps md) dim in
  let* d := local_index m in
  let* g := list_getitem global_ind dim in
  dict_getitem d g.

(** A block axis of 10 indices of which this rank holds [0..5), and the
    cyclic axis of 16 indices over 4 ranks at rank 2. *)
Definition block_cyclic_dim_data : list DimDict.t :=
  [ DimDict.Make (Some "b") (Some 10) (Some 0) (Some 2) (Some 0) (Some 5)
      None None;
    DimDict.Make (Some "c") (Some 16) (Some 2) (Some 4) (Some 2) None
      None None ].

(** The cyclic map of 16 indices over 4 ranks at rank 2, and the block
    map holding [0..5) of 10 indices. *)
Definition cyclic_16_4_2 : CyclicMap.t := CyclicMap.Make 2 4 2 4 16.

Definition block_10_0_5 : BlockMap.t := BlockMap.Make 0 5 5 10 2 0.

(** The block-cyclic map of 16 indices in blocks of 2 over 4 ranks at rank
    1, as [BlockCyclicMap(16, 4, 1, 2, 2)] builds it, and the
    two-dimensional map of it and the cyclic map. *)
Definition block_cyclic_16_4_1 : BlockCyclicMap.t :=
  BlockCyclicMap.Make 2 1 2 4 4 16 None.

Definition mdmap_two_cyclic : MDMap.t :=
  MDMap.Make [BlockCyclic block_cyclic_16_4_1; Cyclic cyclic_16_4_2] 2.

(** Maps whose enumeration of owned global indices is ascending by
    construction: block maps, cyclic maps with a positive grid size and
    block-cyclic maps with positive block and grid sizes.  An unstructured
    map keeps the order of its index list, whatever it is. *)
Definition ascending_parameters (m : AxisMap) : Prop :=
  match m with
  | Block _ => True
  | Cyclic m => 0 < CyclicMap.grid_size m
  | BlockCyclic m =>
      0 < BlockCyclicMap.block_size m /\ 0 < BlockCyclicMap.grid_size m
  | Unstructured _ => False
  end.

(** The maps whose [local_from_global] tests ownership itself. *)
Definition checks_ownership (m : AxisMap) : Prop :=
  match m with
  | Block _ | Unstructured _ => True
  | Cyclic _ | BlockCyclic _ => False
  end.

(** The element the generator of [MDMap.global_from_local] yields for
    [dim]. *)
Definition axis_global (md : MDMap.t) (local_ind : list Z) (dim : Z)
  : result Z :=
  let* m := list_getitem (MDMap.maps md) dim in
  let* gi := global_index m in
  let* l := list_getitem local_ind dim in
  list_getitem gi l.

(** ** DistArray._normalize_index

    The index handed to [DistArray.__getitem__] is an integer, a list or a
    tuple; its components are integers here (a slice component is not
    modelled).  [shape] is [self.shape], a tuple of integers. *)

Inductive index_arg : Type :=
| IndexInt (i : Z)
| IndexList (l : list Z)
| IndexTuple (l : list Z).

(** [enumerate(xs)] *)
Definition enumerate {A : Type} (xs : list A) : list (Z * A) :=
  zip (seqZ 0 (Z.of_nat (length xs))) xs.

Module DistArray.

(** The coercion to a tuple at the head of [_normalize_index]. *)
Definition coerce (index : index_arg) : list Z :=
  match index with
  | IndexInt i => [i]
  | IndexList l => l
  | IndexTuple l => l
  end.

(** The loop that makes negative components positive: [shape[dim]] is
    read for a negative component only. *)
Definition positivify (shape : list Z) (index : list Z)
  : result (list Z) :=
  traverse
    (fun di =>
       if decide (di.2 >= 0) then OK di.2
       else let* s := list_getitem shape di.1 in OK (s + di.2))
    (enumerate index).

(** The bounds loop: [i >= self.shape[dim]] is evaluated first. *)
Definition check_bounds (shape : list Z) (index : list Z)
  : result (list unit) :=
  traverse
    (fun di =>
       let* s := list_getitem shape di.1 in
       if decide (di.2 >= s \/ di.2 < 0) then Raise IndexError else OK tt)
    (enumerate index).

Definition _normalize_index (shape : list Z) (index : index_arg)
  : result (list Z) :=
  let index := coerce index in
  let* out := positivify shape index in
  let index := out in
  let* checked := check_bounds shape index in
  OK index.

(** The object [from_localarrays] returns: [key] names the local arrays on
    the engines, [mdmap] is the distribution seen from the client and
    [_dtype] the element type. *)
Record t (D T : Type) : Type := Make {
  key : string;
  mdmap : D;
  _dtype : T
}.

Arguments Make {D T} key mdmap _dtype.
Arguments key {D T} _.
Arguments mdmap {D T} _.
Arguments _dtype {D T} _.

(** [from_localarrays] and its helper [_make_mdmap_from_local_dimdata].
    [L] is what the engines hold under [key].  The engines are reached
    through the view of the context and [Distribution] is a class of
    [distarray.client_map], which is not among the sources; they are the
    variables of the section. *)
Section from_localarrays.

Variables L D T : Type.

(** [context._execute] of [name = key.dim_data] and [context._pull(name)]:
    the descriptors of the local arrays, one sequence per target. *)
Variable pull_dim_data : L -> result (list (list DimDict.t)).

(** [_get_attribute(context, key, 'dtype')] *)
Variable pull_dtype : L -> result T.

(** [Distribution.from_dim_data(context, dim_datas)]; of the context it is
    given the targets. *)
Variable Distribution_from_dim_data :
  list Z -> list (list DimDict.t) -> result D.

Definition _make_mdmap_from_local_dimdata (local_arrays : L)
    (targets : list Z) : result D :=
  let* dim_datas := pull_dim_data local_arrays in
  Distribution_from_dim_data targets dim_datas.

Definition from_localarrays (key : string) (local_arrays : L)
    (targets : list Z) : result (t D T) :=
  let* mdmap := _make_mdmap_from_local_dimdata local_arrays targets in
  let* dtype := pull_dtype local_arrays in
  OK (Make key mdmap dtype).

End from_localarrays.

Arguments _make_mdmap_from_local_dimdata {L D} _ _ _ _.
Arguments from_localarrays {L D T} _ _ _ _ _ _.

End DistArray.

(** ** Context._from_dim_data

    The method compares the number of targets with the number of entries
    of the table, has every engine evaluate
    [LocalArray.from_dim_data(table[rank], dtype, comm)] and returns
    [DistArray.from_localarrays(da_key, self)].  Of the context it reads
    [targets]; [da_key] is the fresh key it generates.  The engines and
    the two classes whose modules are not among the sources are again the
    variables of the section. *)

Module Context.

Section reconstruction.

Variables L D T : Type.

(** [self._key_and_push(...)] and [self._execute(cmd)]: what the engines
    hold under [da_key] once each has built its local array. *)
Variable execute_from_dim_data : list (list DimDict.t) -> T -> result L.

Variable pull_dim_data : L -> result (list (list DimDict.t)).

Variable pull_dtype : L -> result T.

Variable Distribution_from_dim_data :
  list Z -> list (list DimDict.t) -> result D.

Definition _from_dim_data (targets : list Z) (da_key : string)
    (dim_data_per_rank : list (list DimDict.t)) (dtype : T)
  : result (DistArray.t D T) :=
  if decide (length targets <> length dim_data_per_rank)
  then Raise TypeError
  else
    let* local_arrays := execute_from_dim_data dim_data_per_rank dtype in
    DistArray.from_localarrays pull_dim_data pull_dtype
      Distribution_from_dim_data da_key local_arrays targets.

End reconstruction.

Arguments _from_dim_data {L D T} _ _ _ _ _ _ _ _.

End Context.

(** ** The classes outside the sources *)

(** Modelled from the spec: [distarray.local.LocalArray], the array of one
    rank, whose module [distarray/local/localarray.py] is missing.  By the
    data flow of the specification (section 2) the descriptor sequence of
    a rank is turned into one map per axis by the factory and the maps are
    composed into the distribution of the rank, which is
    [MDMap.from_dim_data]; and the descriptors an array describes itself
    with are the portable record of its maps (section 3), here the
    sequence it was built from. *)
Module LocalArray.

Record t (T : Type) : Type := Make {
  distribution : MDMap.t;
  dim_data : list DimDict.t;
  dtype : T
}.

Arguments Make {T} distribution dim_data dtype.
Arguments distribution {T} _.
Arguments dim_data {T} _.
Arguments dtype {T} _.

Definition from_dim_data {T : Type} (dim_data : list DimDict.t) (dtype : T)
  : result (t T) :=
  let* distribution := MDMap.from_dim_data dim_data in
  OK (Make distribution dim_data dtype).

End LocalArray.

(** The engines behind the view of a context (IPython's parallel view, a
    library outside the package), one per target, in rank order: the
    command of [_from_dim_data] is evaluated by every engine on the entry
    of its rank, and a value is pulled from every engine, or from the first
    one.  [remote] is the exception the view raises on the client for an
    exception raised on an engine. *)
Module Engines.

Definition from_dim_data {T : Type} (remote : exn -> exn)
    (dim_data_per_rank : list (list DimDict.t)) (dtype : T)
  : result (list (LocalArray.t T)) :=
  match
    traverse (fun dim_data => LocalArray.from_dim_data dim_data dtype)
      dim_data_per_rank
  with
  | OK local_arrays => OK local_arrays
  | Raise e => Raise (remote e)
  end.

Definition dim_data {T : Type} (local_arrays : list (LocalArray.t T))
  : result (list (list DimDict.t)) :=
  OK (LocalArray.dim_data <$> local_arrays).

Definition dtype {T : Type} (local_arrays : list (LocalArray.t T))
  : result T :=
  let* first := list_getitem local_arrays 0 in
  OK (LocalArray.dtype first).

End Engines.

(** Modelled from the spec: [distarray.client_map.Distribution.from_dim_data],
    whose module [distarray/client_map.py] is missing.  It is given the
    descriptor table, one descriptor sequence per rank, and validates it as
    section 4.3 of the specification says, axis by axis:
    (b) the descriptors of the axis across ranks agree on [dist_type] and
    [size] (a rank without a descriptor for the axis, or with a descriptor
    without one of the two keys, disagrees);
    (c) for a block axis the [start]/[stop] pairs, taken in rank order,
    tile [0..size) without gap or overlap;
    (d) for an unstructured axis the indices of all ranks together are a
    permutation of [0..size).
    A violation raises the descriptor-consistency error with the axis and
    the ranks in conflict: rank 0 and the first rank that disagrees with it
    for (b), the two neighbours between which the tiling breaks (or the
    first or the last rank alone, when the tiling does not start at 0 or
    end at [size]) for (c), and all the ranks for (d), a property of their
    union.  Clause (a), one entry per rank, is checked in the sources by
    [Context._from_dim_data]. *)
Module Distribution.

Record t : Type := Make {
  targets : list Z;
  dim_data_per_rank : list (list DimDict.t)
}.

Definition ndim (table : list (list DimDict.t)) : nat :=
  max_list (length <$> table).

(** The descriptors of one axis, rank by rank; [None] for a rank whose
    sequence has no such axis. *)
Definition column (table : list (list DimDict.t)) (axis : nat)
  : list (option DimDict.t) :=
  (fun dim_data => dim_data !! axis) <$> table.

Definition axis_kind (od : option DimDict.t) : option (string * Z) :=
  match od with
  | Some d =>
      match DimDict.dist_type d, DimDict.size d with
      | Some t, Some n => Some (t, n)
      | _, _ => None
      end
  | None => None
  end.

Definition segment (od : option DimDict.t) : option Z * option Z :=
  match od with
  | Some d => (DimDict.start d, DimDict.stop d)
  | None => (None, None)
  end.

Definition indices_of (od : option DimDict.t) : list Z :=
  match od with
  | Some d => DimDict.get (DimDict.indices d) []
  | None => []
  end.

Definition conflict_at (r : Z) : list Z :=
  if decide (r = 0) then [0] else [r - 1; r].

(** The ranks at which the segments, from rank [r] on, stop tiling
    [from..n); [None] when they tile it. *)
Fixpoint tiling_conflict (from n r : Z)
    (segments : list (option Z * option Z)) : option (list Z) :=
  match segments with
  | [] => if decide (from = n) then None else Some [r - 1]
  | (Some s, Some e) :: rest =>
      if decide (s = from /\ from <= e)
      then tiling_conflict e n (r + 1) rest
      else Some (conflict_at r)
  | _ :: _ => Some (conflict_at r)
  end.

Definition validate_axis (table : list (list DimDict.t)) (axis : nat)
  : result unit :=
  let col := column table axis in
  match col with
  | [] => OK tt
  | od :: _ =>
      match axis_kind od with
      | None => Raise (DescriptorConsistencyError (Z.of_nat axis) [0])
      | Some (t, n) =>
          match list_find (fun od' => axis_kind od' <> Some (t, n)) col with
          | Some (r, _) =>
              Raise (DescriptorConsistencyError (Z.of_nat axis)
                       [0; Z.of_nat r])
          | None =>
              if decide (t = "b") then
                match tiling_conflict 0 n 0 (segment <$> col) with
                | Some ranks =>
                    Raise (DescriptorConsistencyError (Z.of_nat axis) ranks)
                | None => OK tt
                end
              else if decide (t = "u") then
                if decide (concat (indices_of <$> col) ≡ₚ seqZ 0 n)
                then OK tt
                else Raise (DescriptorConsistencyError (Z.of_nat axis)
                              (seqZ 0 (Z.of_nat (length col))))
              else OK tt
          end
      end
  end.

Definition from_dim_data (targets : list Z)
    (dim_datas : list (list DimDict.t)) : result t :=
  let* checked :=
    traverse (validate_axis dim_datas) (seq 0 (ndim dim_datas)) in
  OK (Make targets dim_datas).

End Distribution.

(** Reconstruction with the classes as modelled: [Context._from_dim_data]
    on the engines of the view and [Distribution.from_dim_data]. *)
Definition reconstruct {T : Type} (remote : exn -> exn) (targets : list Z)
    (da_key : string) (dim_data_per_rank : list (list DimDict.t)) (dtype : T)
  : result (DistArray.t Distribution.t T) :=
  Context._from_dim_data (Engines.from_dim_data remote) Engines.dim_data
    Engines.dtype Distribution.from_dim_data
    targets da_key dim_data_per_rank dtype.

(** ** The validation the specification asks for (section 4.3) *)

(** Clause (c): the [start]/[stop] pairs of a block axis, in rank order,
    tile [from..n) without gap or overlap. *)
Fixpoint block_tiling (from n : Z) (segments : list (option Z * option Z))
  : Prop :=
  match segments with
  | [] => from = n
  | (start, stop) :: rest =>
      start = Some from /\
      exists e, stop = Some e /\ from <= e /\ block_tiling e n rest
  end.

(** The [start]/[stop] pairs and the index lists of one axis, rank by
    rank. *)
Definition axis_segments (table : list (list DimDict.t)) (axis : nat)
  : list (option Z * option Z) :=
  (fun dim_data =>
     match dim_data !! axis with
     | Some d => (DimDict.start d, DimDict.stop d)
     | None => (None, None)
     end) <$> table.

Definition axis_indices (table : list (list DimDict.t)) (axis : nat)
  : list (list Z) :=
  (fun dim_data =>
     match dim_data !! axis with
     | Some d => DimDict.get (DimDict.indices d) []
     | None => []
     end) <$> table.

(** Clauses (b), (c) and (d) for one axis: every rank has a descriptor for
    it, with one [dist_type] and one [size] for all ranks; the segments of
    a block axis tile [0..size); the indices of an unstructured axis are,
    all ranks together, a permutation of [0..size). *)
Definition axis_consistent (table : list (list DimDict.t)) (axis : nat)
  : Prop :=
  exists t n,
    (forall (r : nat) dim_data, table !! r = Some dim_data ->
       exists d, dim_data !! axis = Some d /\
         DimDict.dist_type d = Some t /\ DimDict.size d = Some n) /\
    (t = "b" -> block_tiling 0 n (axis_segments table axis)) /\
    (t = "u" -> concat (axis_indices table axis) ≡ₚ seqZ 0 n).

Definition table_consistent (table : list (list DimDict.t)) : Prop :=
  forall axis : nat,
    (axis < Distribution.ndim table)%nat -> axis_consistent table axis.

(** The descriptors of [ranks] are enough to see that the axis is
    inconsistent: no table with as many ranks and the same entries at
    [ranks] is consistent on the axis. *)
Definition ranks_in_conflict (table : list (list DimDict.t)) (axis : nat)
    (ranks : list Z) : Prop :=
  forall table' : list (list DimDict.t),
    length table' = length table ->
    (forall r, r ∈ ranks -> table' !! Z.to_nat r = table !! Z.to_nat r) ->
    ~ axis_consistent table' axis.

(** A table for two ranks and one block axis of 10 indices whose segments
    [0..3) and [5..10) leave the gap [3..5), and one whose segments
    [0..5) and [5..10) tile the axis. *)
Definition gap_table : list (list DimDict.t) :=
  [ [ DimDict.Make (Some "b") (Some 10) (Some 0) (Some 2) (Some 0) (Some 3)
        None None ];
    [ DimDict.Make (Some "b") (Some 10) (Some 1) (Some 2) (Some 5) (Some 10)
        None None ] ].

Definition tiled_table : list (list DimDict.t) :=
  [ [ DimDict.Make (Some "b") (Some 10) (Some 0) (Some 2) (Some 0) (Some 5)
        None None ];
    [ DimDict.Make (Some "b") (Some 10) (Some 1) (Some 2) (Some 5) (Some 10)
        None None ] ].

(** The descriptor of the cyclic axis of 16 indices over 4 ranks at rank
    2, and a not-distributed axis of 20 indices. *)
Definition cyclic_descriptor : DimDict.t :=
  DimDict.Make (Some "c") (Some 16) (Some 2) (Some 4) (Some 2) None
    None None.

Definition not_distributed_descriptor : DimDict.t :=
  DimDict.Make (Some "n") (Some 20) None None None None None None.

(** * Properties *)

(** ** The error monad and the primitives *)

Lemma bind_OK {A B : Type} (r : result A) (k : A -> result B) (b : B) :
  bind r k = OK b <-> exists a, r = OK a /\ k a = OK b.
Proof.
  destruct r as [a|e]; simpl; split.
  - intros H. exists a. auto.
  - intros (a' & Ha & Hk). injection Ha as ->. exact Hk.
  - discriminate.
  - intros (a' & Ha & _). discriminate.
Qed.

Lemma floordiv_OK (a b : Z) : b <> 0 -> floordiv a b = OK (a / b).
Proof. intros Hb. unfold floordiv. destruct (decide (b = 0)); [lia | reflexivity]. Qed.

Lemma pymod_OK (a b : Z) : b <> 0 -> pymod a b = OK (a mod b).
Proof. intros Hb. unfold pymod. destruct (decide (b = 0)); [lia | reflexivity]. Qed.

Lemma divmod_OK (a b : Z) : b <> 0 -> divmod a b = OK (a / b, a mod b).
Proof. intros Hb. unfold divmod. destruct (decide (b = 0)); [lia | reflexivity]. Qed.

Lemma floordiv_inv (a b q : Z) : floordiv a b = OK q -> b <> 0 /\ q = a / b.
Proof.
  unfold floordiv. destruct (decide (b = 0)); [discriminate|].
  intros [= <-]. auto.
Qed.

Lemma pymod_inv (a b r : Z) : pymod a b = OK r -> b <> 0 /\ r = a mod b.
Proof.
  unfold pymod. destruct (decide (b = 0)); [discriminate|].
  intros [= <-]. auto.
Qed.

(** What a successful construction tells about the fields. *)

Lemma BlockMap_init_inv n p r s e m :
  BlockMap.init n p r s e = OK m ->
  exists s' e', s = Some s' /\ e = Some e' /\
    m = BlockMap.Make s' e' (e' - s') n p r.
Proof.
  unfold BlockMap.init. destruct s as [s'|], e as [e'|]; try discriminate.
  intros [= <-]. eauto.
Qed.

Lemma CyclicMap_init_inv n p r s m :
  CyclicMap.init n p r s = OK m ->
  s = Some r /\ r < p /\ p <> 0 /\
  m = CyclicMap.Make r p r ((n - 1 - r) / p + 1) n.
Proof.
  unfold CyclicMap.init. destruct s as [s'|]; [|discriminate].
  destruct (decide (s' <> r)); [discriminate|].
  destruct (decide (s' >= p)); [discriminate|].
  assert (s' = r) as -> by lia.
  intros H. apply bind_OK in H as (q & Hq & H).
  apply floordiv_inv in Hq as [Hp ->].
  injection H as <-. repeat split; auto; lia.
Qed.

Lemma BlockCyclicMap_init_inv n p r s b m :
  BlockCyclicMap.init n p r s b = OK m ->
  exists s', s = Some s' /\ b <> 0 /\ p <> 0 /\
    s' mod b = 0 /\ n / b * b = n /\
    m = BlockCyclicMap.Make s' (s' / b) b p
          (((n / b - 1 - r) / p + 1) * b) n None.
Proof.
  unfold BlockCyclicMap.init. destruct s as [s'|]; [|discriminate].
  intros H. apply bind_OK in H as (r0 & Hr0 & H).
  apply pymod_inv in Hr0 as [Hb ->].
  destruct (decide (s' mod b <> 0)); [discriminate|].
  apply bind_OK in H as (sb & Hsb & H).
  apply floordiv_inv in Hsb as [_ ->].
  apply bind_OK in H as (gn & Hgn & H).
  apply floordiv_inv in Hgn as [_ ->].
  destruct (decide (n / b * b <> n)); [discriminate|].
  apply bind_OK in H as (q & Hq & H).
  apply floordiv_inv in Hq as [Hp ->].
  injection H as <-.
  exists s'. repeat split; auto; lia.
Qed.

Lemma UnstructuredMap_init_inv n p r idx m :
  UnstructuredMap.init n p r idx = OK m ->
  exists l, idx = Some l /\
    UnstructuredMap.indices m = l /\
    UnstructuredMap.local_size m = Z.of_nat (length l) /\
    UnstructuredMap._local_index m =
      dict_zip l (range1 (Z.of_nat (length l))) /\
    UnstructuredMap.global_size m = n /\
    UnstructuredMap.grid_size m = p /\
    UnstructuredMap.grid_rank m = r.
Proof.
  unfold UnstructuredMap.init. destruct idx as [l|]; [|discriminate].
  intros [= <-]. exists l. simpl. auto 10.
Qed.

(** [list.index] and subscripting on a list without duplicates. *)

Lemma list_index_lookup (xs : list Z) (i : nat) (x : Z) :
  NoDup xs -> xs !! i = Some x -> list_index xs x = OK (Z.of_nat i).
Proof.
  intros Hnd. revert i. induction Hnd as [|y ys Hy Hnd IH]; intros i Hi.
  - discriminate.
  - destruct i as [|i]; simpl in *.
    + injection Hi as ->. destruct (decide (x = x)); [reflexivity|congruence].
    + destruct (decide (y = x)) as [->|Hne].
      * exfalso. apply Hy. eapply list_elem_of_lookup_2; eauto.
      * rewrite (IH i Hi). simpl. f_equal. lia.
Qed.

Lemma list_getitem_nonneg {A : Type} (xs : list A) (i : Z) :
  0 <= i < Z.of_nat (length xs) ->
  exists x, xs !! Z.to_nat i = Some x /\ list_getitem xs i = OK x.
Proof.
  intros Hi. unfold list_getitem.
  destruct (decide (i < 0)); [lia|].
  destruct (decide (0 <= i < Z.of_nat (length xs))); [|lia].
  destruct (lookup_lt_is_Some_2 xs (Z.to_nat i)) as [x Hx]; [lia|].
  exists x. rewrite Hx. auto.
Qed.

(** ** Translating there and back *)

Lemma BlockMap_there_and_back (m : BlockMap.t) (l : Z) :
  constructed (Block m) -> 0 <= l < BlockMap.local_size m ->
  BlockMap.global_from_local m l = OK (l + BlockMap.start m) /\
  BlockMap.local_from_global m (l + BlockMap.start m) = OK l.
Proof.
  intros (n & p & r & s & e & Hm) Hl.
  apply BlockMap_init_inv in Hm as (s' & e' & -> & -> & ->).
  unfold BlockMap.global_from_local, BlockMap.local_from_global in *.
  simpl in *.
  destruct (decide (l >= e' - s')); [lia|].
  destruct (decide (l + s' < s' \/ l + s' >= e')); [lia|].
  split; [reflexivity | f_equal; lia].
Qed.

Lemma CyclicMap_there_and_back (m : CyclicMap.t) (l : Z) :
  constructed (Cyclic m) -> l < CyclicMap.local_size m ->
  CyclicMap.global_from_local m l
    = OK (l * CyclicMap.grid_size m + CyclicMap.start m) /\
  CyclicMap.local_from_global m
      (l * CyclicMap.grid_size m + CyclicMap.start m) = OK l.
Proof.
  intros (n & p & r & s & Hm) Hl.
  apply CyclicMap_init_inv in Hm as (-> & Hrp & Hp & ->).
  unfold CyclicMap.global_from_local, CyclicMap.local_from_global in *.
  simpl in *.
  destruct (decide (l >= (n - 1 - r) / p + 1)); [lia|].
  split; [reflexivity|].
  replace (l * p + r - r) with (l * p) by lia.
  rewrite pymod_OK by assumption. simpl.
  rewrite Z.mod_mul by assumption.
  destruct (decide (0 <> 0)); [lia|].
  rewrite floordiv_OK by assumption.
  rewrite Z.div_mul by assumption. reflexivity.
Qed.

Lemma BlockCyclicMap_there_and_back (m : BlockCyclicMap.t) (l : Z) :
  constructed (BlockCyclic m) -> l < BlockCyclicMap.local_size m ->
  BlockCyclicMap.global_from_local m l = OK (bc_image m l) /\
  BlockCyclicMap.local_from_global m (bc_image m l) = OK l.
Proof.
  intros (n & p & r & s & b & Hm) Hl.
  apply BlockCyclicMap_init_inv in Hm as (s' & -> & Hb & Hp & Hs & Hn & ->).
  unfold BlockCyclicMap.global_from_local, BlockCyclicMap.local_from_global,
    bc_image in *.
  simpl in *.
  destruct (decide (l >= ((n / b - 1 - r) / p + 1) * b)); [lia|].
  rewrite !divmod_OK by assumption. simpl.
  split; [reflexivity|].
  set (gb := l / b * p + s' / b).
  assert (Hdiv : (gb * b + l mod b) / b = gb).
  { rewrite Z.add_comm, Z.div_add by assumption.
    rewrite Z.mod_div by assumption. lia. }
  assert (Hmod : (gb * b + l mod b) mod b = l mod b).
  { rewrite Z.add_comm, Z.mod_add by assumption.
    apply Z.mod_mod. assumption. }
  rewrite Hdiv, Hmod.
  replace (gb - s' / b) with (l / b * p) by (unfold gb; lia).
  rewrite pymod_OK by assumption. simpl.
  rewrite Z.mod_mul by assumption.
  destruct (decide (0 <> 0)); [lia|].
  rewrite floordiv_OK by assumption. simpl.
  rewrite Z.div_mul by assumption.
  f_equal. symmetry. apply Z.div_mod. assumption.
Qed.

Lemma UnstructuredMap_there_and_back (m : UnstructuredMap.t) (l : Z) :
  valid_parameters (Unstructured m) ->
  0 <= l < UnstructuredMap.local_size m ->
  exists g, UnstructuredMap.indices m !! Z.to_nat l = Some g /\
    UnstructuredMap.global_from_local m l = OK g /\
    UnstructuredMap.local_from_global m g = OK l.
Proof.
  intros [(n & p & r & idx & Hm) Hnd] Hl.
  apply UnstructuredMap_init_inv in Hm as (xs & -> & Hidx & Hls & _).
  unfold UnstructuredMap.global_from_local, UnstructuredMap.local_from_global.
  rewrite Hls in Hl. rewrite Hidx in *.
  destruct (list_getitem_nonneg xs l Hl) as (g & Hg & Hget).
  exists g. split; [exact Hg|]. split; [exact Hget|].
  rewrite (list_index_lookup xs (Z.to_nat l) g Hnd Hg).
  f_equal. lia.
Qed.

(** C1. Bijection: for each of the four variants built from valid
    parameters and every local index [l] with [0 <= l < local_size],
    [global_from_local l] returns a global index [g] and
    [local_from_global g] returns [l]. *)
Theorem local_from_global_global_from_local (m : AxisMap) (l : Z) :
  valid_parameters m -> 0 <= l < local_size m ->
  exists g, global_from_local m l = OK g /\ local_from_global m g = OK l.
Proof.
  intros Hv Hl. destruct m as [m|m|m|m]; simpl in *.
  - destruct (BlockMap_there_and_back m l) as [H1 H2]; [apply Hv | exact Hl |].
    eauto.
  - destruct (CyclicMap_there_and_back m l) as [H1 H2]; [apply Hv | lia |].
    eauto.
  - destruct (BlockCyclicMap_there_and_back m l) as [H1 H2];
      [apply Hv | lia |].
    eauto.
  - destruct (UnstructuredMap_there_and_back m l Hv Hl) as (g & _ & H1 & H2).
    eauto.
Qed.

(** ** Arithmetic of floor division *)

Lemma div_mod_block (q t b : Z) :
  0 <= t < b -> (q * b + t) / b = q /\ (q * b + t) mod b = t.
Proof.
  intros Ht. split.
  - rewrite Z.div_add_l by lia. rewrite Z.div_small by lia. lia.
  - rewrite Z.add_comm, Z.mod_add by lia. apply Z.mod_small. lia.
Qed.

Lemma congruent_iff (g r p : Z) :
  0 <= r < p -> (g - r) mod p = 0 <-> g mod p = r.
Proof.
  intros Hr. split; intros H.
  - assert (Hg : g = (g - r) / p * p + r).
    { pose proof (Z.div_mod (g - r) p ltac:(lia)). lia. }
    rewrite Hg. apply (div_mod_block _ r p Hr).
  - subst r. pose proof (Z.div_mod g p ltac:(lia)) as Hg.
    replace (g - g mod p) with (g / p * p) by lia.
    apply Z.mod_mul. lia.
Qed.

Lemma div_ge_minus_one (a p : Z) : 0 < p -> - p <= a -> -1 <= a / p.
Proof. intros Hp Ha. apply Z.div_le_lower_bound; lia. Qed.

Lemma ceil_div_floor (a p : Z) : 0 < p -> ceil_div a p = (a - 1) / p + 1.
Proof.
  intros Hp. unfold ceil_div.
  pose proof (Z.div_mod (a - 1) p ltac:(lia)) as H1.
  pose proof (Z.mod_pos_bound (a - 1) p Hp) as H2.
  assert (H : - a / p = - ((a - 1) / p) - 1).
  { symmetry. apply (Z.div_unique_pos _ _ _ (p - 1 - (a - 1) mod p)); lia. }
  lia.
Qed.

(** ** [range] *)

Lemma range3_pos (a b s : Z) :
  0 < s ->
  range3 a b s
  = OK ((fun k => a + k * s) <$> seqZ 0 (Z.max 0 ((b - a - 1) / s + 1))).
Proof.
  intros Hs. unfold range3, range_len.
  destruct (decide (s = 0)); [lia|].
  destruct (decide (0 < s)); [|lia].
  replace (b - a + s - 1) with (b - a - 1 + 1 * s) by lia.
  rewrite Z.div_add by lia. reflexivity.
Qed.

Lemma elem_of_range3_pos (a b s g : Z) (gs : list Z) :
  0 < s -> range3 a b s = OK gs ->
  g ∈ gs <-> a <= g < b /\ (g - a) mod s = 0.
Proof.
  intros Hs. rewrite range3_pos by assumption. intros [= <-].
  rewrite list_elem_of_fmap. setoid_rewrite elem_of_seqZ.
  pose proof (Z.mul_div_le (b - a - 1) s Hs) as Hle.
  split.
  - intros (k & -> & Hk). split.
    + nia.
    + replace (a + k * s - a) with (k * s) by lia. apply Z.mod_mul. lia.
  - intros [Hg Hmod]. exists ((g - a) / s).
    pose proof (Z.div_mod (g - a) s ltac:(lia)) as Hdm.
    rewrite Hmod in Hdm. split; [lia|].
    assert (0 <= (g - a) / s) by (apply Z.div_pos; lia).
    assert ((g - a) / s <= (b - a - 1) / s)
      by (apply Z.div_le_mono; lia).
    lia.
Qed.

Lemma NoDup_range3_pos (a b s : Z) (gs : list Z) :
  0 < s -> range3 a b s = OK gs -> NoDup gs.
Proof.
  intros Hs. rewrite range3_pos by assumption. intros [= <-].
  apply NoDup_fmap_2_strong; [|apply NoDup_seqZ].
  intros x y _ _ Hxy. nia.
Qed.

Lemma length_range3_pos (a b s : Z) (gs : list Z) :
  0 < s -> range3 a b s = OK gs ->
  Z.of_nat (length gs) = Z.max 0 ((b - a - 1) / s + 1).
Proof.
  intros Hs. rewrite range3_pos by assumption. intros [= <-].
  rewrite length_fmap, length_seqZ. lia.
Qed.

(** ** Size of a cyclic map *)

Lemma CyclicMap_init_OK (n p r : Z) :
  r < p -> p <> 0 ->
  CyclicMap.init n p r (Some r)
  = OK (CyclicMap.Make r p r ((n - 1 - r) / p + 1) n).
Proof.
  intros Hr Hp. unfold CyclicMap.init.
  destruct (decide (r <> r)); [lia|].
  destruct (decide (r >= p)); [lia|].
  rewrite floordiv_OK by assumption. reflexivity.
Qed.

(** C9. For [0 <= grid_rank < grid_size], [start = grid_rank] and
    [global_size >= 0] the cyclic map is constructed, its [local_size] is
    [ceil_div (global_size - grid_rank) grid_size], which is
    [(global_size - 1 - grid_rank) // grid_size + 1], and it is the length
    of the enumeration of the owned global indices ([global_index], whose
    length is also what [size] returns). *)
Theorem CyclicMap_local_size (n p r : Z) :
  0 <= r < p -> 0 <= n ->
  exists m gs,
    CyclicMap.init n p r (Some r) = OK m /\
    CyclicMap.local_size m = ceil_div (n - r) p /\
    CyclicMap.local_size m = (n - 1 - r) / p + 1 /\
    CyclicMap.global_index m = OK gs /\
    CyclicMap.local_size m = Z.of_nat (length gs) /\
    CyclicMap.size m = OK (CyclicMap.local_size m).
Proof.
  intros Hr Hn.
  destruct (range3 r n p) as [gs|e] eqn:Hgs.
  2:{ rewrite range3_pos in Hgs by lia. discriminate. }
  exists (CyclicMap.Make r p r ((n - 1 - r) / p + 1) n), gs.
  pose proof (length_range3_pos r n p gs ltac:(lia) Hgs) as Hlen.
  pose proof (div_ge_minus_one (n - 1 - r) p ltac:(lia) ltac:(lia)) as Hq.
  replace (n - r - 1) with (n - 1 - r) in Hlen by lia.
  split; [apply CyclicMap_init_OK; lia|].
  unfold CyclicMap.size, CyclicMap.global_index. simpl. rewrite Hgs. simpl.
  split; [rewrite ceil_div_floor by lia; f_equal; f_equal; lia|].
  split; [reflexivity|].
  split; [reflexivity|].
  split; [lia | f_equal; lia].
Qed.

(** ** Partition of the global range *)

Lemma traverse_fmap {A B : Type} (f : A -> result B) (h : A -> B)
    (xs : list A) :
  (forall x, x ∈ xs -> f x = OK (h x)) -> traverse f xs = OK (h <$> xs).
Proof.
  induction xs as [|x xs IH]; intros Hf; simpl.
  - reflexivity.
  - rewrite (Hf x) by apply list_elem_of_here. simpl.
    rewrite IH; [reflexivity|].
    intros y Hy. apply Hf. apply list_elem_of_further. exact Hy.
Qed.

(** Lists that are the fibres of a function [class] into [0..p-1]
    partition the range. *)
Lemma partition_by_class (n p : Z) (owned : Z -> result (list Z))
    (class : Z -> Z) :
  (forall g, 0 <= g < n -> 0 <= class g < p) ->
  (forall r, 0 <= r < p ->
     exists gs, owned r = OK gs /\ NoDup gs /\
       forall g, g ∈ gs <-> 0 <= g < n /\ class g = r) ->
  partition_of_range n p owned.
Proof.
  intros Hclass Howned. unfold partition_of_range. split; [|split].
  - intros r Hr. destruct (Howned r Hr) as (gs & Hgs & Hnd & Hin).
    exists gs. split; [exact Hgs|]. split; [exact Hnd|].
    intros g Hg. apply Hin in Hg. tauto.
  - intros g Hg. destruct (Howned (class g) (Hclass g Hg))
      as (gs & Hgs & _ & Hin).
    exists (class g), gs. split; [apply (Hclass g Hg)|].
    split; [exact Hgs|]. apply Hin. auto.
  - intros r1 r2 gs1 gs2 g Hr1 Hr2 H1 H2 Hg1 Hg2.
    destruct (Howned r1 Hr1) as (gs1' & H1' & _ & Hin1).
    destruct (Howned r2 Hr2) as (gs2' & H2' & _ & Hin2).
    rewrite H1 in H1'. injection H1' as <-.
    rewrite H2 in H2'. injection H2' as <-.
    apply Hin1 in Hg1. apply Hin2 in Hg2. lia.
Qed.

Lemma cyclic_owned_spec (n p r : Z) :
  0 <= r < p ->
  exists gs, cyclic_owned n p r = OK gs /\ NoDup gs /\
    forall g, g ∈ gs <-> 0 <= g < n /\ g mod p = r.
Proof.
  intros Hr. unfold cyclic_owned.
  rewrite CyclicMap_init_OK by lia. simpl.
  unfold CyclicMap.global_index. simpl.
  destruct (range3 r n p) as [gs|e] eqn:Hgs.
  2:{ rewrite range3_pos in Hgs by lia. discriminate. }
  exists gs. split; [reflexivity|].
  split; [eapply NoDup_range3_pos; [|exact Hgs]; lia|].
  intros g. rewrite (elem_of_range3_pos r n p g gs) by (lia || assumption).
  rewrite (congruent_iff g r p Hr).
  split; intros [Hg Hmod]; (split; [|exact Hmod]); [lia|].
  pose proof (Z.mod_le g p ltac:(lia) ltac:(lia)). lia.
Qed.

Lemma BlockCyclicMap_init_OK (n p r s b : Z) :
  b <> 0 -> p <> 0 -> s mod b = 0 -> n / b * b = n ->
  BlockCyclicMap.init n p r (Some s) b
  = OK (BlockCyclicMap.Make s (s / b) b p
          (((n / b - 1 - r) / p + 1) * b) n None).
Proof.
  intros Hb Hp Hs Hn. unfold BlockCyclicMap.init.
  rewrite pymod_OK by assumption. simpl.
  destruct (decide (s mod b <> 0)); [lia|].
  rewrite !floordiv_OK by assumption. simpl.
  destruct (decide (n / b * b <> n)); [lia|].
  rewrite floordiv_OK by assumption. reflexivity.
Qed.

Lemma BlockCyclicMap_owned_image (m : BlockCyclicMap.t) :
  constructed (BlockCyclic m) ->
  owned_globals (BlockCyclic m)
  = OK (bc_image m <$> range1 (BlockCyclicMap.local_size m)) /\
  NoDup (bc_image m <$> range1 (BlockCyclicMap.local_size m)).
Proof.
  intros Hc. unfold owned_globals, range1.
  cbn [local_size global_from_local]. split.
  - apply traverse_fmap. intros l Hl. apply elem_of_seqZ in Hl.
    apply BlockCyclicMap_there_and_back; [exact Hc | lia].
  - apply NoDup_fmap_2_strong; [|apply NoDup_seqZ].
    intros x y Hx Hy Hxy. apply elem_of_seqZ in Hx, Hy.
    destruct (BlockCyclicMap_there_and_back m x Hc) as [_ Hbx]; [lia|].
    destruct (BlockCyclicMap_there_and_back m y Hc) as [_ Hby]; [lia|].
    rewrite Hxy in Hbx. rewrite Hbx in Hby. congruence.
Qed.

(** The 32-bit store keeps a value that fits. *)
Lemma int32_setitem_fits (v : Z) :
  - 2147483648 <= v < 2147483648 -> int32_setitem v = OK v.
Proof.
  intros Hv. unfold int32_setitem, int32_wrap.
  destruct (decide (- 9223372036854775808 <= v < 9223372036854775808));
    [|lia].
  f_equal. rewrite Z.mod_small by lia. lia.
Qed.

(** When the indices fit 32 bits, the buffer of [global_index] holds the
    owned global indices. *)
Lemma BlockCyclicMap_global_index_image (m : BlockCyclicMap.t) :
  constructed (BlockCyclic m) -> 0 <= BlockCyclicMap.local_size m ->
  int32_indices (BlockCyclic m) ->
  BlockCyclicMap.global_index m
  = OK (bc_image m <$> range1 (BlockCyclicMap.local_size m)) /\
  NoDup (bc_image m <$> range1 (BlockCyclicMap.local_size m)).
Proof.
  intros Hc Hls Hfit. unfold BlockCyclicMap.global_index.
  destruct (decide (BlockCyclicMap.local_size m < 0)); [lia|].
  split; [|apply BlockCyclicMap_owned_image, Hc].
  apply traverse_fmap. intros l Hl. apply elem_of_seqZ in Hl.
  destruct (BlockCyclicMap_there_and_back m l Hc) as [Hg _]; [lia|].
  rewrite Hg. cbn [bind]. apply int32_setitem_fits.
  apply (Hfit l); [lia | exact Hg].
Qed.

Lemma block_cyclic_owned_spec (n p b r : Z) :
  0 <= n -> 1 <= b -> (b | n) -> 0 <= r < p ->
  exists gs, block_cyclic_owned n p b r = OK gs /\ NoDup gs /\
    forall g, g ∈ gs <-> 0 <= g < n /\ (g / b) mod p = r.
Proof.
  intros Hn Hb [N HN] Hr. unfold block_cyclic_owned.
  assert (HNb : n / b = N) by (subst n; apply Z.div_mul; lia).
  assert (HN0 : 0 <= N) by nia.
  rewrite BlockCyclicMap_init_OK;
    [| lia | lia | apply Z.mod_mul; lia | rewrite HNb; lia].
  rewrite Z.div_mul by lia. rewrite HNb. simpl.
  set (L := (N - 1 - r) / p + 1).
  set (m := BlockCyclicMap.Make (r * b) r b p (L * b) n None).
  assert (HL : 0 <= L).
  { unfold L. pose proof (div_ge_minus_one (N - 1 - r) p). lia. }
  assert (Hc : constructed (BlockCyclic m)).
  { exists n, p, r, (Some (r * b)), b. subst m L.
    rewrite BlockCyclicMap_init_OK;
      [| lia | lia | apply Z.mod_mul; lia | rewrite HNb; lia].
    rewrite Z.div_mul by lia. rewrite HNb. reflexivity. }
  destruct (BlockCyclicMap_owned_image m Hc) as [Hgi Hnd].
  rewrite Hgi. eexists. split; [reflexivity|]. split; [exact Hnd|].
  intros g. rewrite list_elem_of_fmap. unfold range1.
  setoid_rewrite elem_of_seqZ. unfold bc_image. simpl.
  pose proof (Z.mul_div_le (N - 1 - r) p ltac:(lia)) as HLp.
  split.
  - intros (l & -> & Hl).
    pose proof (Z.mod_pos_bound l b ltac:(lia)) as Hoff.
    assert (Hlb0 : 0 <= l / b) by (apply Z.div_pos; lia).
    assert (HlbL : l / b < L) by (apply Z.div_lt_upper_bound; lia).
    destruct (div_mod_block (l / b * p + r) (l mod b) b Hoff) as [Hd _].
    rewrite Hd.
    destruct (div_mod_block (l / b) r p ltac:(lia)) as [_ Hm].
    rewrite Hm. split; [|reflexivity].
    assert (HX1 : l / b * p + r <= N - 1) by (unfold L in HlbL; nia).
    assert (HX0 : 0 <= l / b * p + r) by nia.
    generalize dependent (l / b * p + r). intros X _ _ HX1 HX0.
    subst n. nia.
  - intros [Hg Hcls].
    pose proof (Z.div_mod g b ltac:(lia)) as Hgb.
    pose proof (Z.mod_pos_bound g b ltac:(lia)) as Hoff.
    pose proof (Z.div_mod (g / b) p ltac:(lia)) as Hgp.
    rewrite Hcls in Hgp.
    assert (Hgb0 : 0 <= g / b) by (apply Z.div_pos; lia).
    assert (HgbN : g / b < N) by (apply Z.div_lt_upper_bound; lia).
    assert (Hlb0 : 0 <= g / b / p) by (apply Z.div_pos; lia).
    assert (HlbL : g / b / p < L).
    { unfold L.
      assert (g / b / p <= (N - 1 - r) / p)
        by (apply Z.div_le_lower_bound; lia).
      lia. }
    exists (g / b / p * b + g mod b).
    destruct (div_mod_block (g / b / p) (g mod b) b Hoff) as [Hd Hm].
    rewrite Hd, Hm. split; [nia | nia].
Qed.

(** C4. Partition: for [n >= 0] indices and [p >= 1] ranks, the owned
    lists of the [p] cyclic maps with [grid_rank = start = r] (their
    [global_index]) are pairwise disjoint and cover exactly [range(n)]; and
    for a block size [b >= 1] that divides [n], so do the owned lists of
    the [p] block-cyclic maps with [grid_rank = r] and [start = r * b]
    (what [global_from_local] gives for their local indices). *)
Theorem owned_globals_partition (n p : Z) :
  0 <= n -> 1 <= p ->
  partition_of_range n p (cyclic_owned n p) /\
  forall b, 1 <= b -> (b | n) ->
    partition_of_range n p (block_cyclic_owned n p b).
Proof.
  intros Hn Hp. split.
  - apply (partition_by_class n p _ (fun g => g mod p)).
    + intros g _. apply Z.mod_pos_bound. lia.
    + intros r Hr. apply cyclic_owned_spec. exact Hr.
  - intros b Hb Hdiv.
    apply (partition_by_class n p _ (fun g => (g / b) mod p)).
    + intros g _. apply Z.mod_pos_bound. lia.
    + intros r Hr. apply block_cyclic_owned_spec; assumption.
Qed.

(** ** Block-cyclic maps against cyclic and block maps *)

Lemma fmap_seqZ_ext (f h : Z -> Z) (a n : Z) :
  (forall k, a <= k < a + n -> f k = h k) ->
  f <$> seqZ a n = h <$> seqZ a n.
Proof.
  intros Hfh. apply list_fmap_ext. intros i k Hk.
  apply Hfh. apply elem_of_seqZ. eapply list_elem_of_lookup_2. exact Hk.
Qed.

Lemma block_cyclic_unit_block (n p s : Z) :
  0 <= n -> 0 <= s < p ->
  same_behaviour
    (BlockCyclic (BlockCyclicMap.Make s (s / 1) 1 p
                    (((n / 1 - 1 - s) / p + 1) * 1) n None))
    (Cyclic (CyclicMap.Make s p s ((n - 1 - s) / p + 1) n)) n.
Proof.
  intros Hn Hs.
  set (bc := BlockCyclicMap.Make _ _ _ _ _ _ _).
  set (c := CyclicMap.Make _ _ _ _ _).
  assert (Hc : constructed (BlockCyclic bc)).
  { exists n, p, s, (Some s), 1. subst bc.
    apply BlockCyclicMap_init_OK; try lia.
    - apply Z.mod_1_r.
    - rewrite Z.div_1_r. lia. }
  assert (Hls : BlockCyclicMap.local_size bc = (n - 1 - s) / p + 1).
  { subst bc. cbn [BlockCyclicMap.local_size]. rewrite Z.div_1_r. lia. }
  pose proof (div_ge_minus_one (n - 1 - s) p ltac:(lia) ltac:(lia)) as Hq.
  assert (Himg : forall l, bc_image bc l = s + l * p).
  { intros l. unfold bc_image. subst bc.
    cbn [BlockCyclicMap.block_size BlockCyclicMap.grid_size
         BlockCyclicMap.start_block].
    rewrite !Z.div_1_r, Z.mod_1_r. lia. }
  unfold same_behaviour. split; [|split; [|split]].
  - destruct (BlockCyclicMap_owned_image bc Hc) as [Hgi _].
    exists ((fun k => s + k * p) <$> seqZ 0 ((n - 1 - s) / p + 1)).
    split.
    + rewrite Hgi, Hls. f_equal. unfold range1.
      apply fmap_seqZ_ext. intros k _. apply Himg.
    + unfold owned_globals, range1. cbn [local_size global_from_local].
      subst c. cbn [CyclicMap.local_size].
      apply traverse_fmap. intros k Hk. apply elem_of_seqZ in Hk.
      cbn [global_from_local]. unfold CyclicMap.global_from_local.
      cbn [CyclicMap.local_size CyclicMap.grid_size CyclicMap.start].
      destruct (decide (k >= (n - 1 - s) / p + 1)); [lia|].
      apply f_equal. lia.
  - intros g _. cbn [local_from_global].
    unfold BlockCyclicMap.local_from_global, CyclicMap.local_from_global.
    subst bc c.
    cbn [BlockCyclicMap.block_size BlockCyclicMap.grid_size
         BlockCyclicMap.start_block CyclicMap.start CyclicMap.grid_size].
    rewrite divmod_OK by lia. cbn [bind].
    rewrite !Z.div_1_r, Z.mod_1_r.
    rewrite pymod_OK, floordiv_OK by lia. cbn [bind].
    destruct (decide ((g - s) mod p <> 0)); [reflexivity|].
    f_equal. lia.
  - cbn [local_size]. rewrite Hls. reflexivity.
  - intros l Hl. cbn [local_size global_from_local] in *.
    destruct (BlockCyclicMap_there_and_back bc l Hc) as [Hg _]; [lia|].
    rewrite Hg, Himg.
    unfold CyclicMap.global_from_local. subst c.
    cbn [CyclicMap.local_size CyclicMap.grid_size CyclicMap.start].
    destruct (decide (l >= (n - 1 - s) / p + 1)); [lia|].
    f_equal. lia.
Qed.

Lemma block_cyclic_single_rank (n b : Z) :
  0 <= n -> b <> 0 -> n / b * b = n ->
  same_behaviour
    (BlockCyclic (BlockCyclicMap.Make 0 (0 / b) b 1
                    (((n / b - 1 - 0) / 1 + 1) * b) n None))
    (Block (BlockMap.Make 0 n (n - 0) n 1 0)) n.
Proof.
  intros Hn Hb HN.
  set (bc := BlockCyclicMap.Make _ _ _ _ _ _ _).
  set (bm := BlockMap.Make _ _ _ _ _ _).
  assert (Hc : constructed (BlockCyclic bc)).
  { exists n, 1, 0, (Some 0), b. subst bc.
    apply BlockCyclicMap_init_OK; try lia. apply Z.mod_0_l. lia. }
  assert (Hls : BlockCyclicMap.local_size bc = n).
  { subst bc. cbn [BlockCyclicMap.local_size]. rewrite Z.div_1_r. lia. }
  assert (Himg : forall l, bc_image bc l = l).
  { intros l. unfold bc_image. subst bc.
    cbn [BlockCyclicMap.block_size BlockCyclicMap.grid_size
         BlockCyclicMap.start_block].
    rewrite Z.div_0_l by lia.
    pose proof (Z.div_mod l b Hb). lia. }
  unfold same_behaviour. split; [|split; [|split]].
  - destruct (BlockCyclicMap_owned_image bc Hc) as [Hgi _].
    exists (seqZ 0 n). split.
    + rewrite Hgi, Hls. f_equal. unfold range1.
      rewrite <- (list_fmap_id (seqZ 0 n)) at 2.
      apply fmap_seqZ_ext. intros k _. apply Himg.
    + unfold owned_globals, range1. cbn [local_size global_from_local].
      subst bm. cbn [BlockMap.local_size]. rewrite Z.sub_0_r.
      rewrite <- (list_fmap_id (seqZ 0 n)) at 2.
      apply traverse_fmap. intros k Hk. apply elem_of_seqZ in Hk.
      cbn [global_from_local]. unfold BlockMap.global_from_local.
      cbn [BlockMap.local_size BlockMap.start].
      destruct (decide (k >= n)); [lia|].
      unfold id. apply f_equal. lia.
  - intros g Hg. cbn [local_from_global].
    unfold BlockCyclicMap.local_from_global, BlockMap.local_from_global.
    subst bc bm.
    cbn [BlockCyclicMap.block_size BlockCyclicMap.grid_size
         BlockCyclicMap.start_block BlockMap.start BlockMap.stop].
    rewrite divmod_OK by lia. cbn [bind].
    rewrite Z.div_0_l by lia.
    rewrite pymod_OK, floordiv_OK by lia. cbn [bind].
    rewrite Z.mod_1_r, Z.div_1_r.
    destruct (decide (0 <> 0)); [lia|].
    destruct (decide (g < 0 \/ g >= n)); [lia|].
    f_equal. pose proof (Z.div_mod g b Hb). lia.
  - cbn [local_size]. rewrite Hls. subst bm. cbn [BlockMap.local_size]. lia.
  - intros l Hl. cbn [local_size global_from_local] in *.
    destruct (BlockCyclicMap_there_and_back bc l Hc) as [Hg _]; [lia|].
    rewrite Hg, Himg.
    unfold BlockMap.global_from_local. subst bm.
    cbn [BlockMap.local_size BlockMap.start].
    destruct (decide (l >= n - 0)); [lia|].
    f_equal. lia.
Qed.

(** C5, as amended.  A block-cyclic map with [block_size = 1] whose
    [grid_rank] equals its [start] behaves identically to the cyclic map
    with the same [start], [grid_size] and [global_size]; and a block-cyclic
    map with [grid_size = 1], [grid_rank = 0] and [start = 0] behaves
    identically to the block map with [start = 0] and [stop = global_size].
    Both pairs of maps are constructed without error.  Behaviour is that of
    the two translations, and the owned indices are those
    [global_from_local] gives for the local indices. *)
Theorem block_cyclic_equivalences :
  (forall n p s, 0 <= n -> 0 <= s < p ->
     exists bc c,
       BlockCyclicMap.init n p s (Some s) 1 = OK bc /\
       CyclicMap.init n p s (Some s) = OK c /\
       same_behaviour (BlockCyclic bc) (Cyclic c) n) /\
  (forall n b, 0 <= n -> b <> 0 -> (b | n) ->
     exists bc bm,
       BlockCyclicMap.init n 1 0 (Some 0) b = OK bc /\
       BlockMap.init n 1 0 (Some 0) (Some n) = OK bm /\
       same_behaviour (BlockCyclic bc) (Block bm) n).
Proof.
  split.
  - intros n p s Hn Hs. eexists _, _. split; [|split].
    + apply BlockCyclicMap_init_OK; try lia.
      * apply Z.mod_1_r.
      * rewrite Z.div_1_r. lia.
    + apply CyclicMap_init_OK; lia.
    + apply block_cyclic_unit_block; assumption.
  - intros n b Hn Hb [N HN].
    assert (HNb : n / b * b = n).
    { subst n. rewrite Z.div_mul by assumption. reflexivity. }
    eexists _, _. split; [|split].
    + apply BlockCyclicMap_init_OK; try lia. apply Z.mod_0_l. lia.
    + reflexivity.
    + apply block_cyclic_single_rank; assumption.
Qed.

(** C5, counterexample to the claim as stated: with [global_size = 17],
    [grid_size = 4], [start = 1] and [block_size = 1] the block-cyclic map
    of [grid_rank = 0] owns [1, 5, 9, 13, 17] and has local size 5, while
    the cyclic map with the same [start], [grid_size] and [global_size]
    owns [1, 5, 9, 13] and has local size 4. *)
Lemma block_cyclic_equivalence_needs_grid_rank :
  exists bc c,
    BlockCyclicMap.init 17 4 0 (Some 1) 1 = OK bc /\
    CyclicMap.init 17 4 1 (Some 1) = OK c /\
    owned_globals (BlockCyclic bc) = OK [1; 5; 9; 13; 17] /\
    owned_globals (Cyclic c) = OK [1; 5; 9; 13] /\
    BlockCyclicMap.global_from_local bc 4 = OK 17 /\
    CyclicMap.global_from_local c 4 = Raise IndexError /\
    ~ same_behaviour (BlockCyclic bc) (Cyclic c) 17.
Proof.
  eexists _, _. do 6 (split; [reflexivity|]).
  intros [(gs & H1 & H2) _]. vm_compute in H1, H2. congruence.
Qed.

(** ** Construction errors *)

Lemma CyclicMap_init_start_mismatch (n p r s : Z) :
  s <> r -> CyclicMap.init n p r (Some s) = Raise ValueError.
Proof.
  intros Hs. unfold CyclicMap.init.
  destruct (decide (s <> r)); [reflexivity | contradiction].
Qed.

Lemma BlockCyclicMap_init_not_multiple (n p r s b : Z) :
  ~ (b | n) ->
  BlockCyclicMap.init n p r (Some s) b
  = Raise (if decide (b = 0) then ZeroDivisionError else ValueError).
Proof.
  intros Hdiv. unfold BlockCyclicMap.init, pymod, floordiv.
  destruct (decide (b = 0)) as [Hb|Hb]; [reflexivity|]. cbn [bind].
  destruct (decide (s mod b <> 0)); [reflexivity|]. cbn [bind].
  destruct (decide (n / b * b <> n)) as [|Hn]; [reflexivity|].
  exfalso. apply Hdiv. exists (n / b). lia.
Qed.

Lemma UnstructuredMap_init_OK (n p r : Z) (idx : list Z) :
  UnstructuredMap.init n p r (Some idx)
  = OK (UnstructuredMap.Make n p r idx (Z.of_nat (length idx))
          (dict_zip idx (range1 (Z.of_nat (length idx))))).
Proof. reflexivity. Qed.

(** C6, as amended.  Constructing a cyclic map with [start != grid_rank]
    raises [ValueError]; constructing a block-cyclic map whose global size
    is not a multiple of [block_size] raises an error ([ValueError], or
    [ZeroDivisionError] for a zero block size); constructing an
    unstructured map succeeds for every list of indices, with or without
    duplicates. *)
Theorem construction_errors :
  (forall n p r s, s <> r ->
     CyclicMap.init n p r (Some s) = Raise ValueError) /\
  (forall n p r s b, ~ (b | n) ->
     raises (BlockCyclicMap.init n p r (Some s) b) /\
     (b <> 0 -> BlockCyclicMap.init n p r (Some s) b = Raise ValueError)) /\
  (forall n p r idx, is_ok (UnstructuredMap.init n p r (Some idx))).
Proof.
  split; [|split].
  - apply CyclicMap_init_start_mismatch.
  - intros n p r s b Hdiv.
    rewrite (BlockCyclicMap_init_not_multiple n p r s b Hdiv). split.
    + eexists. reflexivity.
    + intros Hb. destruct (decide (b = 0)); [contradiction | reflexivity].
  - intros n p r idx. eexists. apply UnstructuredMap_init_OK.
Qed.

(** C6, counterexample to the claim as stated: the index list [1, 1] has
    a duplicate and the unstructured map is constructed all the same; it
    then has two local indices for the global index 1. *)
Lemma unstructured_accepts_duplicates :
  exists m,
    UnstructuredMap.init 3 1 0 (Some [1; 1]) = OK m /\
    UnstructuredMap.indices m = [1; 1] /\
    UnstructuredMap.local_size m = 2 /\
    UnstructuredMap.global_from_local m 0 = OK 1 /\
    UnstructuredMap.global_from_local m 1 = OK 1.
Proof. eexists. repeat split. Qed.

(** ** Descriptors and the round trip *)

Lemma BlockMap_round_trip (m : BlockMap.t) :
  constructed (Block m) -> round_trip (Block m) = OK (Block m).
Proof.
  intros (n & p & r & s & e & Hm).
  apply BlockMap_init_inv in Hm as (s' & e' & -> & -> & ->).
  reflexivity.
Qed.

Lemma CyclicMap_round_trip (m : CyclicMap.t) :
  constructed (Cyclic m) -> round_trip (Cyclic m) = OK (Cyclic m).
Proof.
  intros (n & p & r & s & Hm).
  pose proof Hm as Hinit.
  apply CyclicMap_init_inv in Hm as (-> & Hrp & Hp & ->).
  unfold round_trip, dim_dict, CyclicMap.dim_dict, map_from_dim_dict.
  cbn -[CyclicMap.init]. rewrite Hinit. reflexivity.
Qed.

Lemma UnstructuredMap_round_trip (m : UnstructuredMap.t) :
  constructed (Unstructured m) ->
  round_trip (Unstructured m) = OK (Unstructured m).
Proof.
  intros (n & p & r & idx & Hm). destruct idx as [idx|]; [|discriminate].
  rewrite UnstructuredMap_init_OK in Hm. injection Hm as <-. reflexivity.
Qed.

Lemma BlockCyclicMap_dim_dict_raises (m : BlockCyclicMap.t) :
  constructed (BlockCyclic m) ->
  BlockCyclicMap.dim_dict m = Raise AttributeError /\
  round_trip (BlockCyclic m) = Raise AttributeError.
Proof.
  intros (n & p & r & s & b & Hm).
  apply BlockCyclicMap_init_inv in Hm as (s' & -> & _ & _ & _ & _ & ->).
  split; reflexivity.
Qed.

(** C2, the code at the failing input.  The block-cyclic map of the
    test suite ([size = 16], [proc_grid_size = 4], [start = 2],
    [block_size = 2], with [grid_rank = 1]) is constructed, but producing
    its descriptor raises [AttributeError], because [__init__] never stores
    [grid_rank]; so the round trip through [map_from_dim_dict] fails for
    this variant, while it succeeds for the other three. *)
Theorem block_cyclic_round_trip_raises :
  exists m,
    BlockCyclicMap.init 16 4 1 (Some 2) 2 = OK m /\
    dim_dict (BlockCyclic m) = Raise AttributeError /\
    round_trip (BlockCyclic m) = Raise AttributeError.
Proof. eexists. repeat split. Qed.

(** ** Indices that are not owned *)

Lemma global_from_local_beyond (m : AxisMap) (l : Z) :
  constructed m -> local_size m <= l ->
  global_from_local m l = Raise IndexError.
Proof.
  intros Hc Hl. destruct m as [m|m|m|m]; cbn [global_from_local local_size] in *.
  - unfold BlockMap.global_from_local.
    destruct (decide (l >= BlockMap.local_size m)); [reflexivity | lia].
  - unfold CyclicMap.global_from_local.
    destruct (decide (l >= CyclicMap.local_size m)); [reflexivity | lia].
  - unfold BlockCyclicMap.global_from_local.
    destruct (decide (l >= BlockCyclicMap.local_size m)); [reflexivity | lia].
  - destruct Hc as (n & p & r & idx & Hm).
    apply UnstructuredMap_init_inv in Hm as (xs & -> & Hidx & Hls & _).
    unfold UnstructuredMap.global_from_local, list_getitem.
    rewrite Hidx. rewrite Hls in Hl.
    destruct (decide (l < 0)); [lia|].
    destruct (decide (0 <= l < Z.of_nat (length xs))); [lia | reflexivity].
Qed.

Lemma BlockMap_local_from_global_unowned (m : BlockMap.t) (g : Z) :
  g ∉ range2 (BlockMap.start m) (BlockMap.stop m) ->
  BlockMap.local_from_global m g = Raise IndexError.
Proof.
  intros Hg. unfold BlockMap.local_from_global.
  destruct (decide (g < BlockMap.start m \/ g >= BlockMap.stop m));
    [reflexivity|].
  exfalso. apply Hg. unfold range2. apply elem_of_seqZ. lia.
Qed.

Lemma list_index_absent (xs : list Z) (x : Z) :
  x ∉ xs -> list_index xs x = Raise ValueError.
Proof.
  induction xs as [|y ys IH]; intros Hx; simpl.
  - reflexivity.
  - destruct (decide (y = x)) as [->|Hne].
    + exfalso. apply Hx. apply list_elem_of_here.
    + rewrite IH; [reflexivity|].
      intros Hin. apply Hx. apply list_elem_of_further. exact Hin.
Qed.

Lemma UnstructuredMap_local_from_global_unowned (m : UnstructuredMap.t)
    (g : Z) :
  g ∉ UnstructuredMap.indices m ->
  UnstructuredMap.local_from_global m g = Raise IndexError.
Proof.
  intros Hg. unfold UnstructuredMap.local_from_global.
  rewrite (list_index_absent _ _ Hg). reflexivity.
Qed.

(** C3, the code at the failing inputs.  The cyclic map of 16 indices over
    4 ranks at rank 2 owns [2, 6, 10, 14] and has local size 4, yet
    [local_from_global] returns 4 for the global index 18 and -1 for the
    global index -2, neither of which is owned, where an [IndexError] is
    due; the block-cyclic map of the test suite (blocks of 2, rank 1),
    which owns [2, 3, 10, 11], returns 4 for the global index 18. *)
Theorem local_from_global_accepts_unowned :
  (exists m,
     CyclicMap.init 16 4 2 (Some 2) = OK m /\
     global_index (Cyclic m) = OK [2; 6; 10; 14] /\
     local_size (Cyclic m) = 4 /\
     local_from_global (Cyclic m) 18 = OK 4 /\
     local_from_global (Cyclic m) (-2) = OK (-1)) /\
  (exists m,
     BlockCyclicMap.init 16 4 1 (Some 2) 2 = OK m /\
     global_index (BlockCyclic m) = OK [2; 3; 10; 11] /\
     local_size (BlockCyclic m) = 4 /\
     local_from_global (BlockCyclic m) 18 = OK 4).
Proof. split; eexists; repeat split. Qed.

(** ** Negative local indices *)

(** C10. The lower bound of [global_from_local] is not checked.  For a
    negative local index [l] and a map whose local size is not negative,
    [BlockMap.global_from_local l] returns [start + l], which is not an
    owned global index; [CyclicMap.global_from_local l] returns
    [l * grid_size + start]; and [UnstructuredMap.global_from_local l]
    with [-local_size <= l <= -1] returns [indices[local_size + l]].  None
    of these calls raises. *)
Theorem global_from_local_negative :
  (forall (m : BlockMap.t) l, l < 0 -> 0 <= BlockMap.local_size m ->
     BlockMap.global_from_local m l = OK (BlockMap.start m + l) /\
     forall gs, BlockMap.global_index m = OK gs ->
       BlockMap.start m + l ∉ gs) /\
  (forall (m : CyclicMap.t) l, l < 0 -> 0 <= CyclicMap.local_size m ->
     CyclicMap.global_from_local m l
     = OK (l * CyclicMap.grid_size m + CyclicMap.start m)) /\
  (forall (m : UnstructuredMap.t) l,
     constructed (Unstructured m) ->
     - UnstructuredMap.local_size m <= l <= -1 ->
     exists g,
       UnstructuredMap.indices m
         !! Z.to_nat (UnstructuredMap.local_size m + l) = Some g /\
       UnstructuredMap.global_from_local m l = OK g).
Proof.
  split; [|split].
  - intros m l Hl Hls. unfold BlockMap.global_from_local. split.
    + destruct (decide (l >= BlockMap.local_size m)); [lia|].
      f_equal. lia.
    + intros gs [= <-]. unfold range2. rewrite elem_of_seqZ. lia.
  - intros m l Hl Hls. unfold CyclicMap.global_from_local.
    destruct (decide (l >= CyclicMap.local_size m)); [lia | reflexivity].
  - intros m l (n & p & r & idx & Hm) Hl.
    apply UnstructuredMap_init_inv in Hm as (xs & -> & Hidx & Hls & _).
    rewrite Hls in *. rewrite Hidx.
    unfold UnstructuredMap.global_from_local, list_getitem. rewrite Hidx.
    destruct (decide (l < 0)); [|lia].
    destruct (decide (0 <= l + Z.of_nat (length xs) < Z.of_nat (length xs)));
      [|lia].
    replace (Z.of_nat (length xs) + l) with (l + Z.of_nat (length xs)) by lia.
    destruct (lookup_lt_is_Some_2 xs (Z.to_nat (l + Z.of_nat (length xs))))
      as [g Hg]; [lia|].
    exists g. rewrite Hg. auto.
Qed.

(** ** Dictionaries built by [dict(zip(...))] *)

Lemma foldl_insert_fresh (kvs : list (Z * Z)) (d : gmap Z Z) (k : Z) :
  (forall v, (k, v) ∉ kvs) ->
  foldl (fun d kv => <[kv.1 := kv.2]> d) d kvs !! k = d !! k.
Proof.
  revert d. induction kvs as [|[k0 v0] kvs IH]; intros d Hk; simpl.
  - reflexivity.
  - rewrite IH.
    + apply lookup_insert_ne. intros ->. apply (Hk v0), list_elem_of_here.
    + intros v Hv. apply (Hk v), list_elem_of_further, Hv.
Qed.

Lemma foldl_insert_at (kvs : list (Z * Z)) (d : gmap Z Z) (i : nat)
    (k v : Z) :
  (forall j v', kvs !! j = Some (k, v') -> j = i) ->
  kvs !! i = Some (k, v) ->
  foldl (fun d kv => <[kv.1 := kv.2]> d) d kvs !! k = Some v.
Proof.
  revert d i. induction kvs as [|[k0 v0] kvs IH]; intros d i Huniq Hi.
  - discriminate.
  - destruct i as [|i]; simpl in *.
    + injection Hi as -> ->. rewrite foldl_insert_fresh.
      * apply lookup_insert_eq.
      * intros v' Hv'. apply list_elem_of_lookup_1 in Hv' as [j Hj].
        specialize (Huniq (S j) v' Hj). discriminate.
    + apply (IH _ i); [|exact Hi].
      intros j v' Hj. specialize (Huniq (S j) v' Hj). lia.
Qed.

Lemma dict_zip_lookup_absent (ks vs : list Z) (k : Z) :
  k ∉ ks -> dict_zip ks vs !! k = None.
Proof.
  intros Hk. unfold dict_zip. rewrite foldl_insert_fresh.
  - apply lookup_empty.
  - intros v Hv. apply Hk. eapply elem_of_zip_l. exact Hv.
Qed.

Lemma dict_zip_lookup_at (ks vs : list Z) (i : nat) (k v : Z) :
  NoDup ks -> ks !! i = Some k -> vs !! i = Some v ->
  dict_zip ks vs !! k = Some v.
Proof.
  intros Hnd Hk Hv. unfold dict_zip. apply (foldl_insert_at _ _ i).
  - intros j v' Hj. apply lookup_zip_Some in Hj as [Hj _].
    eapply NoDup_lookup; eassumption.
  - apply lookup_zip_Some. auto.
Qed.

(** ** The [local_index] dictionary of a well-formed map *)

(** What [local_index] holds when it is [dict(zip(gs, range(local_size)))]
    for an enumeration [gs] without repetition, not longer than
    [local_size], on which [local_from_global] returns the position. *)
Lemma local_index_of_enumeration (m : AxisMap) (gs : list Z) :
  NoDup gs ->
  Z.of_nat (length gs) <= Z.max 0 (local_size m) ->
  (forall (i : nat) g, gs !! i = Some g ->
     local_from_global m g = OK (Z.of_nat i)) ->
  forall g,
    (g ∉ gs -> dict_zip gs (range1 (local_size m)) !! g = None) /\
    (g ∈ gs -> exists l,
       dict_zip gs (range1 (local_size m)) !! g = Some l /\
       local_from_global m g = OK l /\ 0 <= l < local_size m).
Proof.
  intros Hnd Hlen Hpos g. split.
  - apply dict_zip_lookup_absent.
  - intros Hg. apply list_elem_of_lookup_1 in Hg as [i Hi].
    pose proof (lookup_lt_Some _ _ _ Hi) as Hlt.
    exists (Z.of_nat i). split; [|split].
    + apply (dict_zip_lookup_at _ _ i); [exact Hnd | exact Hi |].
      unfold range1. rewrite lookup_seqZ_lt by lia. f_equal; lia.
    + apply Hpos. exact Hi.
    + lia.
Qed.

Lemma well_formed_enumeration (m : AxisMap) :
  well_formed m -> int32_indices m ->
  exists gs,
    global_index m = OK gs /\
    local_index m = OK (dict_zip gs (range1 (local_size m))) /\
    NoDup gs /\
    Z.of_nat (length gs) <= Z.max 0 (local_size m) /\
    (forall (i : nat) g, gs !! i = Some g ->
       local_from_global m g = OK (Z.of_nat i)).
Proof.
  intros [[Hc Hv] Hwf] Hfit. destruct m as [m|m|m|m].
  - (* Block *)
    pose proof Hc as (n & p & r & s & e & Hm).
    apply BlockMap_init_inv in Hm as (s' & e' & -> & -> & ->).
    exists (seqZ s' (e' - s')). cbn.
    split; [reflexivity|]. split; [reflexivity|].
    split; [apply NoDup_seqZ|]. split; [rewrite length_seqZ; lia|].
    intros i g Hi. apply lookup_seqZ in Hi as [-> Hi].
    unfold BlockMap.local_from_global. cbn.
    destruct (decide (s' + Z.of_nat i < s' \/ s' + Z.of_nat i >= e')); [lia|].
    f_equal. lia.
  - (* Cyclic *)
    pose proof Hc as (n & p & r & s & Hm).
    apply CyclicMap_init_inv in Hm as (-> & Hrp & Hp & ->).
    cbn [CyclicMap.grid_size] in Hwf.
    cbn [global_index local_index local_size local_from_global].
    unfold CyclicMap.local_index, CyclicMap.global_index.
    cbn [CyclicMap.start CyclicMap.global_size CyclicMap.grid_size
         CyclicMap.local_size].
    rewrite range3_pos by assumption. cbn [bind].
    replace (n - r - 1) with (n - 1 - r) by lia.
    eexists. split; [reflexivity|]. split; [reflexivity|].
    split.
    { apply NoDup_fmap_2_strong; [|apply NoDup_seqZ].
      intros x y _ _ Hxy. nia. }
    split; [rewrite length_fmap, length_seqZ; lia|].
    intros i g Hi. apply list_lookup_fmap_Some in Hi as (k & -> & Hk).
    apply lookup_seqZ in Hk as [-> Hk].
    set (m := CyclicMap.Make r p r ((n - 1 - r) / p + 1) n).
    destruct (CyclicMap_there_and_back m (Z.of_nat i) Hc) as [_ Hback];
      [cbn; lia|].
    cbn in Hback. rewrite <- Hback. f_equal; lia.
  - (* Block-cyclic *)
    cbn [global_index local_index local_size local_from_global].
    destruct (BlockCyclicMap_global_index_image m Hc Hwf Hfit) as [Hgi Hnd].
    unfold BlockCyclicMap.local_index. rewrite Hgi. cbn [bind].
    eexists. split; [reflexivity|]. split; [reflexivity|].
    split; [exact Hnd|].
    split; [unfold range1; rewrite length_fmap, length_seqZ; lia|].
    intros i g Hi. apply list_lookup_fmap_Some in Hi as (k & -> & Hk).
    apply lookup_seqZ in Hk as [-> Hk].
    destruct (BlockCyclicMap_there_and_back m (Z.of_nat i) Hc) as [_ Hback];
      [lia|].
    rewrite <- Hback. do 2 f_equal; lia.
  - (* Unstructured *)
    pose proof Hc as (n & p & r & idx & Hm).
    apply UnstructuredMap_init_inv in Hm as (xs & -> & Hidx & Hls & Hd & _).
    cbn [valid_parameters] in Hv.
    cbn [global_index local_index local_size local_from_global].
    unfold UnstructuredMap.global_index, UnstructuredMap.local_index,
      UnstructuredMap.local_from_global.
    rewrite Hidx, Hls, Hd in *.
    exists xs. split; [reflexivity|]. split; [reflexivity|].
    split; [exact Hv|]. split; [lia|].
    intros i g Hi.
    rewrite (list_index_lookup xs i g Hv Hi). reflexivity.
Qed.

(** The dictionary holds exactly the owned global indices, each with the
    local index [local_from_global] computes. *)
Lemma local_index_spec (m : AxisMap) :
  well_formed m -> int32_indices m ->
  exists gs d,
    global_index m = OK gs /\ local_index m = OK d /\
    forall g,
      (g ∉ gs -> d !! g = None) /\
      (g ∈ gs -> exists l, d !! g = Some l /\
         local_from_global m g = OK l /\ 0 <= l < local_size m).
Proof.
  intros Hwf Hfit.
  destruct (well_formed_enumeration m Hwf Hfit)
    as (gs & Hgi & Hli & Hnd & Hlen & Hpos).
  exists gs, (dict_zip gs (range1 (local_size m))).
  split; [exact Hgi|]. split; [exact Hli|].
  apply local_index_of_enumeration; assumption.
Qed.

(** ** Sequences of results *)

Lemma traverse_all_OK {A B : Type} (f : A -> result B)
    (P : A -> B -> Prop) (xs : list A) :
  (forall x, x ∈ xs -> exists y, f x = OK y /\ P x y) ->
  exists ys, traverse f xs = OK ys /\ Forall2 P xs ys.
Proof.
  induction xs as [|x xs IH]; intros Hf.
  - exists []. split; [reflexivity | constructor].
  - destruct (Hf x) as (y & Hy & HP); [apply list_elem_of_here|].
    destruct IH as (ys & Hys & HF).
    { intros x' Hx'. apply Hf, list_elem_of_further, Hx'. }
    exists (y :: ys). simpl. rewrite Hy. simpl. rewrite Hys. simpl.
    split; [reflexivity | constructor; assumption].
Qed.

Lemma traverse_one_error {A B : Type} (f : A -> result B) (e : exn)
    (xs : list A) :
  (forall x, x ∈ xs -> is_ok (f x) \/ f x = Raise e) ->
  (exists x, x ∈ xs /\ f x = Raise e) ->
  traverse f xs = Raise e.
Proof.
  induction xs as [|x xs IH]; intros Hall (x0 & Hx0 & Hbad).
  - apply elem_of_nil in Hx0. contradiction.
  - simpl. destruct (Hall x) as [[y Hy]|Hy]; [apply list_elem_of_here| |].
    + rewrite Hy. simpl. rewrite IH; [reflexivity| |].
      * intros x' Hx'. apply Hall, list_elem_of_further, Hx'.
      * apply elem_of_cons in Hx0 as [->|Hx0]; [congruence|].
        exists x0. auto.
    + rewrite Hy. reflexivity.
Qed.

Lemma traverse_is_ok {A B : Type} (f : A -> result B) (xs : list A) :
  is_ok (traverse f xs) <-> Forall (fun x => is_ok (f x)) xs.
Proof.
  induction xs as [|x xs IH]; simpl.
  - split; [constructor | intros _; eexists; reflexivity].
  - rewrite Forall_cons, <- IH. unfold is_ok.
    destruct (f x) as [y|e]; simpl.
    + destruct (traverse f xs) as [ys|e]; simpl.
      * split; [intros _; split; eexists; reflexivity |
                intros _; eexists; reflexivity].
      * split; [intros [? ?]; discriminate |
                intros [_ [? ?]]; discriminate].
    + split; [intros [? ?]; discriminate | intros [[? ?] _]; discriminate].
Qed.

(** ** MDMap *)

Lemma list_getitem_lookup {A : Type} (xs : list A) (i : nat) (x : A) :
  xs !! i = Some x -> list_getitem xs (Z.of_nat i) = OK x.
Proof.
  intros Hx. pose proof (lookup_lt_Some _ _ _ Hx) as Hlt.
  unfold list_getitem.
  destruct (decide (Z.of_nat i < 0)); [lia|].
  destruct (decide (0 <= Z.of_nat i < Z.of_nat (length xs))); [|lia].
  rewrite Nat2Z.id, Hx. reflexivity.
Qed.

Lemma MDMap_local_from_global_unfold (md : MDMap.t) (global_ind : list Z) :
  MDMap.local_from_global md global_ind
  = traverse (axis_local md global_ind) (range1 (MDMap.ndim md)).
Proof. reflexivity. Qed.

Lemma axis_local_spec (md : MDMap.t) (global_ind : list Z) (i : nat)
    (m : AxisMap) (g : Z) :
  well_formed m -> int32_indices m ->
  MDMap.maps md !! i = Some m -> global_ind !! i = Some g ->
  exists gi,
    global_index m = OK gi /\
    (g ∈ gi -> exists l,
       axis_local md global_ind (Z.of_nat i) = OK l /\
       local_from_global m g = OK l /\ 0 <= l < local_size m) /\
    (g ∉ gi -> axis_local md global_ind (Z.of_nat i) = Raise KeyError).
Proof.
  intros Hwf Hfit Hm Hg.
  destruct (local_index_spec m Hwf Hfit) as (gi & d & Hgi & Hd & Hspec).
  exists gi. split; [exact Hgi|].
  unfold axis_local.
  rewrite (list_getitem_lookup _ _ _ Hm). cbn [bind].
  rewrite Hd. cbn [bind].
  rewrite (list_getitem_lookup _ _ _ Hg). cbn [bind].
  unfold dict_getitem. destruct (Hspec g) as [Hout Hin]. split.
  - intros Hown. destruct (Hin Hown) as (l & Hl & Hlfg & Hrange).
    exists l. rewrite Hl. auto.
  - intros Hnot. rewrite (Hout Hnot). reflexivity.
Qed.

Lemma seqZ_of_nat_elem (n : nat) (x : Z) :
  x ∈ seqZ 0 (Z.of_nat n) ->
  exists i : nat, x = Z.of_nat i /\ (i < n)%nat.
Proof.
  intros Hx. apply elem_of_seqZ in Hx. exists (Z.to_nat x). lia.
Qed.

(** What [MDMap.local_from_global] does in general, for well-formed maps
    whose indices fit the 32-bit buffer and one global index per dimension:
    when every axis owns its component, it returns the tuple of the
    per-axis local indices, each the result of that axis's own
    [local_from_global] and inside [0..local_size); when some axis does not
    own its component, it raises [KeyError], the error of the lookup in the
    [local_index] dict of the axis. *)
Lemma MDMap_local_from_global_general (md : MDMap.t) (global_ind : list Z) :
  MDMap_invariant md ->
  Forall well_formed (MDMap.maps md) ->
  Forall int32_indices (MDMap.maps md) ->
  length global_ind = length (MDMap.maps md) ->
  ((forall (i : nat) m g,
      MDMap.maps md !! i = Some m -> global_ind !! i = Some g -> owns m g) ->
   exists ls,
     MDMap.local_from_global md global_ind = OK ls /\
     length ls = length (MDMap.maps md) /\
     forall (i : nat) m g l,
       MDMap.maps md !! i = Some m -> global_ind !! i = Some g ->
       ls !! i = Some l ->
       local_from_global m g = OK l /\ 0 <= l < local_size m) /\
  ((exists (i : nat) m g,
      MDMap.maps md !! i = Some m /\ global_ind !! i = Some g /\
      ~ owns m g) ->
   MDMap.local_from_global md global_ind = Raise KeyError).
Proof.
  intros Hinv Hwf Hfit Hlen. rewrite MDMap_local_from_global_unfold.
  unfold MDMap_invariant in Hinv. rewrite Hinv. unfold range1.
  set (N := length (MDMap.maps md)) in *.
  assert (Haxis : forall x, x ∈ seqZ 0 (Z.of_nat N) ->
    exists (i : nat) m g gi,
      x = Z.of_nat i /\ MDMap.maps md !! i = Some m /\
      global_ind !! i = Some g /\ global_index m = OK gi /\
      (g ∈ gi -> exists l,
         axis_local md global_ind x = OK l /\
         local_from_global m g = OK l /\ 0 <= l < local_size m) /\
      (g ∉ gi -> axis_local md global_ind x = Raise KeyError)).
  { intros x Hx. apply seqZ_of_nat_elem in Hx as (i & -> & Hi).
    destruct (lookup_lt_is_Some_2 (MDMap.maps md) i) as [m Hm]; [exact Hi|].
    destruct (lookup_lt_is_Some_2 global_ind i) as [g Hg]; [lia|].
    assert (Hwfm : well_formed m).
    { eapply Forall_lookup_1; eassumption. }
    assert (Hfitm : int32_indices m).
    { eapply Forall_lookup_1; eassumption. }
    destruct (axis_local_spec md global_ind i m g Hwfm Hfitm Hm Hg)
      as (gi & Hgi & Hin & Hout).
    exists i, m, g, gi. auto 10. }
  split.
  - intros Hown.
    destruct (traverse_all_OK (axis_local md global_ind)
      (fun x l => forall (i : nat) m g,
         x = Z.of_nat i -> MDMap.maps md !! i = Some m ->
         global_ind !! i = Some g ->
         local_from_global m g = OK l /\ 0 <= l < local_size m)
      (seqZ 0 (Z.of_nat N))) as (ls & Hls & HF).
    { intros x Hx.
      destruct (Haxis x Hx) as (i & m & g & gi & -> & Hm & Hg & Hgi & Hin & _).
      destruct (Hown i m g Hm Hg) as (gi' & Hgi' & Hmem).
      rewrite Hgi in Hgi'. injection Hgi' as <-.
      destruct (Hin Hmem) as (l & Hl & Hlfg & Hrange).
      exists l. split; [exact Hl|].
      intros i' m' g' Heq Hm' Hg'.
      assert (i' = i) as -> by lia.
      rewrite Hm in Hm'. injection Hm' as <-.
      rewrite Hg in Hg'. injection Hg' as <-. auto. }
    exists ls. split; [exact Hls|]. split.
    + apply Forall2_length in HF. rewrite length_seqZ in HF. lia.
    + intros i m g l Hm Hg Hl.
      pose proof (lookup_lt_Some _ _ _ Hm) as Hi.
      assert (Hx : seqZ 0 (Z.of_nat N) !! i = Some (Z.of_nat i)).
      { rewrite lookup_seqZ_lt by (fold N in Hi; lia). f_equal; lia. }
      exact (Forall2_lookup_lr _ _ _ _ _ _ HF Hx Hl i m g eq_refl Hm Hg).
  - intros (i & m & g & Hm & Hg & Hnot).
    apply traverse_one_error.
    + intros x Hx.
      destruct (Haxis x Hx) as (i' & m' & g' & gi & -> & _ & _ & _ & Hin & Hout).
      destruct (decide (g' ∈ gi)) as [Hmem|Hmem].
      * left. destruct (Hin Hmem) as (l & Hl & _). exists l. exact Hl.
      * right. exact (Hout Hmem).
    + pose proof (lookup_lt_Some _ _ _ Hm) as Hi. fold N in Hi.
      exists (Z.of_nat i). split; [apply elem_of_seqZ; lia|].
      assert (Hwfm : well_formed m).
      { eapply Forall_lookup_1; eassumption. }
      assert (Hfitm : int32_indices m).
      { eapply Forall_lookup_1; eassumption. }
      destruct (axis_local_spec md global_ind i m g Hwfm Hfitm Hm Hg)
        as (gi & Hgi & _ & Hout).
      apply Hout. intros Hmem. apply Hnot. exists gi. auto.
Qed.

(** C7, the code at the failing input.  In the two-dimensional map of a
    block axis holding [0..5) and the cyclic axis of rank 2 of 4, the index
    [(3, 10)] is translated to [(3, 2)], while [(3, 3)] and [(7, 10)],
    whose second or first component is not owned, raise [KeyError] where
    an [IndexError] is due.  The other paths raise [IndexError]: the axis's
    own [local_from_global] for these very components, and
    [MDMap.global_from_local] for a local index past the end of an axis. *)
Theorem MDMap_unowned_raises_KeyError :
  exists md b c,
    MDMap.from_dim_data block_cyclic_dim_data = OK md /\
    MDMap.maps md = [b; c] /\
    MDMap.local_from_global md [3; 10] = OK [3; 2] /\
    MDMap.local_from_global md [3; 3] = Raise KeyError /\
    MDMap.local_from_global md [7; 10] = Raise KeyError /\
    local_from_global c 3 = Raise IndexError /\
    local_from_global b 7 = Raise IndexError /\
    MDMap.global_from_local md [3; 4] = Raise IndexError /\
    MDMap.global_from_local md [5; 2] = Raise IndexError.
Proof.
  eexists _, _, _. split; [reflexivity|]. split; [reflexivity|].
  repeat split; vm_compute; reflexivity.
Qed.

(** ** Building the maps of one rank *)

Lemma MDMap_from_dim_data_is_ok (dim_data : list DimDict.t) :
  is_ok (MDMap.from_dim_data dim_data)
  <-> Forall (fun dd => is_ok (map_from_dim_dict dd)) dim_data.
Proof.
  rewrite <- traverse_is_ok. unfold MDMap.from_dim_data, is_ok.
  destruct (traverse map_from_dim_dict dim_data) as [ms|e]; simpl.
  - split; intros _; eexists; reflexivity.
  - split; intros [? ?]; discriminate.
Qed.

(** ** The statements at concrete maps *)

Lemma cyclic_16_4_2_constructed : constructed (Cyclic cyclic_16_4_2).
Proof. exists 16, 4, 2, (Some 2). reflexivity. Defined.

Lemma block_10_0_5_constructed : constructed (Block block_10_0_5).
Proof. exists 10, 2, 0, (Some 0), (Some 5). reflexivity. Defined.

(** C1 at the cyclic map of rank 2 of 4 and local index 1. *)
Lemma local_from_global_global_from_local_witness :
  valid_parameters (Cyclic cyclic_16_4_2) /\
  0 <= 1 < local_size (Cyclic cyclic_16_4_2) /\
  exists g,
    global_from_local (Cyclic cyclic_16_4_2) 1 = OK g /\
    local_from_global (Cyclic cyclic_16_4_2) g = OK 1.
Proof.
  assert (Hv : valid_parameters (Cyclic cyclic_16_4_2))
    by (split; [apply cyclic_16_4_2_constructed | exact I]).
  assert (Hl : 0 <= 1 < local_size (Cyclic cyclic_16_4_2))
    by (simpl; lia).
  split; [exact Hv|]. split; [exact Hl|].
  exact (local_from_global_global_from_local _ 1 Hv Hl).
Defined.

(** C9 at 16 indices, 4 ranks, rank 2. *)
Lemma CyclicMap_local_size_witness :
  0 <= 2 < 4 /\ 0 <= 16 /\
  exists m gs,
    CyclicMap.init 16 4 2 (Some 2) = OK m /\
    CyclicMap.local_size m = ceil_div (16 - 2) 4 /\
    CyclicMap.local_size m = (16 - 1 - 2) / 4 + 1 /\
    CyclicMap.global_index m = OK gs /\
    CyclicMap.local_size m = Z.of_nat (length gs) /\
    CyclicMap.size m = OK (CyclicMap.local_size m).
Proof.
  assert (Hr : 0 <= 2 < 4) by lia.
  assert (Hn : 0 <= 16) by lia.
  split; [exact Hr|]. split; [exact Hn|].
  exact (CyclicMap_local_size 16 4 2 Hr Hn).
Defined.

(** C4 at 16 indices, 4 ranks and blocks of 2. *)
Lemma owned_globals_partition_witness :
  0 <= 16 /\ 1 <= 4 /\ 1 <= 2 /\ (2 | 16) /\
  partition_of_range 16 4 (cyclic_owned 16 4) /\
  partition_of_range 16 4 (block_cyclic_owned 16 4 2).
Proof.
  assert (Hn : 0 <= 16) by lia.
  assert (Hp : 1 <= 4) by lia.
  assert (Hb : 1 <= 2) by lia.
  assert (Hd : (2 | 16)) by (exists 8; reflexivity).
  split; [exact Hn|]. split; [exact Hp|]. split; [exact Hb|].
  split; [exact Hd|].
  destruct (owned_globals_partition 16 4 Hn Hp) as [Hc Hbc].
  split; [exact Hc | exact (Hbc 2 Hb Hd)].
Defined.

(** C5 at 16 indices, 4 ranks, start 1. *)
Lemma block_cyclic_equivalences_witness :
  0 <= 16 /\ 0 <= 1 < 4 /\
  exists bc c,
    BlockCyclicMap.init 16 4 1 (Some 1) 1 = OK bc /\
    CyclicMap.init 16 4 1 (Some 1) = OK c /\
    same_behaviour (BlockCyclic bc) (Cyclic c) 16.
Proof.
  assert (Hn : 0 <= 16) by lia.
  assert (Hs : 0 <= 1 < 4) by lia.
  split; [exact Hn|]. split; [exact Hs|].
  exact (proj1 block_cyclic_equivalences 16 4 1 Hn Hs).
Defined.

(** C6 at a cyclic map asked for with [start = 3] at rank 2. *)
Lemma construction_errors_witness :
  3 <> 2 /\ CyclicMap.init 16 4 2 (Some 3) = Raise ValueError.
Proof.
  assert (Hs : 3 <> 2) by lia.
  split; [exact Hs|].
  exact (proj1 construction_errors 16 4 2 3 Hs).
Defined.

(** C10 at the block map holding [0..5) and local index -1. *)
Lemma global_from_local_negative_witness :
  -1 < 0 /\ 0 <= BlockMap.local_size block_10_0_5 /\
  BlockMap.global_from_local block_10_0_5 (-1)
  = OK (BlockMap.start block_10_0_5 + -1).
Proof.
  assert (Hl : -1 < 0) by lia.
  assert (Hls : 0 <= BlockMap.local_size block_10_0_5) by (simpl; lia).
  split; [exact Hl|]. split; [exact Hls|].
  exact (proj1 (proj1 global_from_local_negative block_10_0_5 (-1) Hl Hls)).
Defined.

(** ** Positions in the enumeration of owned indices *)

Lemma size_unfold (m : AxisMap) :
  size m = (let* gi := global_index m in OK (Z.of_nat (length gi))).
Proof. destruct m; reflexivity. Qed.

Lemma well_formed_global_from_local (m : AxisMap) :
  well_formed m -> int32_indices m ->
  exists gs,
    global_index m = OK gs /\
    Z.of_nat (length gs) = Z.max 0 (local_size m) /\
    (forall (i : nat) g, gs !! i = Some g ->
       global_from_local m (Z.of_nat i) = OK g).
Proof.
  intros [[Hc Hv] Hwf] Hfit. destruct m as [m|m|m|m].
  - pose proof Hc as (n & p & r & s & e & Hm).
    apply BlockMap_init_inv in Hm as (s' & e' & -> & -> & ->).
    exists (seqZ s' (e' - s')). cbn.
    split; [reflexivity|]. split; [rewrite length_seqZ; lia|].
    intros i g Hi. apply lookup_seqZ in Hi as [-> Hi].
    unfold BlockMap.global_from_local. cbn.
    destruct (decide (Z.of_nat i >= e' - s')); [lia|].
    f_equal; lia.
  - pose proof Hc as (n & p & r & s & Hm).
    apply CyclicMap_init_inv in Hm as (-> & Hrp & Hp & ->).
    cbn [CyclicMap.grid_size] in Hwf.
    cbn [global_index local_size global_from_local].
    unfold CyclicMap.global_index.
    cbn [CyclicMap.start CyclicMap.global_size CyclicMap.grid_size
         CyclicMap.local_size].
    rewrite range3_pos by assumption.
    replace (n - r - 1) with (n - 1 - r) by lia.
    eexists. split; [reflexivity|].
    split; [rewrite length_fmap, length_seqZ; lia|].
    intros i g Hi. apply list_lookup_fmap_Some in Hi as (k & -> & Hk).
    apply lookup_seqZ in Hk as [-> Hk].
    set (m := CyclicMap.Make r p r ((n - 1 - r) / p + 1) n).
    destruct (CyclicMap_there_and_back m (Z.of_nat i) Hc) as [Hgo _];
      [cbn; lia|].
    cbn in Hgo. rewrite Hgo. f_equal; lia.
  - cbn [global_index local_size global_from_local].
    destruct (BlockCyclicMap_global_index_image m Hc Hwf Hfit) as [Hgi _].
    rewrite Hgi. eexists. split; [reflexivity|].
    split; [unfold range1; rewrite length_fmap, length_seqZ; lia|].
    intros i g Hi. apply list_lookup_fmap_Some in Hi as (k & -> & Hk).
    apply lookup_seqZ in Hk as [-> Hk].
    destruct (BlockCyclicMap_there_and_back m (Z.of_nat i) Hc) as [Hgo _];
      [lia|].
    rewrite Hgo. do 2 f_equal; lia.
  - pose proof Hc as (n & p & r & idx & Hm).
    apply UnstructuredMap_init_inv in Hm as (xs & -> & Hidx & Hls & _).
    cbn [global_index local_size global_from_local].
    unfold UnstructuredMap.global_index, UnstructuredMap.global_from_local.
    rewrite Hidx, Hls.
    exists xs. split; [reflexivity|]. split; [lia|].
    intros i g Hi. apply list_getitem_lookup. exact Hi.
Qed.

(** All that is known about the enumeration of a well-formed map. *)
Lemma well_formed_positions (m : AxisMap) :
  well_formed m -> int32_indices m ->
  exists gs,
    global_index m = OK gs /\ NoDup gs /\
    local_index m = OK (dict_zip gs (range1 (local_size m))) /\
    Z.of_nat (length gs) = Z.max 0 (local_size m) /\
    (forall (i : nat) g, gs !! i = Some g ->
       local_from_global m g = OK (Z.of_nat i) /\
       global_from_local m (Z.of_nat i) = OK g).
Proof.
  intros Hwf Hfit.
  destruct (well_formed_enumeration m Hwf Hfit)
    as (gs & Hgi & Hli & Hnd & _ & Hlfg).
  destruct (well_formed_global_from_local m Hwf Hfit)
    as (gs' & Hgi' & Hlen & Hgfl).
  rewrite Hgi in Hgi'. injection Hgi' as <-.
  exists gs. auto 10.
Qed.

(** X1. [size], the length of the enumeration of owned indices, is the
    local size of a well-formed map, or zero when the local size is
    negative.  For a block-cyclic map the enumeration is a 32-bit buffer,
    and the statement is for indices that fit it. *)
Theorem size_is_local_size (m : AxisMap) :
  well_formed m -> int32_indices m ->
  size m = OK (Z.max 0 (local_size m)).
Proof.
  intros Hwf Hfit.
  destruct (well_formed_positions m Hwf Hfit)
    as (gs & Hgi & _ & _ & Hlen & _).
  rewrite size_unfold, Hgi. cbn [bind]. rewrite Hlen. reflexivity.
Qed.

(** X2. From an owned global index to its local index and back: for a
    well-formed map whose indices fit the 32-bit buffer and a [g] of its
    [global_index], [local_from_global g] returns a local index [l] with
    [0 <= l < local_size], and [global_from_local l] returns [g]. *)
Theorem global_from_local_local_from_global (m : AxisMap) (g : Z) :
  well_formed m -> int32_indices m -> owns m g ->
  exists l,
    local_from_global m g = OK l /\ 0 <= l < local_size m /\
    global_from_local m l = OK g.
Proof.
  intros Hwf Hfit (gs & Hgi & Hg).
  destruct (well_formed_positions m Hwf Hfit)
    as (gs' & Hgi' & _ & _ & Hlen & Hpos).
  rewrite Hgi in Hgi'. injection Hgi' as <-.
  apply list_elem_of_lookup_1 in Hg as [i Hi].
  pose proof (lookup_lt_Some _ _ _ Hi) as Hlt.
  destruct (Hpos i g Hi) as [Hlfg Hgfl].
  exists (Z.of_nat i). split; [exact Hlfg|]. split; [lia | exact Hgfl].
Qed.

(** X3. The upper bound of [global_from_local]: in each of the four
    classes, a local index [l >= local_size] raises [IndexError]. *)
Theorem global_from_local_upper_bound (m : AxisMap) (l : Z) :
  constructed m -> local_size m <= l ->
  global_from_local m l = Raise IndexError.
Proof. apply global_from_local_beyond. Qed.

(** X4. The [local_index] dictionary of a well-formed map whose indices
    fit the 32-bit buffer has exactly the entries of [global_index] as
    keys, and the value at such a [g] is the local index
    [local_from_global g] returns, inside [0..local_size). *)
Theorem local_index_agrees_with_local_from_global (m : AxisMap) :
  well_formed m -> int32_indices m ->
  exists gs d,
    global_index m = OK gs /\ local_index m = OK d /\
    forall g,
      (g ∉ gs -> d !! g = None) /\
      (g ∈ gs -> exists l, d !! g = Some l /\
         local_from_global m g = OK l /\ 0 <= l < local_size m).
Proof. apply local_index_spec. Qed.

(** X5. For a well-formed block or unstructured map, [local_from_global]
    decides ownership: it returns a local index of [0..local_size) for an
    owned global index and raises [IndexError] for every other integer. *)
Theorem local_from_global_decides_ownership (m : AxisMap) (g : Z) :
  well_formed m -> checks_ownership m ->
  (owns m g ->
   exists l, local_from_global m g = OK l /\ 0 <= l < local_size m) /\
  (~ owns m g -> local_from_global m g = Raise IndexError).
Proof.
  intros Hwf Hchk.
  assert (Hfit : int32_indices m) by (destruct m; try contradiction; exact I).
  split.
  - intros (gs & Hgi & Hg).
    destruct (local_index_spec m Hwf Hfit) as (gs' & d & Hgi' & _ & Hspec).
    rewrite Hgi in Hgi'. injection Hgi' as <-.
    destruct (proj2 (Hspec g) Hg) as (l & _ & Hl & Hr). eauto.
  - intros Hnot. destruct m as [m|m|m|m]; try contradiction.
    + apply BlockMap_local_from_global_unowned. intros Hg.
      apply Hnot. eexists. split; [reflexivity | exact Hg].
    + apply UnstructuredMap_local_from_global_unowned. intros Hg.
      apply Hnot. eexists. split; [reflexivity | exact Hg].
Qed.

(** X6. What [CyclicMap.local_from_global] accepts: for a constructed
    cyclic map and any integer [g], in or out of [0..global_size), the
    call returns [(g - start) // grid_size] when [g] is congruent to [start]
    modulo [grid_size] and raises [IndexError] otherwise; in particular
    [start + k * grid_size] is translated to [k] for every integer [k]. *)
Theorem CyclicMap_local_from_global_congruence (m : CyclicMap.t) (g : Z) :
  constructed (Cyclic m) ->
  ((g - CyclicMap.start m) mod CyclicMap.grid_size m = 0 ->
   CyclicMap.local_from_global m g
   = OK ((g - CyclicMap.start m) / CyclicMap.grid_size m)) /\
  ((g - CyclicMap.start m) mod CyclicMap.grid_size m <> 0 ->
   CyclicMap.local_from_global m g = Raise IndexError) /\
  (forall k,
     CyclicMap.local_from_global m
       (CyclicMap.start m + k * CyclicMap.grid_size m) = OK k).
Proof.
  intros (n & p & r & s & Hm).
  apply CyclicMap_init_inv in Hm as (-> & Hrp & Hp & ->).
  unfold CyclicMap.local_from_global. cbn.
  rewrite pymod_OK by assumption. cbn [bind].
  split; [|split].
  - intros H. destruct (decide ((g - r) mod p <> 0)); [contradiction|].
    apply floordiv_OK. assumption.
  - intros H. destruct (decide ((g - r) mod p <> 0));
      [reflexivity | contradiction].
  - intros k. replace (r + k * p - r) with (k * p) by lia.
    rewrite pymod_OK by assumption. cbn [bind].
    rewrite Z.mod_mul by assumption.
    destruct (decide (0 <> 0)); [lia|].
    rewrite floordiv_OK by assumption.
    rewrite Z.div_mul by assumption. reflexivity.
Qed.

(** ** Ascending enumerations *)

Lemma bc_image_increasing (m : BlockCyclicMap.t) (l1 l2 : Z) :
  0 < BlockCyclicMap.block_size m -> 0 < BlockCyclicMap.grid_size m ->
  l1 < l2 -> bc_image m l1 < bc_image m l2.
Proof.
  intros Hb Hp Hl. unfold bc_image.
  set (b := BlockCyclicMap.block_size m) in *.
  set (p := BlockCyclicMap.grid_size m) in *.
  set (sb := BlockCyclicMap.start_block m).
  pose proof (Z.div_mod l1 b ltac:(lia)) as H1.
  pose proof (Z.div_mod l2 b ltac:(lia)) as H2.
  pose proof (Z.mod_pos_bound l1 b Hb) as B1.
  pose proof (Z.mod_pos_bound l2 b Hb) as B2.
  assert (Hq : l1 / b <= l2 / b) by (apply Z.div_le_mono; lia).
  destruct (decide (l1 / b = l2 / b)) as [Heq|Hne].
  - rewrite Heq in *. lia.
  - assert (Hq1 : l1 / b + 1 <= l2 / b) by lia.
    assert (Hp1 : (l1 / b + 1) * p <= l2 / b * p) by nia.
    nia.
Qed.

(** X7. Local order is global order: for a block map, a cyclic map with
    a positive grid size and a block-cyclic map with positive block and
    grid sizes, [global_from_local] is strictly increasing where it
    succeeds, so the owned global indices are enumerated in ascending
    order. *)
Theorem global_from_local_increasing (m : AxisMap) (l1 l2 g1 g2 : Z) :
  constructed m -> ascending_parameters m ->
  l1 < l2 ->
  global_from_local m l1 = OK g1 -> global_from_local m l2 = OK g2 ->
  g1 < g2.
Proof.
  intros Hc Hasc Hl H1 H2. destruct m as [m|m|m|m];
    cbn [global_from_local ascending_parameters] in *.
  - unfold BlockMap.global_from_local in *.
    destruct (decide (l1 >= BlockMap.local_size m)); [discriminate|].
    destruct (decide (l2 >= BlockMap.local_size m)); [discriminate|].
    injection H1 as <-. injection H2 as <-. lia.
  - unfold CyclicMap.global_from_local in *.
    destruct (decide (l1 >= CyclicMap.local_size m)); [discriminate|].
    destruct (decide (l2 >= CyclicMap.local_size m)); [discriminate|].
    injection H1 as <-. injection H2 as <-. nia.
  - destruct Hasc as [Hb Hp].
    assert (Hl2 : l2 < BlockCyclicMap.local_size m).
    { unfold BlockCyclicMap.global_from_local in H2.
      destruct (decide (l2 >= BlockCyclicMap.local_size m));
        [discriminate | lia]. }
    destruct (BlockCyclicMap_there_and_back m l1 Hc) as [E1 _]; [lia|].
    destruct (BlockCyclicMap_there_and_back m l2 Hc) as [E2 _]; [lia|].
    rewrite E1 in H1. rewrite E2 in H2.
    injection H1 as <-. injection H2 as <-.
    apply bc_image_increasing; assumption.
  - contradiction.
Qed.

(** X8. Which rank owns an index.  With [0 <= r < p], rank [r] of a
    cyclic axis owns exactly the indices [g] of [0..n) with [g mod p = r];
    and for [n >= 0] and a block size [b >= 1] dividing [n], rank [r] of a
    block-cyclic axis owns exactly those with [(g // b) mod p = r] (they
    are the global indices [global_from_local] gives for its local
    indices). *)
Theorem owning_rank_closed_form (n p r : Z) :
  0 <= r < p ->
  (exists gs, cyclic_owned n p r = OK gs /\
     forall g, g ∈ gs <-> 0 <= g < n /\ g mod p = r) /\
  (forall b, 0 <= n -> 1 <= b -> (b | n) ->
     exists gs, block_cyclic_owned n p b r = OK gs /\
       forall g, g ∈ gs <-> 0 <= g < n /\ (g / b) mod p = r).
Proof.
  intros Hr. split.
  - destruct (cyclic_owned_spec n p r Hr) as (gs & Hgs & _ & Hin). eauto.
  - intros b Hn Hb Hdiv.
    destruct (block_cyclic_owned_spec n p b r Hn Hb Hdiv Hr)
      as (gs & Hgs & _ & Hin).
    eauto.
Qed.

(** ** Tuples computed dimension by dimension *)

Lemma traverse_OK_iff {A B : Type} (f : A -> result B) (xs : list A)
    (ys : list B) :
  traverse f xs = OK ys <-> Forall2 (fun x y => f x = OK y) xs ys.
Proof.
  revert ys. induction xs as [|x xs IH]; intros ys; simpl.
  - split.
    + intros [= <-]. constructor.
    + intros H. inversion H. reflexivity.
  - split.
    + intros H. apply bind_OK in H as (y & Hy & H).
      apply bind_OK in H as (ys' & Hys & [= <-]).
      constructor; [exact Hy | apply IH; exact Hys].
    + intros H. inversion H as [|? y ? ys' Hy Hys]; subst.
      rewrite Hy. cbn [bind]. apply IH in Hys. rewrite Hys. reflexivity.
Qed.

(** A traversal of [range(N)] is determined position by position. *)
Lemma traverse_range_OK_iff {B : Type} (f : Z -> result B) (N : nat)
    (ys : list B) :
  traverse f (seqZ 0 (Z.of_nat N)) = OK ys <->
  length ys = N /\
  forall (i : nat) y, ys !! i = Some y -> f (Z.of_nat i) = OK y.
Proof.
  rewrite traverse_OK_iff, Forall2_same_length_lookup, length_seqZ.
  split.
  - intros [Hlen H]. split; [lia|].
    intros i y Hy. apply (H i); [|exact Hy].
    pose proof (lookup_lt_Some _ _ _ Hy).
    rewrite lookup_seqZ_lt by lia. f_equal; lia.
  - intros [Hlen H]. split; [lia|].
    intros i x y Hx Hy. apply lookup_seqZ in Hx as [-> _].
    rewrite Z.add_0_l. apply H. exact Hy.
Qed.

Lemma MDMap_global_from_local_unfold (md : MDMap.t) (local_ind : list Z) :
  MDMap.global_from_local md local_ind
  = traverse (axis_global md local_ind) (range1 (MDMap.ndim md)).
Proof. reflexivity. Qed.

(** [xs[i]] for any integer [i]. *)
Lemma list_getitem_spec {A : Type} (xs : list A) (i : Z) :
  let n := Z.of_nat (length xs) in
  (- n <= i < n ->
   exists x, xs !! Z.to_nat (if decide (i < 0) then i + n else i) = Some x /\
     list_getitem xs i = OK x) /\
  (i < - n \/ n <= i -> list_getitem xs i = Raise IndexError).
Proof.
  intros n. unfold list_getitem. fold n. split.
  - intros Hi.
    set (j := if decide (i < 0) then i + n else i).
    assert (Hj : 0 <= j < n) by (subst j; destruct (decide (i < 0)); lia).
    destruct (decide (0 <= j < n)); [|lia].
    destruct (lookup_lt_is_Some_2 xs (Z.to_nat j)) as [x Hx]; [lia|].
    exists x. rewrite Hx. auto.
  - intros Hi.
    destruct (decide (i < 0));
      (destruct (decide (0 <= _ < n)); [lia | reflexivity]).
Qed.

Lemma axis_global_spec (md : MDMap.t) (local_ind : list Z) (i : nat)
    (m : AxisMap) (l : Z) :
  well_formed m -> int32_indices m ->
  MDMap.maps md !! i = Some m -> local_ind !! i = Some l ->
  let n := Z.max 0 (local_size m) in
  (- n <= l < n ->
   exists g,
     axis_global md local_ind (Z.of_nat i) = OK g /\
     global_from_local m (if decide (l < 0) then l + local_size m else l)
     = OK g /\
     local_from_global m g
     = OK (if decide (l < 0) then l + local_size m else l)) /\
  (l < - n \/ n <= l ->
   axis_global md local_ind (Z.of_nat i) = Raise IndexError).
Proof.
  intros Hwf Hfit Hm Hl n.
  destruct (well_formed_positions m Hwf Hfit)
    as (gs & Hgi & _ & _ & Hlen & Hpos).
  unfold axis_global.
  rewrite (list_getitem_lookup _ _ _ Hm). cbn [bind].
  rewrite Hgi. cbn [bind].
  rewrite (list_getitem_lookup _ _ _ Hl). cbn [bind].
  destruct (list_getitem_spec gs l) as [Hin Hout]. rewrite Hlen in *.
  fold n in Hin, Hout. split.
  - intros Hr. destruct (Hin Hr) as (g & Hg & Hget).
    assert (Hn : n = local_size m) by lia.
    rewrite Hn in Hg.
    set (j := if decide (l < 0) then l + local_size m else l) in *.
    assert (Hj : 0 <= j) by (subst j; destruct (decide (l < 0)); lia).
    destruct (Hpos _ _ Hg) as [Hlfg Hgfl].
    rewrite Z2Nat.id in Hlfg, Hgfl by exact Hj.
    exists g. auto.
  - exact Hout.
Qed.

Lemma MDMap_axes (md : MDMap.t) (xs : list Z) (i : nat) :
  MDMap_invariant md -> Forall well_formed (MDMap.maps md) ->
  Forall int32_indices (MDMap.maps md) ->
  length xs = length (MDMap.maps md) ->
  (i < length (MDMap.maps md))%nat ->
  exists m x,
    MDMap.maps md !! i = Some m /\ xs !! i = Some x /\
    well_formed m /\ int32_indices m.
Proof.
  intros _ Hwf Hfit Hlen Hi.
  destruct (lookup_lt_is_Some_2 (MDMap.maps md) i) as [m Hm]; [exact Hi|].
  destruct (lookup_lt_is_Some_2 xs i) as [x Hx]; [lia|].
  exists m, x. split; [exact Hm|]. split; [exact Hx|].
  split; eapply Forall_lookup_1; eassumption.
Qed.

(** X9. [MDMap.global_from_local] for well-formed maps whose indices fit
    the 32-bit buffer and one local index per dimension.  When every
    component [l] lies in [-local_size..local_size), the call returns one
    global index per dimension: the one the axis's own [global_from_local]
    gives for [l],
    or for [l + local_size] when [l] is negative (the component subscripts
    the list of owned indices, so a negative one counts from the end).
    When some component lies outside that range the call raises
    [IndexError]. *)
Theorem MDMap_global_from_local_spec (md : MDMap.t) (local_ind : list Z) :
  MDMap_invariant md ->
  Forall well_formed (MDMap.maps md) ->
  Forall int32_indices (MDMap.maps md) ->
  length local_ind = length (MDMap.maps md) ->
  ((forall (i : nat) m l,
      MDMap.maps md !! i = Some m -> local_ind !! i = Some l ->
      - Z.max 0 (local_size m) <= l < Z.max 0 (local_size m)) ->
   exists gs,
     MDMap.global_from_local md local_ind = OK gs /\
     length gs = length (MDMap.maps md) /\
     forall (i : nat) m l g,
       MDMap.maps md !! i = Some m -> local_ind !! i = Some l ->
       gs !! i = Some g ->
       global_from_local m (if decide (l < 0) then l + local_size m else l)
       = OK g) /\
  ((exists (i : nat) m l,
      MDMap.maps md !! i = Some m /\ local_ind !! i = Some l /\
      (l < - Z.max 0 (local_size m) \/ Z.max 0 (local_size m) <= l)) ->
   MDMap.global_from_local md local_ind = Raise IndexError).
Proof.
  intros Hinv Hwf Hfit Hlen. rewrite MDMap_global_from_local_unfold.
  pose proof Hinv as Hndim. unfold MDMap_invariant in Hndim.
  rewrite Hndim. unfold range1.
  set (N := length (MDMap.maps md)) in *.
  split.
  - intros Hrange.
    destruct (traverse_all_OK (axis_global md local_ind)
      (fun x g => forall (i : nat) m l,
         x = Z.of_nat i -> MDMap.maps md !! i = Some m ->
         local_ind !! i = Some l ->
         global_from_local m (if decide (l < 0) then l + local_size m else l)
         = OK g)
      (seqZ 0 (Z.of_nat N))) as (gs & Hgs & HF).
    { intros x Hx. apply seqZ_of_nat_elem in Hx as (i & -> & Hi).
      destruct (MDMap_axes md local_ind i Hinv Hwf Hfit Hlen Hi)
        as (m & l & Hm & Hl & Hwfm & Hfitm).
      destruct (axis_global_spec md local_ind i m l Hwfm Hfitm Hm Hl)
        as [Hin _].
      destruct (Hin (Hrange i m l Hm Hl)) as (g & Hg & Hgfl & _).
      exists g. split; [exact Hg|].
      intros i' m' l' Heq Hm' Hl'. assert (i' = i) as -> by lia.
      rewrite Hm in Hm'. injection Hm' as <-.
      rewrite Hl in Hl'. injection Hl' as <-. exact Hgfl. }
    exists gs. split; [exact Hgs|]. split.
    + apply Forall2_length in HF. rewrite length_seqZ in HF. lia.
    + intros i m l g Hm Hl Hg.
      pose proof (lookup_lt_Some _ _ _ Hm) as Hi. fold N in Hi.
      assert (Hx : seqZ 0 (Z.of_nat N) !! i = Some (Z.of_nat i)).
      { rewrite lookup_seqZ_lt by lia. f_equal; lia. }
      exact (Forall2_lookup_lr _ _ _ _ _ _ HF Hx Hg i m l eq_refl Hm Hl).
  - intros (i & m & l & Hm & Hl & Hout).
    apply traverse_one_error.
    + intros x Hx. apply seqZ_of_nat_elem in Hx as (i' & -> & Hi').
      destruct (MDMap_axes md local_ind i' Hinv Hwf Hfit Hlen Hi')
        as (m' & l' & Hm' & Hl' & Hwfm' & Hfitm').
      destruct (axis_global_spec md local_ind i' m' l' Hwfm' Hfitm' Hm' Hl')
        as [Hin' Hout'].
      destruct (decide (- Z.max 0 (local_size m') <= l'
                        < Z.max 0 (local_size m'))) as [Hr|Hr].
      * left. destruct (Hin' Hr) as (g & Hg & _). exists g. exact Hg.
      * right. apply Hout'. lia.
    + pose proof (lookup_lt_Some _ _ _ Hm) as Hi. fold N in Hi.
      exists (Z.of_nat i). split; [apply elem_of_seqZ; lia|].
      assert (Hwfm : well_formed m).
      { eapply Forall_lookup_1; eassumption. }
      assert (Hfitm : int32_indices m).
      { eapply Forall_lookup_1; eassumption. }
      destruct (axis_global_spec md local_ind i m l Hwfm Hfitm Hm Hl)
        as [_ Ho].
      apply Ho. exact Hout.
Qed.

(** X10. The two translations of an [MDMap] of well-formed maps whose
    indices fit the 32-bit buffer undo each other: if [global_from_local]
    turns local indices that all lie in [0..local_size) into [gs], then
    [local_from_global] turns [gs] back into them; and if
    [local_from_global] turns [gs] into [ls], then [global_from_local]
    turns [ls] back into [gs]. *)
Theorem MDMap_translations_inverse (md : MDMap.t) (ls gs : list Z) :
  MDMap_invariant md ->
  Forall well_formed (MDMap.maps md) ->
  Forall int32_indices (MDMap.maps md) ->
  (length ls = length (MDMap.maps md) ->
   (forall (i : nat) m l,
      MDMap.maps md !! i = Some m -> ls !! i = Some l ->
      0 <= l < local_size m) ->
   MDMap.global_from_local md ls = OK gs ->
   MDMap.local_from_global md gs = OK ls) /\
  (length gs = length (MDMap.maps md) ->
   MDMap.local_from_global md gs = OK ls ->
   MDMap.global_from_local md ls = OK gs).
Proof.
  intros Hinv Hwf Hfit.
  rewrite MDMap_global_from_local_unfold, MDMap_local_from_global_unfold.
  pose proof Hinv as Hndim. unfold MDMap_invariant in Hndim.
  rewrite Hndim. unfold range1.
  set (N := length (MDMap.maps md)) in *.
  rewrite !traverse_range_OK_iff. split.
  - intros Hlen Hrange [Hlg Hgs]. split; [exact Hlen|].
    intros i l Hl.
    pose proof (lookup_lt_Some _ _ _ Hl) as Hi.
    destruct (MDMap_axes md ls i Hinv Hwf Hfit Hlen ltac:(lia))
      as (m & l' & Hm & Hl' & Hwfm & Hfitm).
    rewrite Hl in Hl'. injection Hl' as <-.
    destruct (lookup_lt_is_Some_2 gs i) as [g Hg]; [lia|].
    specialize (Hgs i g Hg).
    pose proof (Hrange i m l Hm Hl) as Hr.
    destruct (axis_global_spec md ls i m l Hwfm Hfitm Hm Hl) as [Hin _].
    destruct Hin as (g' & Hg' & _ & Hlfg); [lia|].
    rewrite Hgs in Hg'. injection Hg' as <-.
    destruct (decide (l < 0)); [lia|].
    destruct (axis_local_spec md gs i m g Hwfm Hfitm Hm Hg)
      as (gi & Hgi & Hown & Hnot).
    destruct (decide (g ∈ gi)) as [Hmem|Hmem].
    + destruct (Hown Hmem) as (l' & Hax & Hlfg' & _).
      rewrite Hlfg in Hlfg'. injection Hlfg' as <-. exact Hax.
    + exfalso.
      destruct (local_index_spec m Hwfm Hfitm)
        as (gi' & d & Hgi' & _ & Hspec).
      rewrite Hgi in Hgi'. injection Hgi' as <-.
      destruct (well_formed_positions m Hwfm Hfitm)
        as (gi' & Hgi' & _ & _ & Hlen' & Hpos).
      rewrite Hgi in Hgi'. injection Hgi' as <-.
      destruct (lookup_lt_is_Some_2 gi (Z.to_nat l)) as [g0 Hg0]; [lia|].
      destruct (Hpos _ _ Hg0) as [_ Hgfl0].
      rewrite Z2Nat.id in Hgfl0 by lia.
      unfold axis_global in Hgs.
      rewrite (list_getitem_lookup _ _ _ Hm) in Hgs. cbn [bind] in Hgs.
      rewrite Hgi in Hgs. cbn [bind] in Hgs.
      rewrite (list_getitem_lookup _ _ _ Hl) in Hgs. cbn [bind] in Hgs.
      destruct (list_getitem_nonneg gi l) as (g1 & Hg1 & Hget); [lia|].
      rewrite Hget in Hgs. injection Hgs as ->.
      apply Hmem. eapply list_elem_of_lookup_2. exact Hg1.
  - intros Hlen [Hll Hls]. split; [exact Hlen|].
    intros i g Hg.
    pose proof (lookup_lt_Some _ _ _ Hg) as Hi.
    destruct (MDMap_axes md gs i Hinv Hwf Hfit Hlen ltac:(lia))
      as (m & g' & Hm & Hg' & Hwfm & Hfitm).
    rewrite Hg in Hg'. injection Hg' as <-.
    destruct (lookup_lt_is_Some_2 ls i) as [l Hl]; [lia|].
    specialize (Hls i l Hl).
    destruct (axis_local_spec md gs i m g Hwfm Hfitm Hm Hg)
      as (gi & Hgi & Hown & Hnot).
    destruct (decide (g ∈ gi)) as [Hmem|Hmem].
    2:{ rewrite (Hnot Hmem) in Hls. discriminate. }
    destruct (Hown Hmem) as (l' & Hax & Hlfg & Hr).
    rewrite Hls in Hax. injection Hax as <-.
    destruct (well_formed_positions m Hwfm Hfitm)
      as (gi' & Hgi' & _ & _ & Hlen' & Hpos).
    rewrite Hgi in Hgi'. injection Hgi' as <-.
    apply list_elem_of_lookup_1 in Hmem as [j Hj].
    destruct (Hpos _ _ Hj) as [Hlfgj _].
    rewrite Hlfg in Hlfgj. injection Hlfgj as ->.
    unfold axis_global.
    rewrite (list_getitem_lookup _ _ _ Hm). cbn [bind].
    rewrite Hgi. cbn [bind].
    rewrite (list_getitem_lookup _ _ _ Hl). cbn [bind].
    apply list_getitem_lookup. exact Hj.
Qed.

(** X11. [MDMap.local_shape] of well-formed maps whose indices fit the
    32-bit buffer is the tuple of their local sizes, a negative local size
    counting as zero. *)
Theorem MDMap_local_shape_spec (md : MDMap.t) :
  Forall well_formed (MDMap.maps md) ->
  Forall int32_indices (MDMap.maps md) ->
  MDMap.local_shape md
  = OK ((fun m => Z.max 0 (local_size m)) <$> MDMap.maps md).
Proof.
  intros Hwf Hfit. unfold MDMap.local_shape. apply traverse_fmap.
  intros m Hm. rewrite Forall_forall in Hwf, Hfit.
  destruct (well_formed_positions m (Hwf m Hm) (Hfit m Hm))
    as (gs & Hgi & _ & _ & Hlen & _).
  rewrite size_unfold, Hgi. cbn [bind]. rewrite Hlen. reflexivity.
Qed.

(** ** The factory *)

Lemma map_from_dim_dict_inv (dd : DimDict.t) (m : AxisMap) :
  map_from_dim_dict dd = OK m ->
  exists t n,
    DimDict.dist_type dd = Some t /\ DimDict.size dd = Some n /\
    let r := DimDict.get (DimDict.proc_grid_rank dd) 0 in
    let p := DimDict.get (DimDict.proc_grid_size dd) 1 in
    let b := DimDict.get (DimDict.block_size dd) 1 in
    (t = "n" /\ exists bm,
       m = Block bm /\ BlockMap.init n p r (Some 0) (Some n) = OK bm) \/
    (t = "b" /\ exists bm,
       m = Block bm /\
       BlockMap.init n p r (DimDict.start dd) (DimDict.stop dd) = OK bm) \/
    (t = "c" /\ b = 1 /\ exists cm,
       m = Cyclic cm /\ CyclicMap.init n p r (DimDict.start dd) = OK cm) \/
    (t = "c" /\ b > 1 /\ exists bc,
       m = BlockCyclic bc /\
       BlockCyclicMap.init n p r (DimDict.start dd) b = OK bc) \/
    (t = "u" /\ exists um,
       m = Unstructured um /\
       UnstructuredMap.init n p r (DimDict.indices dd) = OK um).
Proof.
  unfold map_from_dim_dict. intros H.
  destruct (DimDict.dist_type dd) as [t|]; [|discriminate].
  destruct (DimDict.size dd) as [n|]; [|discriminate].
  cbn [DimDict.getitem bind] in H.
  exists t, n. split; [reflexivity|]. split; [reflexivity|]. cbn zeta.
  destruct (decide (t = "n")) as [->|Hn].
  { apply bind_OK in H as (bm & Hbm & [= <-]). left. eauto. }
  destruct (decide (t = "b")) as [->|Hb].
  { apply bind_OK in H as (bm & Hbm & [= <-]). right. left. eauto. }
  destruct (decide (t = "c" /\ _ = 1)) as [[-> Hb1]|Hc1].
  { apply bind_OK in H as (cm & Hcm & [= <-]). right. right. left. eauto. }
  destruct (decide (t = "c" /\ _ > 1)) as [[-> Hbs]|Hc2].
  { apply bind_OK in H as (bc & Hbc & [= <-]).
    right. right. right. left. eauto. }
  destruct (decide (t = "u")) as [->|Hu]; [|discriminate].
  apply bind_OK in H as (um & Hum & [= <-]). do 4 right. eauto.
Qed.

Lemma map_from_dim_dict_constructed (dd : DimDict.t) (m : AxisMap) :
  map_from_dim_dict dd = OK m -> constructed m.
Proof.
  intros H. apply map_from_dim_dict_inv in H as (t & n & _ & _ & H).
  cbn zeta in H.
  destruct H as [(_ & bm & -> & H)|[(_ & bm & -> & H)|[(_ & _ & cm & -> & H)|
    [(_ & _ & bc & -> & H)|(_ & um & -> & H)]]]]; cbn; eauto 10.
Qed.

(** X12. What the factory rejects.  A descriptor without ['dist_type'],
    or with it but without ['size'], raises [KeyError]; a ['dist_type']
    other than ['n'], ['b'], ['c'], ['u'] raises [ValueError]; and so does
    ['c'] with a ['block_size'] below 1, which is neither the cyclic nor the
    block-cyclic case. *)
Theorem map_from_dim_dict_rejects (dd : DimDict.t) :
  (DimDict.dist_type dd = None ->
   map_from_dim_dict dd = Raise KeyError) /\
  (DimDict.size dd = None ->
   map_from_dim_dict dd = Raise KeyError) /\
  (forall t n,
     DimDict.dist_type dd = Some t -> DimDict.size dd = Some n ->
     t <> "n" -> t <> "b" -> t <> "c" -> t <> "u" ->
     map_from_dim_dict dd = Raise ValueError) /\
  (forall n,
     DimDict.dist_type dd = Some "c" -> DimDict.size dd = Some n ->
     DimDict.get (DimDict.block_size dd) 1 < 1 ->
     map_from_dim_dict dd = Raise ValueError).
Proof.
  unfold map_from_dim_dict. split; [|split; [|split]].
  - intros ->. reflexivity.
  - intros ->. destruct (DimDict.dist_type dd); reflexivity.
  - intros t n -> -> Hn Hb Hc Hu. cbn [DimDict.getitem bind].
    destruct (decide (t = "n")); [contradiction|].
    destruct (decide (t = "b")); [contradiction|].
    destruct (decide (t = "c" /\ _ = 1)) as [[? _]|_]; [contradiction|].
    destruct (decide (t = "c" /\ _ > 1)) as [[? _]|_]; [contradiction|].
    destruct (decide (t = "u")); [contradiction | reflexivity].
  - intros n -> -> Hbs. cbn [DimDict.getitem bind].
    destruct (decide ("c" = "n")); [discriminate|].
    destruct (decide ("c" = "b")); [discriminate|].
    destruct (decide ("c" = "c" /\ _ = 1)) as [[_ ?]|_]; [lia|].
    destruct (decide ("c" = "c" /\ _ > 1)) as [[_ ?]|_]; [lia|].
    destruct (decide ("c" = "u")); [discriminate | reflexivity].
Qed.

(** X13. A map the factory builds translates there and back: if
    [map_from_dim_dict] accepts a descriptor whose ['indices'], when
    present, have no duplicate, then for every local index [l] of
    [0..local_size) the map's [global_from_local l] returns a global index
    that its [local_from_global] turns back into [l]. *)
Theorem factory_map_bijection (dd : DimDict.t) (m : AxisMap) (l : Z) :
  map_from_dim_dict dd = OK m ->
  (forall idx, DimDict.indices dd = Some idx -> NoDup idx) ->
  0 <= l < local_size m ->
  exists g, global_from_local m l = OK g /\ local_from_global m g = OK l.
Proof.
  intros Hdd Hnd Hl.
  pose proof (map_from_dim_dict_constructed dd m Hdd) as Hc.
  apply map_from_dim_dict_inv in Hdd as (t & n & _ & _ & H). cbn zeta in H.
  destruct H as [(_ & bm & -> & H)|[(_ & bm & -> & H)|[(_ & _ & cm & -> & H)|
    [(_ & _ & bc & -> & H)|(_ & um & -> & H)]]]]; cbn [local_size] in Hl.
  - destruct (BlockMap_there_and_back bm l Hc Hl). eauto.
  - destruct (BlockMap_there_and_back bm l Hc Hl). eauto.
  - destruct (CyclicMap_there_and_back cm l Hc); [lia|]. eauto.
  - destruct (BlockCyclicMap_there_and_back bc l Hc); [lia|]. eauto.
  - assert (Hv : valid_parameters (Unstructured um)).
    { split; [exact Hc|].
      apply UnstructuredMap_init_inv in H as (xs & Hxs & Hidx & _).
      rewrite Hidx. apply Hnd. exact Hxs. }
    destruct (UnstructuredMap_there_and_back um l Hv Hl) as (g & _ & ? & ?).
    eauto.
Qed.

(** X14. The not-distributed axis.  For ['dist_type'] ['n'] and ['size']
    [n] the factory builds a block map over the whole range, whatever else
    the descriptor holds: its owned indices are [range(n)], a global index
    of [0..n) is its own local index, any other global index raises
    [IndexError], a local index below [n] is its own global index, negative
    ones included, and the descriptor the map produces has ['dist_type']
    ['b'] with ['start'] 0 and ['stop'] [n]. *)
Theorem not_distributed_axis (dd : DimDict.t) (n : Z) :
  DimDict.dist_type dd = Some "n" -> DimDict.size dd = Some n ->
  exists bm dd',
    map_from_dim_dict dd = OK (Block bm) /\
    global_index (Block bm) = OK (range1 n) /\
    (forall g, 0 <= g < n -> local_from_global (Block bm) g = OK g) /\
    (forall g, g < 0 \/ n <= g ->
       local_from_global (Block bm) g = Raise IndexError) /\
    (forall l, l < n -> global_from_local (Block bm) l = OK l) /\
    (forall l, n <= l -> global_from_local (Block bm) l = Raise IndexError) /\
    dim_dict (Block bm) = OK dd' /\
    DimDict.dist_type dd' = Some "b" /\
    DimDict.size dd' = Some n /\
    DimDict.start dd' = Some 0 /\ DimDict.stop dd' = Some n.
Proof.
  intros Ht Hn. unfold map_from_dim_dict. rewrite Ht, Hn.
  cbn [DimDict.getitem bind].
  destruct (decide ("n" = "n")); [|contradiction].
  cbn [BlockMap.init bind].
  eexists _, _. split; [reflexivity|].
  cbn [global_index local_from_global global_from_local dim_dict].
  unfold BlockMap.global_index, BlockMap.local_from_global,
    BlockMap.global_from_local, BlockMap.dim_dict, range1, range2.
  cbn [BlockMap.start BlockMap.stop BlockMap.local_size
       BlockMap.global_size BlockMap.grid_rank BlockMap.grid_size].
  split; [rewrite Z.sub_0_r; reflexivity|].
  split.
  { intros g Hg. destruct (decide (g < 0 \/ g >= n)); [lia|].
    f_equal; lia. }
  split.
  { intros g Hg. destruct (decide (g < 0 \/ g >= n)); [reflexivity | lia]. }
  split.
  { intros l Hl. destruct (decide (l >= n - 0)); [lia|]. f_equal; lia. }
  split.
  { intros l Hl. destruct (decide (l >= n - 0)); [reflexivity | lia]. }
  split; [reflexivity|]. cbn. auto.
Qed.

(** X15. The round trip through the descriptor, class by class: for a
    constructed block, cyclic or unstructured map,
    [map_from_dim_dict(m.dim_dict)] returns a map equal to [m]; for every
    constructed block-cyclic map it raises [AttributeError]. *)
Theorem round_trip_by_class (m : AxisMap) :
  constructed m ->
  match m with
  | BlockCyclic _ => round_trip m = Raise AttributeError
  | _ => round_trip m = OK m
  end.
Proof.
  intros Hc. destruct m as [m|m|m|m].
  - apply BlockMap_round_trip, Hc.
  - apply CyclicMap_round_trip, Hc.
  - apply BlockCyclicMap_dim_dict_raises, Hc.
  - apply UnstructuredMap_round_trip, Hc.
Qed.

(** ** Duplicate indices *)

Lemma list_index_first (xs : list Z) (i : nat) (x : Z) :
  xs !! i = Some x ->
  (forall k : nat, (k < i)%nat -> xs !! k <> Some x) ->
  list_index xs x = OK (Z.of_nat i).
Proof.
  revert i. induction xs as [|y ys IH]; intros i Hi Hfirst.
  - discriminate.
  - destruct i as [|i]; simpl in *.
    + injection Hi as ->. destruct (decide (x = x)); [reflexivity|congruence].
    + destruct (decide (y = x)) as [->|Hne].
      * exfalso. apply (Hfirst 0%nat); [lia | reflexivity].
      * rewrite (IH i Hi).
        -- simpl. f_equal. lia.
        -- intros k Hk. apply (Hfirst (S k)). lia.
Qed.

Lemma foldl_insert_last (kvs : list (Z * Z)) (d : gmap Z Z) (i : nat)
    (k v : Z) :
  kvs !! i = Some (k, v) ->
  (forall (j : nat) v', (i < j)%nat -> kvs !! j <> Some (k, v')) ->
  foldl (fun d kv => <[kv.1 := kv.2]> d) d kvs !! k = Some v.
Proof.
  revert d i. induction kvs as [|[k0 v0] kvs IH]; intros d i Hi Hlast.
  - discriminate.
  - destruct i as [|i]; simpl in *.
    + injection Hi as -> ->. rewrite foldl_insert_fresh.
      * apply lookup_insert_eq.
      * intros v' Hv'. apply list_elem_of_lookup_1 in Hv' as [j Hj].
        apply (Hlast (S j) v'); [lia | exact Hj].
    + apply (IH _ i); [exact Hi|].
      intros j v' Hj. apply (Hlast (S j) v'). lia.
Qed.

(** X16. Duplicate indices in an unstructured map.  The constructor
    accepts any index list; for a global index [g] that occurs in it,
    [local_from_global g] returns the first position of [g] while the
    [local_index] dictionary holds its last position, so the two lookups
    differ exactly for the indices that occur more than once. *)
Theorem unstructured_first_and_last (n p r : Z) (idx : list Z)
    (m : UnstructuredMap.t) (g : Z) (first last : nat) :
  UnstructuredMap.init n p r (Some idx) = OK m ->
  idx !! first = Some g ->
  (forall k : nat, (k < first)%nat -> idx !! k <> Some g) ->
  idx !! last = Some g ->
  (forall k : nat, (last < k)%nat -> idx !! k <> Some g) ->
  UnstructuredMap.local_from_global m g = OK (Z.of_nat first) /\
  exists d,
    UnstructuredMap.local_index m = OK d /\ d !! g = Some (Z.of_nat last).
Proof.
  intros Hm Hf Hfirst Hl Hlast.
  rewrite UnstructuredMap_init_OK in Hm. injection Hm as <-.
  unfold UnstructuredMap.local_from_global, UnstructuredMap.local_index.
  cbn [UnstructuredMap.indices UnstructuredMap._local_index].
  split.
  - rewrite (list_index_first idx first g Hf Hfirst). reflexivity.
  - eexists. split; [reflexivity|].
    unfold dict_zip, range1.
    pose proof (lookup_lt_Some _ _ _ Hl) as Hlt.
    apply (foldl_insert_last _ _ last).
    + apply lookup_zip_Some. split; [exact Hl|].
      rewrite lookup_seqZ_lt by lia. f_equal; lia.
    + intros j v' Hj Hz. apply lookup_zip_Some in Hz as [Hz _].
      exact (Hlast j Hj Hz).
Qed.

(** ** Normalising an index *)

Lemma lookup_enumerate {A : Type} (xs : list A) (d : nat) (k : Z) (x : A) :
  enumerate xs !! d = Some (k, x) <-> k = Z.of_nat d /\ xs !! d = Some x.
Proof.
  unfold enumerate. rewrite lookup_zip_Some, lookup_seqZ. split.
  - intros [[-> _] Hx]. split; [lia | exact Hx].
  - intros [-> Hx]. pose proof (lookup_lt_Some _ _ _ Hx).
    split; [split; lia | exact Hx].
Qed.

Lemma length_enumerate {A : Type} (xs : list A) :
  length (enumerate xs) = length xs.
Proof.
  unfold enumerate. rewrite length_zip, length_seqZ. lia.
Qed.

(** A traversal of [enumerate(xs)] is determined position by position. *)
Lemma traverse_enumerate_OK_iff {A B : Type} (f : Z * A -> result B)
    (xs : list A) (ys : list B) :
  traverse f (enumerate xs) = OK ys <->
  length ys = length xs /\
  forall (d : nat) x y,
    xs !! d = Some x -> ys !! d = Some y -> f (Z.of_nat d, x) = OK y.
Proof.
  rewrite traverse_OK_iff, Forall2_same_length_lookup, length_enumerate.
  split.
  - intros [Hlen H]. split; [lia|].
    intros d x y Hx Hy. apply (H d); [|exact Hy].
    apply lookup_enumerate. auto.
  - intros [Hlen H]. split; [lia|].
    intros d [k x] y Hx Hy. apply lookup_enumerate in Hx as [-> Hx].
    apply (H d); assumption.
Qed.

Lemma traverse_OK_or {A B : Type} (f : A -> result B) (e : exn)
    (xs : list A) :
  (forall x, x ∈ xs -> is_ok (f x) \/ f x = Raise e) ->
  is_ok (traverse f xs) \/ traverse f xs = Raise e.
Proof.
  induction xs as [|x xs IH]; intros Hall; simpl.
  - left. eexists. reflexivity.
  - destruct (Hall x) as [[y Hy]|Hy]; [apply list_elem_of_here| |].
    + rewrite Hy. cbn [bind]. destruct IH as [[ys Hys]|Hys].
      * intros x' Hx'. apply Hall, list_elem_of_further, Hx'.
      * left. rewrite Hys. eexists. reflexivity.
      * right. rewrite Hys. reflexivity.
    + right. rewrite Hy. reflexivity.
Qed.

Lemma list_getitem_OK_or {A : Type} (xs : list A) (i : Z) :
  is_ok (list_getitem xs i) \/ list_getitem xs i = Raise IndexError.
Proof.
  unfold list_getitem.
  destruct (decide (0 <= _ < _)); [|right; reflexivity].
  destruct (xs !! _); [left; eexists; reflexivity | right; reflexivity].
Qed.

Lemma list_getitem_of_nat_inv {A : Type} (xs : list A) (d : nat) (x : A) :
  list_getitem xs (Z.of_nat d) = OK x -> xs !! d = Some x.
Proof.
  unfold list_getitem.
  destruct (decide (Z.of_nat d < 0)); [lia|].
  destruct (decide (0 <= Z.of_nat d < Z.of_nat (length xs)));
    [|discriminate].
  rewrite Nat2Z.id. destruct (xs !! d); [|discriminate].
  intros [= <-]. reflexivity.
Qed.

Lemma normalize_index_only_IndexError (shape : list Z) (index : index_arg) :
  is_ok (DistArray._normalize_index shape index) \/
  DistArray._normalize_index shape index = Raise IndexError.
Proof.
  unfold DistArray._normalize_index, DistArray.positivify,
    DistArray.check_bounds.
  destruct (traverse_OK_or
    (fun di : Z * Z =>
       if decide (di.2 >= 0) then OK di.2
       else let* s := list_getitem shape di.1 in OK (s + di.2))
    IndexError (enumerate (DistArray.coerce index))) as [[out Hout]|Hout].
  - intros [d i] _. cbn. destruct (decide (i >= 0)).
    + left. eexists. reflexivity.
    + destruct (list_getitem_OK_or shape d) as [[s Hs]|Hs]; rewrite Hs.
      * left. eexists. reflexivity.
      * right. reflexivity.
  - rewrite Hout. cbn [bind].
    destruct (traverse_OK_or
      (fun di : Z * Z =>
         let* s := list_getitem shape di.1 in
         if decide (di.2 >= s \/ di.2 < 0) then Raise IndexError else OK tt)
      IndexError (enumerate out)) as [[chk Hchk]|Hchk].
    + intros [d i] _. cbn.
      destruct (list_getitem_OK_or shape d) as [[s Hs]|Hs]; rewrite Hs.
      * cbn [bind]. destruct (decide (i >= s \/ i < 0)).
        -- right. reflexivity.
        -- left. eexists. reflexivity.
      * right. reflexivity.
    + rewrite Hchk. left. eexists. reflexivity.
    + rewrite Hchk. right. reflexivity.
  - rewrite Hout. right. reflexivity.
Qed.

Lemma normalize_index_OK_iff (shape : list Z) (index : index_arg)
    (out : list Z) :
  DistArray._normalize_index shape index = OK out <->
  length out = length (DistArray.coerce index) /\
  forall (d : nat) i,
    DistArray.coerce index !! d = Some i ->
    exists s,
      shape !! d = Some s /\ - s <= i < s /\
      out !! d = Some (if decide (i >= 0) then i else s + i).
Proof.
  unfold DistArray._normalize_index, DistArray.positivify,
    DistArray.check_bounds.
  set (idx := DistArray.coerce index). split.
  - intros H. apply bind_OK in H as (out1 & H1 & H).
    apply bind_OK in H as (chk & H2 & [= <-]).
    apply traverse_enumerate_OK_iff in H1 as [Hlen1 H1].
    apply traverse_enumerate_OK_iff in H2 as [Hlen2 H2].
    split; [exact Hlen1|].
    intros d i Hi.
    pose proof (lookup_lt_Some _ _ _ Hi) as Hd.
    destruct (lookup_lt_is_Some_2 out1 d) as [o Ho]; [lia|].
    destruct (lookup_lt_is_Some_2 chk d) as [u Hu]; [lia|].
    specialize (H1 d i o Hi Ho). specialize (H2 d o u Ho Hu).
    cbn in H1, H2.
    apply bind_OK in H2 as (s & Hs & H2).
    destruct (decide (o >= s \/ o < 0)); [discriminate|].
    exists s. split; [apply list_getitem_of_nat_inv; exact Hs|].
    destruct (decide (i >= 0)).
    + injection H1 as <-. split; [lia | exact Ho].
    + rewrite Hs in H1. cbn [bind] in H1. injection H1 as <-.
      split; [lia | exact Ho].
  - intros [Hlen H].
    assert (H1 : traverse
      (fun di : Z * Z =>
         if decide (di.2 >= 0) then OK di.2
         else let* s := list_getitem shape di.1 in OK (s + di.2))
      (enumerate idx) = OK out).
    { apply traverse_enumerate_OK_iff. split; [exact Hlen|].
      intros d i o Hi Ho. destruct (H d i Hi) as (s & Hs & Hr & Ho').
      rewrite Ho in Ho'. injection Ho' as ->. cbn.
      destruct (decide (i >= 0)); [reflexivity|].
      rewrite (list_getitem_lookup _ _ _ Hs). reflexivity. }
    rewrite H1. cbn [bind].
    assert (H2 : traverse
      (fun di : Z * Z =>
         let* s := list_getitem shape di.1 in
         if decide (di.2 >= s \/ di.2 < 0) then Raise IndexError else OK tt)
      (enumerate out) = OK (replicate (length out) tt)).
    { apply traverse_enumerate_OK_iff.
      split; [apply length_replicate|].
      intros d o u Ho Hu. apply lookup_replicate in Hu as [-> _].
      pose proof (lookup_lt_Some _ _ _ Ho) as Hd.
      destruct (lookup_lt_is_Some_2 idx d) as [i Hi]; [lia|].
      destruct (H d i Hi) as (s & Hs & Hr & Ho').
      rewrite Ho in Ho'. injection Ho' as ->. cbn.
      rewrite (list_getitem_lookup _ _ _ Hs). cbn [bind].
      destruct (decide (i >= 0));
        (destruct (decide (_ >= s \/ _ < 0)); [lia | reflexivity]). }
    rewrite H2. reflexivity.
Qed.

(** X17. [DistArray._normalize_index] on an integer, list or tuple index
    with integer components.  It returns a tuple exactly when the index
    has no more components than the shape has dimensions and each
    component [i] satisfies [-shape[dim] <= i < shape[dim]]; the tuple then
    holds [i] for [i >= 0] and [shape[dim] + i] for negative [i], each
    inside [0..shape[dim]).  In every other case the call raises
    [IndexError], and no other exception. *)
Theorem normalize_index_spec (shape : list Z) (index : index_arg) :
  (forall out,
     DistArray._normalize_index shape index = OK out <->
     length out = length (DistArray.coerce index) /\
     forall (d : nat) i,
       DistArray.coerce index !! d = Some i ->
       exists s,
         shape !! d = Some s /\ - s <= i < s /\
         out !! d = Some (if decide (i >= 0) then i else s + i)) /\
  (forall out (d : nat) o s,
     DistArray._normalize_index shape index = OK out ->
     out !! d = Some o -> shape !! d = Some s -> 0 <= o < s) /\
  (is_ok (DistArray._normalize_index shape index) \/
   DistArray._normalize_index shape index = Raise IndexError) /\
  ((length shape < length (DistArray.coerce index))%nat ->
   DistArray._normalize_index shape index = Raise IndexError).
Proof.
  split; [|split; [|split]].
  - intros out. apply normalize_index_OK_iff.
  - intros out d o s H Ho Hs.
    apply normalize_index_OK_iff in H as [Hlen H].
    pose proof (lookup_lt_Some _ _ _ Ho) as Hd.
    destruct (lookup_lt_is_Some_2 (DistArray.coerce index) d) as [i Hi];
      [lia|].
    destruct (H d i Hi) as (s' & Hs' & Hr & Ho').
    rewrite Hs in Hs'. injection Hs' as <-.
    rewrite Ho in Ho'. injection Ho' as ->.
    destruct (decide (i >= 0)); lia.
  - apply normalize_index_only_IndexError.
  - intros Hlong.
    destruct (normalize_index_only_IndexError shape index)
      as [[out Hout]|Hout]; [|exact Hout].
    exfalso. apply normalize_index_OK_iff in Hout as [Hlen H].
    destruct (lookup_lt_is_Some_2 (DistArray.coerce index) (length shape))
      as [i Hi]; [lia|].
    destruct (H _ i Hi) as (s & Hs & _).
    apply lookup_lt_Some in Hs. lia.
Qed.

(** X18. Normalising twice is normalising once: the tuple
    [_normalize_index] returns is accepted unchanged when it is given back
    as the index. *)
Theorem normalize_index_idempotent (shape : list Z) (index : index_arg)
    (out : list Z) :
  DistArray._normalize_index shape index = OK out ->
  DistArray._normalize_index shape (IndexTuple out) = OK out.
Proof.
  intros H. pose proof H as H0.
  apply normalize_index_OK_iff in H as [Hlen H].
  apply normalize_index_OK_iff. cbn [DistArray.coerce].
  split; [reflexivity|].
  intros d o Ho.
  pose proof (lookup_lt_Some _ _ _ Ho) as Hd.
  destruct (lookup_lt_is_Some_2 (DistArray.coerce index) d) as [i Hi];
    [lia|].
  destruct (H d i Hi) as (s & Hs & Hr & Ho').
  rewrite Ho in Ho'. injection Ho' as ->.
  exists s. split; [exact Hs|].
  destruct (decide (i >= 0)) as [Hi0|Hi0].
  - split; [lia|]. destruct (decide (i >= 0)); [exact Ho | lia].
  - split; [lia|]. destruct (decide (s + i >= 0)); [exact Ho | lia].
Qed.

(** ** Further statements at concrete maps *)

Lemma cyclic_16_4_2_well_formed : well_formed (Cyclic cyclic_16_4_2).
Proof.
  split; [split; [apply cyclic_16_4_2_constructed | exact I] |].
  simpl. lia.
Defined.

Lemma block_10_0_5_well_formed : well_formed (Block block_10_0_5).
Proof.
  split; [split; [apply block_10_0_5_constructed | exact I] | exact I].
Defined.

Lemma block_10_0_5_not_owns_7 : ~ owns (Block block_10_0_5) 7.
Proof.
  intros (gs & Hgs & Hin). vm_compute in Hgs. injection Hgs as <-.
  rewrite !elem_of_cons, elem_of_nil in Hin. lia.
Defined.

Lemma block_cyclic_16_4_1_well_formed :
  well_formed (BlockCyclic block_cyclic_16_4_1).
Proof.
  split; [split; [|exact I] | simpl; lia].
  exists 16, 4, 1, (Some 2), 2. reflexivity.
Defined.

Lemma block_cyclic_16_4_1_int32 :
  int32_indices (BlockCyclic block_cyclic_16_4_1).
Proof.
  intros l g Hl Hg. cbn in Hl.
  assert (l = 0 \/ l = 1 \/ l = 2 \/ l = 3) as [-> | [-> | [-> | ->]]] by lia;
    vm_compute in Hg; injection Hg as <-; lia.
Defined.

Lemma block_cyclic_16_4_1_owns_10 : owns (BlockCyclic block_cyclic_16_4_1) 10.
Proof.
  exists [2; 3; 10; 11]. split; [reflexivity|].
  do 2 apply list_elem_of_further. apply list_elem_of_here.
Defined.

Lemma mdmap_two_cyclic_well_formed :
  Forall well_formed (MDMap.maps mdmap_two_cyclic).
Proof.
  constructor; [|constructor; [|constructor]].
  - exact block_cyclic_16_4_1_well_formed.
  - exact cyclic_16_4_2_well_formed.
Defined.

Lemma mdmap_two_cyclic_int32 :
  Forall int32_indices (MDMap.maps mdmap_two_cyclic).
Proof.
  constructor; [|constructor; [|constructor]].
  - exact block_cyclic_16_4_1_int32.
  - exact I.
Defined.

Lemma size_is_local_size_witness :
  well_formed (BlockCyclic block_cyclic_16_4_1) /\
  int32_indices (BlockCyclic block_cyclic_16_4_1) /\
  size (BlockCyclic block_cyclic_16_4_1)
  = OK (Z.max 0 (local_size (BlockCyclic block_cyclic_16_4_1))).
Proof.
  split; [exact block_cyclic_16_4_1_well_formed|].
  split; [exact block_cyclic_16_4_1_int32|].
  exact (size_is_local_size _ block_cyclic_16_4_1_well_formed
           block_cyclic_16_4_1_int32).
Defined.

Lemma global_from_local_local_from_global_witness :
  well_formed (BlockCyclic block_cyclic_16_4_1) /\
  int32_indices (BlockCyclic block_cyclic_16_4_1) /\
  owns (BlockCyclic block_cyclic_16_4_1) 10 /\
  exists l,
    local_from_global (BlockCyclic block_cyclic_16_4_1) 10 = OK l /\
    0 <= l < local_size (BlockCyclic block_cyclic_16_4_1) /\
    global_from_local (BlockCyclic block_cyclic_16_4_1) l = OK 10.
Proof.
  split; [exact block_cyclic_16_4_1_well_formed|].
  split; [exact block_cyclic_16_4_1_int32|].
  split; [exact block_cyclic_16_4_1_owns_10|].
  exact (global_from_local_local_from_global _ 10
           block_cyclic_16_4_1_well_formed block_cyclic_16_4_1_int32
           block_cyclic_16_4_1_owns_10).
Defined.

Lemma global_from_local_upper_bound_witness :
  constructed (Cyclic cyclic_16_4_2) /\
  local_size (Cyclic cyclic_16_4_2) <= 4 /\
  global_from_local (Cyclic cyclic_16_4_2) 4 = Raise IndexError.
Proof.
  assert (Hl : local_size (Cyclic cyclic_16_4_2) <= 4) by (simpl; lia).
  split; [exact cyclic_16_4_2_constructed|]. split; [exact Hl|].
  exact (global_from_local_upper_bound _ 4 cyclic_16_4_2_constructed Hl).
Defined.

Lemma local_index_agrees_with_local_from_global_witness :
  well_formed (BlockCyclic block_cyclic_16_4_1) /\
  int32_indices (BlockCyclic block_cyclic_16_4_1) /\
  exists gs d,
    global_index (BlockCyclic block_cyclic_16_4_1) = OK gs /\
    local_index (BlockCyclic block_cyclic_16_4_1) = OK d /\
    forall g,
      (g ∉ gs -> d !! g = None) /\
      (g ∈ gs -> exists l, d !! g = Some l /\
         local_from_global (BlockCyclic block_cyclic_16_4_1) g = OK l /\
         0 <= l < local_size (BlockCyclic block_cyclic_16_4_1)).
Proof.
  split; [exact block_cyclic_16_4_1_well_formed|].
  split; [exact block_cyclic_16_4_1_int32|].
  exact (local_index_agrees_with_local_from_global _
           block_cyclic_16_4_1_well_formed block_cyclic_16_4_1_int32).
Defined.

Lemma local_from_global_decides_ownership_witness :
  well_formed (Block block_10_0_5) /\
  checks_ownership (Block block_10_0_5) /\
  local_from_global (Block block_10_0_5) 7 = Raise IndexError.
Proof.
  split; [exact block_10_0_5_well_formed|]. split; [exact I|].
  exact (proj2 (local_from_global_decides_ownership _ 7
                  block_10_0_5_well_formed I) block_10_0_5_not_owns_7).
Defined.

Lemma CyclicMap_local_from_global_congruence_witness :
  constructed (Cyclic cyclic_16_4_2) /\
  CyclicMap.local_from_global cyclic_16_4_2
    (CyclicMap.start cyclic_16_4_2 + 7 * CyclicMap.grid_size cyclic_16_4_2)
  = OK 7.
Proof.
  split; [exact cyclic_16_4_2_constructed|].
  exact (proj2 (proj2 (CyclicMap_local_from_global_congruence
                         cyclic_16_4_2 0 cyclic_16_4_2_constructed)) 7).
Defined.

Lemma global_from_local_increasing_witness :
  constructed (Cyclic cyclic_16_4_2) /\
  ascending_parameters (Cyclic cyclic_16_4_2) /\
  1 < 2 /\
  global_from_local (Cyclic cyclic_16_4_2) 1 = OK 6 /\
  global_from_local (Cyclic cyclic_16_4_2) 2 = OK 10 /\
  6 < 10.
Proof.
  assert (Ha : ascending_parameters (Cyclic cyclic_16_4_2))
    by (simpl; lia).
  assert (Hl : 1 < 2) by lia.
  split; [exact cyclic_16_4_2_constructed|]. split; [exact Ha|].
  split; [exact Hl|]. split; [reflexivity|]. split; [reflexivity|].
  exact (global_from_local_increasing _ 1 2 6 10
           cyclic_16_4_2_constructed Ha Hl eq_refl eq_refl).
Defined.

Lemma owning_rank_closed_form_witness :
  0 <= 2 < 4 /\
  exists gs, cyclic_owned 16 4 2 = OK gs /\
    forall g, g ∈ gs <-> 0 <= g < 16 /\ g mod 4 = 2.
Proof.
  assert (Hr : 0 <= 2 < 4) by lia.
  split; [exact Hr|].
  exact (proj1 (owning_rank_closed_form 16 4 2 Hr)).
Defined.

Lemma MDMap_global_from_local_spec_witness :
  MDMap_invariant mdmap_two_cyclic /\
  Forall well_formed (MDMap.maps mdmap_two_cyclic) /\
  Forall int32_indices (MDMap.maps mdmap_two_cyclic) /\
  length [1; 4] = length (MDMap.maps mdmap_two_cyclic) /\
  MDMap.global_from_local mdmap_two_cyclic [1; 4] = Raise IndexError.
Proof.
  assert (Hinv : MDMap_invariant mdmap_two_cyclic) by reflexivity.
  assert (Hlen : length [1; 4] = length (MDMap.maps mdmap_two_cyclic))
    by reflexivity.
  split; [exact Hinv|]. split; [exact mdmap_two_cyclic_well_formed|].
  split; [exact mdmap_two_cyclic_int32|]. split; [exact Hlen|].
  apply (proj2 (MDMap_global_from_local_spec mdmap_two_cyclic [1; 4]
                  Hinv mdmap_two_cyclic_well_formed mdmap_two_cyclic_int32
                  Hlen)).
  exists 1%nat, (Cyclic cyclic_16_4_2), 4.
  split; [reflexivity|]. split; [reflexivity|].
  right. simpl. lia.
Defined.

Lemma MDMap_translations_inverse_witness :
  MDMap_invariant mdmap_two_cyclic /\
  Forall well_formed (MDMap.maps mdmap_two_cyclic) /\
  Forall int32_indices (MDMap.maps mdmap_two_cyclic) /\
  length [3; 10] = length (MDMap.maps mdmap_two_cyclic) /\
  MDMap.local_from_global mdmap_two_cyclic [3; 10] = OK [1; 2] /\
  MDMap.global_from_local mdmap_two_cyclic [1; 2] = OK [3; 10].
Proof.
  assert (Hinv : MDMap_invariant mdmap_two_cyclic) by reflexivity.
  assert (Hlen : length [3; 10] = length (MDMap.maps mdmap_two_cyclic))
    by reflexivity.
  assert (Hlfg : MDMap.local_from_global mdmap_two_cyclic [3; 10]
                 = OK [1; 2]) by (vm_compute; reflexivity).
  split; [exact Hinv|]. split; [exact mdmap_two_cyclic_well_formed|].
  split; [exact mdmap_two_cyclic_int32|].
  split; [exact Hlen|]. split; [exact Hlfg|].
  exact (proj2 (MDMap_translations_inverse mdmap_two_cyclic [1; 2]
                  [3; 10] Hinv mdmap_two_cyclic_well_formed
                  mdmap_two_cyclic_int32) Hlen Hlfg).
Defined.

Lemma MDMap_local_shape_spec_witness :
  Forall well_formed (MDMap.maps mdmap_two_cyclic) /\
  Forall int32_indices (MDMap.maps mdmap_two_cyclic) /\
  MDMap.local_shape mdmap_two_cyclic
  = OK ((fun m => Z.max 0 (local_size m))
          <$> MDMap.maps mdmap_two_cyclic).
Proof.
  split; [exact mdmap_two_cyclic_well_formed|].
  split; [exact mdmap_two_cyclic_int32|].
  exact (MDMap_local_shape_spec _ mdmap_two_cyclic_well_formed
           mdmap_two_cyclic_int32).
Defined.

Lemma factory_map_bijection_witness :
  map_from_dim_dict cyclic_descriptor = OK (Cyclic cyclic_16_4_2) /\
  0 <= 1 < local_size (Cyclic cyclic_16_4_2) /\
  exists g,
    global_from_local (Cyclic cyclic_16_4_2) 1 = OK g /\
    local_from_global (Cyclic cyclic_16_4_2) g = OK 1.
Proof.
  assert (Hdd : map_from_dim_dict cyclic_descriptor
                = OK (Cyclic cyclic_16_4_2)) by reflexivity.
  assert (Hl : 0 <= 1 < local_size (Cyclic cyclic_16_4_2))
    by (simpl; lia).
  split; [exact Hdd|]. split; [exact Hl|].
  apply (factory_map_bijection cyclic_descriptor _ 1 Hdd); [|exact Hl].
  intros idx Hidx. discriminate Hidx.
Defined.

Lemma not_distributed_axis_witness :
  DimDict.dist_type not_distributed_descriptor = Some "n" /\
  DimDict.size not_distributed_descriptor = Some 20 /\
  exists bm dd',
    map_from_dim_dict not_distributed_descriptor = OK (Block bm) /\
    global_index (Block bm) = OK (range1 20) /\
    (forall g, 0 <= g < 20 -> local_from_global (Block bm) g = OK g) /\
    (forall g, g < 0 \/ 20 <= g ->
       local_from_global (Block bm) g = Raise IndexError) /\
    (forall l, l < 20 -> global_from_local (Block bm) l = OK l) /\
    (forall l, 20 <= l -> global_from_local (Block bm) l = Raise IndexError) /\
    dim_dict (Block bm) = OK dd' /\
    DimDict.dist_type dd' = Some "b" /\
    DimDict.size dd' = Some 20 /\
    DimDict.start dd' = Some 0 /\ DimDict.stop dd' = Some 20.
Proof.
  split; [reflexivity|]. split; [reflexivity|].
  exact (not_distributed_axis not_distributed_descriptor 20
           eq_refl eq_refl).
Defined.

Lemma round_trip_by_class_witness :
  constructed (Cyclic cyclic_16_4_2) /\
  round_trip (Cyclic cyclic_16_4_2) = OK (Cyclic cyclic_16_4_2).
Proof.
  split; [exact cyclic_16_4_2_constructed|].
  exact (round_trip_by_class (Cyclic cyclic_16_4_2)
           cyclic_16_4_2_constructed).
Defined.

Lemma unstructured_first_and_last_witness :
  exists m,
    UnstructuredMap.init 9 1 0 (Some [5; 1; 5]) = OK m /\
    UnstructuredMap.local_from_global m 5 = OK 0 /\
    exists d, UnstructuredMap.local_index m = OK d /\ d !! 5 = Some 2.
Proof.
  eexists. split; [reflexivity|].
  apply (unstructured_first_and_last 9 1 0 [5; 1; 5] _ 5 0 2 eq_refl).
  - reflexivity.
  - intros k Hk. lia.
  - reflexivity.
  - intros k Hk. destruct k as [|[|[|k]]]; try lia. discriminate.
Defined.

Lemma normalize_index_idempotent_witness :
  DistArray._normalize_index [3; 5] (IndexList [-1; 2]) = OK [2; 2] /\
  DistArray._normalize_index [3; 5] (IndexTuple [2; 2]) = OK [2; 2].
Proof.
  assert (H : DistArray._normalize_index [3; 5] (IndexList [-1; 2])
              = OK [2; 2]) by reflexivity.
  split; [exact H|].
  exact (normalize_index_idempotent [3; 5] (IndexList [-1; 2]) [2; 2] H).
Defined.

(** ** Building an MDMap *)

(** X20. [MDMap.from_dim_data] builds one map per descriptor, in order:
    when it succeeds, [ndim] is the number of maps, which is the number of
    descriptors, and the map of each dimension is the one
    [map_from_dim_dict] returns for the descriptor of that dimension; it
    succeeds exactly when the factory accepts every descriptor. *)
Theorem MDMap_from_dim_data_spec (dim_data : list DimDict.t) :
  (forall md,
     MDMap.from_dim_data dim_data = OK md ->
     MDMap_invariant md /\
     length (MDMap.maps md) = length dim_data /\
     forall (i : nat) dd m,
       dim_data !! i = Some dd -> MDMap.maps md !! i = Some m ->
       map_from_dim_dict dd = OK m /\ constructed m) /\
  (is_ok (MDMap.from_dim_data dim_data)
   <-> Forall (fun dd => is_ok (map_from_dim_dict dd)) dim_data).
Proof.
  split; [|apply MDMap_from_dim_data_is_ok].
  intros md H. unfold MDMap.from_dim_data in H.
  apply bind_OK in H as (ms & Hms & [= <-]).
  apply traverse_OK_iff in Hms.
  split; [reflexivity|]. cbn [MDMap.maps].
  split; [symmetry; eapply Forall2_length; exact Hms|].
  intros i dd m Hdd Hm.
  pose proof (Forall2_lookup_lr _ _ _ _ _ _ Hms Hdd Hm) as Hf.
  split; [exact Hf|]. eapply map_from_dim_dict_constructed. exact Hf.
Qed.

(** ** Reconstruction from a descriptor table *)

Lemma traverse_Raise_inv {A B : Type} (f : A -> result B) (xs : list A)
    (e : exn) :
  traverse f xs = Raise e -> exists x, x ∈ xs /\ f x = Raise e.
Proof.
  induction xs as [|x xs IH]; simpl; [discriminate|].
  destruct (f x) as [y|e'] eqn:Hx; simpl.
  - destruct (traverse f xs) as [ys|e'']; simpl; [discriminate|].
    intros [= ->]. destruct IH as (x0 & Hin & Hx0); [reflexivity|].
    exists x0. split; [apply list_elem_of_further, Hin | exact Hx0].
  - intros [= ->]. exists x. split; [apply list_elem_of_here | exact Hx].
Qed.

Lemma tiling_conflict_None (from n r : Z)
    (segments : list (option Z * option Z)) :
  Distribution.tiling_conflict from n r segments = None
  <-> block_tiling from n segments.
Proof.
  revert from r. induction segments as [|[s e] rest IH]; intros from r; simpl.
  - destruct (decide (from = n)); split; intros H; congruence.
  - destruct s as [s|], e as [e|].
    + destruct (decide (s = from /\ from <= e)) as [[-> Hle]|Hno].
      * rewrite IH. split.
        -- intros H. split; [reflexivity|]. exists e. auto.
        -- intros (_ & e' & [= <-] & _ & H). exact H.
      * split; [discriminate|].
        intros ([= ->] & e' & [= <-] & Hle & _). tauto.
    + split; [discriminate | intros (_ & e' & He & _); discriminate].
    + split; [discriminate | intros (Hs & _); discriminate].
    + split; [discriminate | intros (Hs & _); discriminate].
Qed.

Lemma conflict_at_ranks (r len : Z) :
  0 <= r < len ->
  Distribution.conflict_at r <> [] /\
  Forall (fun x => 0 <= x < len) (Distribution.conflict_at r).
Proof.
  intros Hr. unfold Distribution.conflict_at.
  destruct (decide (r = 0)); (split; [discriminate|]).
  - apply Forall_cons. split; [lia | apply Forall_nil_2].
  - apply Forall_cons. split; [lia|].
    apply Forall_cons. split; [lia | apply Forall_nil_2].
Qed.

Lemma tiling_conflict_ranks (from n r : Z)
    (segments : list (option Z * option Z)) (ranks : list Z) :
  Distribution.tiling_conflict from n r segments = Some ranks ->
  0 <= r -> (r = 0 -> segments <> []) ->
  ranks <> [] /\
  Forall (fun x => 0 <= x < r + Z.of_nat (length segments)) ranks.
Proof.
  revert from r. induction segments as [|[s e] rest IH]; intros from r; simpl.
  - destruct (decide (from = n)); [discriminate|]. intros [= <-] Hr Hne.
    assert (r <> 0) by (intros ->; apply Hne; reflexivity).
    split; [discriminate|]. constructor; [lia | constructor].
  - intros H Hr _.
    assert (Hat : Distribution.conflict_at r <> [] /\
                  Forall (fun x => 0 <= x < r + Z.of_nat (S (length rest)))
                    (Distribution.conflict_at r))
      by (apply conflict_at_ranks; lia).
    destruct s as [s|], e as [e|]; try (injection H as <-; exact Hat).
    destruct (decide (s = from /\ from <= e)); [|injection H as <-; exact Hat].
    destruct (IH _ _ H) as [Hne HF]; [lia | lia |].
    split; [exact Hne|].
    eapply Forall_impl; [exact HF|]. intros x Hx. simpl in Hx. lia.
Qed.

Lemma axis_kind_Some (od : option DimDict.t) (t : string) (n : Z) :
  Distribution.axis_kind od = Some (t, n)
  <-> exists d, od = Some d /\
        DimDict.dist_type d = Some t /\ DimDict.size d = Some n.
Proof.
  unfold Distribution.axis_kind. split.
  - destruct od as [d|]; [|discriminate].
    destruct (DimDict.dist_type d) as [t'|] eqn:Ht; [|discriminate].
    destruct (DimDict.size d) as [n'|] eqn:Hn; [|discriminate].
    intros [= -> ->]. eauto.
  - intros (d & -> & -> & ->). reflexivity.
Qed.

Lemma segment_column (table : list (list DimDict.t)) (axis : nat) :
  Distribution.segment <$> Distribution.column table axis
  = axis_segments table axis.
Proof.
  unfold Distribution.column, axis_segments. rewrite <- list_fmap_compose.
  apply list_fmap_ext. intros i dd _. reflexivity.
Qed.

Lemma indices_column (table : list (list DimDict.t)) (axis : nat) :
  Distribution.indices_of <$> Distribution.column table axis
  = axis_indices table axis.
Proof.
  unfold Distribution.column, axis_indices. rewrite <- list_fmap_compose.
  apply list_fmap_ext. intros i dd _. reflexivity.
Qed.

(** Clause (b) on the column of an axis. *)
Lemma column_agrees (table : list (list DimDict.t)) (axis : nat)
    (t : string) (n : Z) :
  Forall (fun od => Distribution.axis_kind od = Some (t, n))
    (Distribution.column table axis)
  <-> forall (r : nat) dim_data, table !! r = Some dim_data ->
        exists d, dim_data !! axis = Some d /\
          DimDict.dist_type d = Some t /\ DimDict.size d = Some n.
Proof.
  unfold Distribution.column. rewrite Forall_fmap, Forall_lookup. simpl.
  split; intros H r dd Hdd.
  - apply axis_kind_Some. exact (H r dd Hdd).
  - apply axis_kind_Some. exact (H r dd Hdd).
Qed.

Lemma validate_axis_OK (table : list (list DimDict.t)) (axis : nat) :
  Distribution.validate_axis table axis = OK tt
  <-> axis_consistent table axis.
Proof.
  unfold Distribution.validate_axis, axis_consistent.
  rewrite <- segment_column, <- indices_column.
  setoid_rewrite <- column_agrees.
  set (col := Distribution.column table axis).
  destruct col as [|od col'] eqn:Hcol.
  { split; [|reflexivity]. intros _. exists "n", 0.
    split; [constructor|]. split; discriminate. }
  rewrite <- Hcol.
  destruct (Distribution.axis_kind od) as [[t n]|] eqn:Hk.
  2:{ split; [discriminate|]. intros (t & n & Hall & _).
      rewrite Hcol in Hall. apply Forall_cons in Hall as [H0 _]. congruence. }
  destruct (list_find _ col) as [[r od']|] eqn:Hfind.
  { split; [discriminate|]. intros (t' & n' & Hall & _).
    apply list_find_Some in Hfind as (Hr & Hne & _).
    assert (Some (t', n') = Some (t, n)) as [= -> ->].
    { rewrite Hcol in Hall. apply Forall_cons in Hall as [H0 _]. congruence. }
    rewrite Forall_lookup in Hall. destruct (Hne (Hall r od' Hr)). }
  apply list_find_None in Hfind.
  assert (Hall : Forall (fun od => Distribution.axis_kind od = Some (t, n))
                   col).
  { eapply Forall_impl; [exact Hfind|]. intros od' Hod'. simpl in Hod'.
    destruct (decide (Distribution.axis_kind od' = Some (t, n))); tauto. }
  assert (Huniq : forall t' n',
    Forall (fun od => Distribution.axis_kind od = Some (t', n')) col ->
    t' = t /\ n' = n).
  { intros t' n' H'. rewrite Hcol in H'.
    apply Forall_cons in H' as [H0 _]. split; congruence. }
  destruct (decide (t = "b")) as [->|Hb].
  { destruct (Distribution.tiling_conflict 0 n 0 _) as [ranks|] eqn:Ht.
    - split; [discriminate|]. intros (t' & n' & H' & Hb' & _).
      destruct (Huniq _ _ H') as [-> ->].
      specialize (Hb' eq_refl).
      apply (tiling_conflict_None 0 n 0) in Hb'. congruence.
    - split; [|reflexivity]. intros _. exists "b", n.
      split; [exact Hall|]. split; [|discriminate].
      intros _. eapply tiling_conflict_None. exact Ht. }
  destruct (decide (t = "u")) as [->|Hu].
  { destruct (decide (_ ≡ₚ seqZ 0 n)) as [Hp|Hp].
    - split; [|reflexivity]. intros _. exists "u", n.
      split; [exact Hall|]. split; [discriminate | intros _; exact Hp].
    - split; [discriminate|]. intros (t' & n' & H' & _ & Hu').
      destruct (Huniq _ _ H') as [-> ->]. destruct (Hp (Hu' eq_refl)). }
  split; [|reflexivity]. intros _. exists t, n.
  split; [exact Hall|]. split; intros ->; contradiction.
Qed.

Lemma validate_axis_Raise (table : list (list DimDict.t)) (axis : nat)
    (e : exn) :
  Distribution.validate_axis table axis = Raise e ->
  exists ranks,
    e = DescriptorConsistencyError (Z.of_nat axis) ranks /\
    ranks <> [] /\
    Forall (fun r => 0 <= r < Z.of_nat (length table)) ranks.
Proof.
  unfold Distribution.validate_axis.
  assert (Hlen : length (Distribution.column table axis) = length table)
    by (unfold Distribution.column; apply length_fmap).
  remember (Distribution.column table axis) as col eqn:Hdef. clear Hdef.
  destruct col as [|od col']; [discriminate|].
  assert (Hpos : (0 < length table)%nat) by (rewrite <- Hlen; simpl; lia).
  remember (od :: col') as col eqn:Hcol.
  assert (Hne : col <> []) by (rewrite Hcol; discriminate).
  clear Hcol. rewrite <- Hlen in *.
  destruct (Distribution.axis_kind od) as [[t n]|].
  2:{ intros [= <-]. eexists. split; [reflexivity|].
      split; [discriminate|].
      apply Forall_cons. split; [lia | apply Forall_nil_2]. }
  destruct (list_find _ col) as [[r od']|] eqn:Hfind.
  { intros [= <-]. eexists. split; [reflexivity|].
    apply list_find_Some in Hfind as (Hr & _).
    apply lookup_lt_Some in Hr.
    split; [discriminate|].
    apply Forall_cons. split; [lia|].
    apply Forall_cons. split; [lia | apply Forall_nil_2]. }
  destruct (decide (t = "b")).
  { destruct (Distribution.tiling_conflict 0 n 0 _) as [ranks|] eqn:Ht;
      [|discriminate].
    intros [= <-]. exists ranks. split; [reflexivity|].
    apply tiling_conflict_ranks in Ht as [Hr HF]; [|lia|].
    - split; [exact Hr|]. eapply Forall_impl; [exact HF|].
      intros x Hx. simpl in Hx. rewrite length_fmap in Hx. lia.
    - intros _ H. apply fmap_nil_inv in H. contradiction. }
  destruct (decide (t = "u")); [|discriminate].
  destruct (decide (_ ≡ₚ seqZ 0 n)); [discriminate|].
  intros [= <-]. eexists. split; [reflexivity|]. split.
  - intros H. apply (f_equal length) in H. rewrite length_seqZ in H.
    simpl in H. lia.
  - apply Forall_forall. intros x Hx. apply elem_of_seqZ in Hx. lia.
Qed.

Lemma block_tiling_adjacent (from n : Z)
    (segments : list (option Z * option Z)) (i : nat)
    (s0 e0 s1 e1 : option Z) :
  block_tiling from n segments ->
  segments !! i = Some (s0, e0) -> segments !! S i = Some (s1, e1) ->
  exists a b, e0 = Some a /\ s1 = Some a /\ e1 = Some b /\ a <= b.
Proof.
  revert from i. induction segments as [|[s e] rest IH]; intros from i;
    [discriminate|].
  simpl. intros (-> & e' & -> & Hle & Hrest) H0 H1.
  destruct i as [|i]; simpl in H0, H1.
  - injection H0 as <- <-. destruct rest as [|[s' e''] rest']; [discriminate|].
    injection H1 as -> ->. simpl in Hrest.
    destruct Hrest as (-> & b & -> & Hb & _). exists e', b. auto.
  - exact (IH e' i Hrest H0 H1).
Qed.

Lemma block_tiling_last (from n : Z)
    (segments : list (option Z * option Z)) (s e : option Z) :
  block_tiling from n segments ->
  last segments = Some (s, e) -> e = Some n.
Proof.
  revert from. induction segments as [|[s' e'] rest IH]; intros from;
    [discriminate|].
  simpl. intros (-> & b & -> & Hle & Hrest).
  destruct rest as [|seg rest'].
  - simpl in Hrest. subst b. intros [= <- <-]. reflexivity.
  - intros Hl. exact (IH b Hrest Hl).
Qed.

Lemma tiling_conflict_refutes (n from0 : Z)
    (segments : list (option Z * option Z)) :
  forall (from : Z) (prefix : list (option Z * option Z)) (ranks : list Z),
    Distribution.tiling_conflict from n (Z.of_nat (length prefix)) segments
    = Some ranks ->
    (prefix = [] -> from = from0) ->
    (forall s e, last prefix = Some (s, e) -> e = Some from) ->
    forall full' : list (option Z * option Z),
      length full' = length (prefix ++ segments) ->
      (forall x, x ∈ ranks ->
         full' !! Z.to_nat x = (prefix ++ segments) !! Z.to_nat x) ->
      ~ block_tiling from0 n full'.
Proof.
  induction segments as [|seg rest IH];
    intros from prefix ranks Hc Hfirst Hlast full' Hlen Hagree Htile.
  - simpl in Hc. destruct (decide (from = n)) as [|Hne]; [discriminate|].
    injection Hc as <-. rewrite app_nil_r in *.
    destruct (last prefix) as [[s e]|] eqn:Hl.
    + pose proof (Hlast s e eq_refl) as ->.
      assert (Hpos : (0 < length prefix)%nat).
      { destruct prefix; [discriminate | simpl; lia]. }
      rewrite last_lookup in Hl.
      assert (Hl' : last full' = Some (s, Some from)).
      { rewrite last_lookup, Hlen, <- Hl.
        replace (pred (length prefix))
          with (Z.to_nat (Z.of_nat (length prefix) - 1)) by lia.
        apply Hagree, list_elem_of_here. }
      apply (block_tiling_last _ _ _ _ _ Htile) in Hl'. congruence.
    + apply last_None in Hl. subst prefix. simpl in Hlen.
      apply nil_length_inv in Hlen. subst full'. simpl in Htile.
      rewrite (Hfirst eq_refl) in Hne. contradiction.
  - simpl in Hc.
    assert (Hbad : ranks = Distribution.conflict_at (Z.of_nat (length prefix))
                   -> ~ (exists e, seg = (Some from, Some e) /\ from <= e)
                   -> False).
    { intros -> Hno. apply Hno.
      assert (Hseg : full' !! length prefix = Some seg).
      { rewrite <- (Nat2Z.id (length prefix)), Hagree.
        - rewrite Nat2Z.id, lookup_app_r by lia.
          rewrite Nat.sub_diag. reflexivity.
        - unfold Distribution.conflict_at.
          destruct (decide (Z.of_nat (length prefix) = 0)) as [->|].
          + apply list_elem_of_here.
          + apply list_elem_of_further, list_elem_of_here. }
      destruct prefix as [|p0 prefix'].
      - simpl in Hseg. destruct full' as [|seg' full'']; [discriminate|].
        injection Hseg as ->. destruct seg as [s e]. simpl in Htile.
        destruct Htile as (-> & e' & -> & Hle & _).
        rewrite (Hfirst eq_refl). eauto.
      - set (prefix := p0 :: prefix') in *.
        assert (Hpos : (0 < length prefix)%nat) by (simpl; lia).
        destruct (last prefix) as [[s0 e0]|] eqn:Hl.
        2:{ apply last_None in Hl. discriminate. }
        pose proof (Hlast s0 e0 eq_refl) as ->.
        rewrite last_lookup in Hl.
        assert (Hprev : full' !! pred (length prefix)
                        = Some (s0, Some from)).
        { rewrite <- Hl.
          rewrite <- (lookup_app_l prefix (seg :: rest))
            by (simpl; lia).
          replace (pred (length prefix))
            with (Z.to_nat (Z.of_nat (length prefix) - 1)) by lia.
          apply Hagree. unfold Distribution.conflict_at.
          destruct (decide (Z.of_nat (length prefix) = 0)); [lia|].
          apply list_elem_of_here. }
        destruct seg as [s e].
        replace (length prefix) with (S (pred (length prefix))) in Hseg
          by lia.
        destruct (block_tiling_adjacent _ _ _ _ _ _ _ _ Htile Hprev Hseg)
          as (a & b & [= <-] & -> & -> & Hab).
        eauto. }
    destruct seg as [[s|] [e|]];
      try (injection Hc as <-; apply Hbad; [reflexivity|];
           intros (e' & [= ] & _)).
    destruct (decide (s = from /\ from <= e)) as [[-> Hle]|Hno].
    + replace (Z.of_nat (length prefix) + 1)
        with (Z.of_nat (length (prefix ++ [(Some from, Some e)]))) in Hc
        by (rewrite length_app; simpl; lia).
      apply (IH e (prefix ++ [(Some from, Some e)]) ranks Hc) with full'.
      * intros H. apply app_eq_nil in H as [_ H]. discriminate.
      * intros s0 e0. rewrite last_snoc. intros [= <- <-]. reflexivity.
      * rewrite <- app_assoc. exact Hlen.
      * intros x Hx. rewrite <- app_assoc. exact (Hagree x Hx).
      * exact Htile.
    + injection Hc as <-. apply Hbad; [reflexivity|].
      intros (e' & [= -> ->] & Hle). tauto.
Qed.

Lemma validate_axis_conflict (table : list (list DimDict.t)) (axis : nat)
    (a : Z) (ranks : list Z) :
  Distribution.validate_axis table axis
  = Raise (DescriptorConsistencyError a ranks) ->
  ranks_in_conflict table axis ranks.
Proof.
  intros Hv table' Hlen Hagree (t' & n' & Hkind' & Hb' & Hu').
  assert (Hin : forall (r : nat) dd,
    Z.of_nat r ∈ ranks -> table !! r = Some dd ->
    Distribution.axis_kind (dd !! axis) = Some (t', n')).
  { intros r dd Hr Hdd. apply axis_kind_Some. apply (Hkind' r).
    rewrite <- Hdd. specialize (Hagree _ Hr).
    rewrite Nat2Z.id in Hagree. exact Hagree. }
  revert Hv. unfold Distribution.validate_axis.
  pose proof (segment_column table axis) as Hseg.
  pose proof (indices_column table axis) as Hidx.
  assert (Hlook : forall (r : nat) od,
    Distribution.column table axis !! r = Some od ->
    exists dd, table !! r = Some dd /\ od = dd !! axis).
  { intros r od. unfold Distribution.column. rewrite list_lookup_fmap.
    destruct (table !! r) as [dd|]; [|discriminate].
    intros [= <-]. eauto. }
  assert (Hcl : length (Distribution.column table axis) = length table)
    by (unfold Distribution.column; apply length_fmap).
  set (col := Distribution.column table axis) in *.
  destruct col as [|od col'] eqn:Hcol; [discriminate|].
  rewrite <- Hcol in Hseg, Hidx, Hlook, Hcl |- *.
  assert (H0 : col !! 0%nat = Some od) by (rewrite Hcol; reflexivity).
  destruct (Hlook _ _ H0) as (dd0 & Hdd0 & Hod).
  destruct (Distribution.axis_kind od) as [[t n]|] eqn:Hk.
  2:{ intros [= <- <-].
      rewrite Hod, (Hin 0%nat dd0) in Hk; [discriminate | | exact Hdd0].
      apply list_elem_of_here. }
  destruct (list_find _ col) as [[r od']|] eqn:Hfind.
  { intros [= <- <-]. apply list_find_Some in Hfind as (Hr & Hne & _).
    destruct (Hlook _ _ Hr) as (dd & Hdd & ->).
    rewrite Hod, (Hin 0%nat dd0) in Hk;
      [| apply list_elem_of_here | exact Hdd0].
    apply Hne. rewrite <- Hk. apply (Hin r); [|exact Hdd].
    apply list_elem_of_further, list_elem_of_here. }
  apply list_find_None in Hfind.
  assert (Hall : forall (r : nat) dd, table !! r = Some dd ->
    Distribution.axis_kind (dd !! axis) = Some (t, n)).
  { intros r dd Hdd.
    assert (Hc : col !! r = Some (dd !! axis)).
    { subst col. unfold Distribution.column.
      rewrite list_lookup_fmap, Hdd. reflexivity. }
    rewrite Forall_lookup in Hfind. specialize (Hfind r _ Hc). simpl in Hfind.
    destruct (decide (Distribution.axis_kind (dd !! axis) = Some (t, n)));
      tauto. }
  assert (Hsame : forall x, x ∈ ranks ->
    0 <= x < Z.of_nat (length table) -> t' = t /\ n' = n).
  { intros x Hx Hr.
    destruct (lookup_lt_is_Some_2 table (Z.to_nat x)) as [dd Hdd]; [lia|].
    pose proof (Hall _ _ Hdd) as H1.
    rewrite (Hin (Z.to_nat x) dd) in H1; [| |exact Hdd].
    - injection H1 as -> ->. auto.
    - rewrite Z2Nat.id by lia. exact Hx. }
  destruct (decide (t = "b")) as [->|Hb].
  { destruct (Distribution.tiling_conflict 0 n 0 _) as [ranks'|] eqn:Ht;
      [|discriminate].
    intros [= <- <-].
    pose proof Ht as Hranks.
    apply tiling_conflict_ranks in Hranks as [Hne HF]; [|lia|].
    2:{ intros _ H. apply fmap_nil_inv in H. rewrite Hcol in H.
        discriminate. }
    destruct ranks' as [|x ranks'']; [contradiction|].
    pose proof (Forall_inv HF) as Hx. simpl in Hx.
    rewrite length_fmap, Hcl in Hx.
    destruct (Hsame x) as [-> ->]; [apply list_elem_of_here | lia |].
    specialize (Hb' eq_refl). revert Hb'.
    apply (tiling_conflict_refutes n 0 _ 0 [] _ Ht).
    - reflexivity.
    - intros s e. discriminate.
    - simpl. rewrite Hseg. unfold axis_segments.
      rewrite !length_fmap. exact Hlen.
    - intros y Hy. simpl. rewrite Hseg. unfold axis_segments.
      rewrite !list_lookup_fmap, (Hagree y Hy). reflexivity. }
  destruct (decide (t = "u")) as [->|Hu]; [|discriminate].
  destruct (decide (_ ≡ₚ seqZ 0 n)) as [|Hp]; [discriminate|].
  intros [= <- <-].
  assert (Hpos : (0 < length table)%nat).
  { rewrite <- Hcl, Hcol. simpl. lia. }
  destruct (Hsame 0) as [-> ->]; [apply elem_of_seqZ; lia | lia |].
  assert (Heq : table' = table).
  { apply list_eq. intros i.
    destruct (decide (i < length table)%nat) as [Hi|Hi].
    - rewrite <- (Nat2Z.id i). apply Hagree, elem_of_seqZ. lia.
    - rewrite !lookup_ge_None_2 by lia. reflexivity. }
  subst table'. apply Hp. rewrite Hidx. apply Hu'. reflexivity.
Qed.

Lemma Distribution_from_dim_data_OK (targets : list Z)
    (table : list (list DimDict.t)) (d : Distribution.t) :
  Distribution.from_dim_data targets table = OK d
  <-> table_consistent table /\ d = Distribution.Make targets table.
Proof.
  unfold Distribution.from_dim_data, table_consistent.
  assert (Hall : is_ok (traverse (Distribution.validate_axis table)
                          (seq 0 (Distribution.ndim table)))
                 <-> forall axis : nat,
                       (axis < Distribution.ndim table)%nat ->
                       axis_consistent table axis).
  { rewrite traverse_is_ok, Forall_forall. split.
    - intros H axis Haxis. apply validate_axis_OK.
      destruct (H axis) as [[] Hu]; [|exact Hu].
      apply elem_of_seq. lia.
    - intros H axis Haxis. apply elem_of_seq in Haxis.
      exists tt. apply validate_axis_OK, H. lia. }
  destruct (traverse _ _) as [us|e]; simpl.
  - split.
    + intros [= <-]. split; [|reflexivity]. apply Hall. eexists. reflexivity.
    + intros [_ ->]. reflexivity.
  - split; [discriminate|]. intros [H _]. apply Hall in H as [? ?].
    discriminate.
Qed.

Lemma Distribution_from_dim_data_Raise (targets : list Z)
    (table : list (list DimDict.t)) :
  ~ table_consistent table ->
  exists (axis : nat) ranks,
    Distribution.from_dim_data targets table
    = Raise (DescriptorConsistencyError (Z.of_nat axis) ranks) /\
    (axis < Distribution.ndim table)%nat /\
    ~ axis_consistent table axis /\
    ranks <> [] /\
    Forall (fun r => 0 <= r < Z.of_nat (length table)) ranks /\
    ranks_in_conflict table axis ranks.
Proof.
  intros Hno.
  destruct (Distribution.from_dim_data targets table) as [d|e] eqn:Hd.
  { apply Distribution_from_dim_data_OK in Hd as [H _]. contradiction. }
  unfold Distribution.from_dim_data in Hd.
  destruct (traverse _ _) as [us|e'] eqn:Ht; [discriminate|].
  simpl in Hd. injection Hd as <-.
  apply traverse_Raise_inv in Ht as (axis & Hin & Hax).
  apply elem_of_seq in Hin.
  destruct (validate_axis_Raise table axis e' Hax) as (ranks & -> & Hne & HF).
  exists axis, ranks. split; [reflexivity|]. split; [lia|].
  split; [|split; [exact Hne|split; [exact HF|]]].
  - intros Hc. apply validate_axis_OK in Hc. congruence.
  - eapply validate_axis_conflict. exact Hax.
Qed.

Lemma LocalArray_from_dim_data_is_ok {T : Type} (dim_data : list DimDict.t)
    (dtype : T) :
  is_ok (LocalArray.from_dim_data dim_data dtype)
  <-> is_ok (MDMap.from_dim_data dim_data).
Proof.
  unfold LocalArray.from_dim_data, is_ok.
  destruct (MDMap.from_dim_data dim_data) as [md|e]; simpl.
  - split; intros _; eexists; reflexivity.
  - split; intros [? ?]; discriminate.
Qed.

(** What the engines hold after a successful command: one local array per
    entry of the table, each describing itself with its entry. *)
Lemma Engines_from_dim_data_OK {T : Type} (remote : exn -> exn)
    (table : list (list DimDict.t)) (dtype : T)
    (local_arrays : list (LocalArray.t T)) :
  Engines.from_dim_data remote table dtype = OK local_arrays ->
  LocalArray.dim_data <$> local_arrays = table /\
  Forall (fun la => LocalArray.dtype la = dtype) local_arrays /\
  Forall (fun dim_data => is_ok (MDMap.from_dim_data dim_data)) table.
Proof.
  unfold Engines.from_dim_data.
  destruct (traverse _ table) as [las|e] eqn:Ht; [|discriminate].
  intros [= <-]. apply traverse_OK_iff in Ht.
  induction Ht as [|dd la table las Hla _ IH]; [auto|].
  destruct IH as (Hdd & Hdt & Hok).
  unfold LocalArray.from_dim_data in Hla.
  apply bind_OK in Hla as (md & Hmd & [= <-]).
  split; [simpl; f_equal; exact Hdd|]. split.
  - constructor; [reflexivity | exact Hdt].
  - constructor; [eexists; exact Hmd | exact Hok].
Qed.

Lemma Engines_from_dim_data_is_ok {T : Type} (remote : exn -> exn)
    (table : list (list DimDict.t)) (dtype : T) :
  Forall (fun dim_data => is_ok (MDMap.from_dim_data dim_data)) table ->
  is_ok (Engines.from_dim_data remote table dtype).
Proof.
  intros Hok. unfold Engines.from_dim_data.
  assert (H : is_ok (traverse
                (fun dim_data => LocalArray.from_dim_data dim_data dtype)
                table)).
  { apply traverse_is_ok. eapply Forall_impl; [exact Hok|].
    intros dd Hdd. apply LocalArray_from_dim_data_is_ok. exact Hdd. }
  destruct H as [las ->]. eexists. reflexivity.
Qed.



Lemma gap_table_buildable :
  Forall (fun dim_data => is_ok (MDMap.from_dim_data dim_data)) gap_table.
Proof.
  apply Forall_cons. split; [eexists; reflexivity|].
  apply Forall_cons. split; [eexists; reflexivity | apply Forall_nil_2].
Defined.

Lemma gap_table_inconsistent : ~ table_consistent gap_table.
Proof.
  intros H. assert (H0 : (0 < Distribution.ndim gap_table)%nat) by (cbn; lia).
  apply H, validate_axis_OK in H0. discriminate H0.
Defined.

